(** * The portability layer of [src/platform.ts]

    A shallow embedding of the browser-side polyfills and of the transport
    of [src/platform.ts]: the event dispatcher [EventEmitterImpl], the byte
    buffer [BufferImpl], [urlMatches], the deferred-task scheduler
    [makeWaitForNextTask] and [WebSocketTransport].  Each component is a
    module: first the definitions, translated from the TypeScript source
    line by line, then the properties proved about them. *)

From Stdlib Require Import ZArith Lia.
From stdpp Require Import gmap strings list.

Local Open Scope Z_scope.

(** ** The publish-subscribe dispatcher: [EventEmitterImpl], lines 56-112 *)

Module Dispatcher.

(** [event: string | symbol]: the key of the listener registry. *)
Inductive event :=
| EvString (s : string)
| EvSymbol (n : nat).

#[global] Instance event_eq_dec : EqDecision event.
Proof. solve_decision. Defined.

#[global] Instance event_countable : Countable event.
Proof.
  refine (inj_countable'
    (fun e => match e with EvString s => inl s | EvSymbol n => inr n end)
    (fun x => match x with inl s => EvString s | inr n => EvSymbol n end) _).
  by intros [].
Defined.

(** The arguments of an emission, [...args: any[]]; the dispatcher only
    passes them on. *)
Inductive jsval :=
| VUndefined
| VBool (b : bool)
| VNumber (z : Z)
| VString (s : string).

#[global] Instance jsval_eq_dec : EqDecision jsval.
Proof. solve_decision. Defined.

Definition Args := list jsval.

(** A listener is a function value, and the registry compares listeners by
    reference.  [Fn f] is a function of the caller with reference [f];
    [Wrapped c event listener] is the closure [wrapped] that [once] creates
    at line 75, [c] being the identity of that closure, and [event] and
    [listener] the variables it captures. *)
Inductive Listener :=
| Fn (f : nat)
| Wrapped (c : nat) (ev : event) (listener : Listener).

#[global] Instance Listener_eq_dec : EqDecision Listener.
Proof. solve_decision. Defined.

(** What the body of a caller's function does with the dispatcher it
    closes over: a sequence of method calls, which may depend on the
    function's own mutable state and on what [listenerCount] returns, and
    that ends by returning or by throwing. *)
Inductive prog {U : Type} :=
| Return
| Throw
| CallOn (ev : event) (f : nat) (k : prog)
| CallOnce (ev : event) (f : nat) (k : prog)
| CallRemoveListener (ev : event) (f : nat) (k : prog)
| CallEmit (ev : event) (a : Args) (k : prog)
| CallListenerCount (ev : event) (k : nat -> prog)
| ReadState (k : U -> prog)
| WriteState (u : U) (k : prog).
Arguments prog : clear implicits.

(** What an observer of a run sees, in order. *)
Inductive obs :=
| Queued (l : Listener) (a : Args)    (* line 97: a pair is pushed *)
| Invoked (l : Listener) (a : Args)   (* line 102: the drain loop calls a pair *)
| Called (f : nat) (a : Args)         (* the body of the caller's function f runs *)
| DrainBegin                          (* line 100: a drain loop starts *)
| DrainEnd.                           (* line 104: the queue is discarded *)

#[global] Instance obs_eq_dec : EqDecision obs.
Proof. solve_decision. Defined.

Inductive status := Returned | Threw | OutOfFuel.

Section Emitter.

(** The state of the callers' functions, and their bodies. *)
Context {U : Type}.
Variable code : nat -> Args -> prog U.

(** The fields of [EventEmitterImpl] (lines 57-58).  A JavaScript [Set]
    iterates in insertion order and holds a value once: a list without
    repetition.  [closures] counts the closures allocated by [once], [user]
    is the state of the callers' functions and [trace] what has been
    observed so far. *)
Record state := State {
  _listeners : gmap event (list Listener);
  _deliveryQueue : option (list (Listener * Args));
  closures : nat;
  user : U;
  trace : list obs
}.

Definition new_EventEmitterImpl (u : U) : state :=
  State ∅ None 0 u [].

Definition observe (o : obs) (s : state) : state :=
  State (_listeners s) (_deliveryQueue s) (closures s) (user s) (trace s ++ [o]).

(** [Set.prototype.add] and [Set.prototype.delete]. *)
Definition set_add (l : Listener) (set : list Listener) : list Listener :=
  if decide (l ∈ set) then set else set ++ [l].

Definition set_delete (l : Listener) (set : list Listener) : list Listener :=
  filter (fun l' => l' ≠ l) set.

(** Lines 60-68. *)
Definition on (ev : event) (listener : Listener) (s : state) : state :=
  let set := default [] (_listeners s !! ev) in
  State (<[ev := set_add listener set]> (_listeners s))
        (_deliveryQueue s) (closures s) (user s) (trace s).

(** Lines 70-72. *)
Definition addListener (ev : event) (listener : Listener) (s : state) : state :=
  on ev listener s.

(** Lines 74-80: a new closure [wrapped] is registered. *)
Definition once (ev : event) (listener : Listener) (s : state) : state :=
  let wrapped := Wrapped (closures s) ev listener in
  addListener ev wrapped
    (State (_listeners s) (_deliveryQueue s) (S (closures s)) (user s) (trace s)).

(** Lines 82-87. *)
Definition removeListener (ev : event) (listener : Listener) (s : state) : state :=
  match _listeners s !! ev with
  | Some set =>
      State (<[ev := set_delete listener set]> (_listeners s))
            (_deliveryQueue s) (closures s) (user s) (trace s)
  | None => s
  end.

(** Lines 108-111. *)
Definition listenerCount (ev : event) (s : state) : nat :=
  match _listeners s !! ev with
  | Some set => length set
  | None => 0%nat
  end.

(** Line 97, [this._deliveryQueue.push({ listener, args })]. *)
Definition push (l : Listener) (a : Args) (s : state) : state :=
  observe (Queued l a)
    (State (_listeners s) (option_map (fun q => q ++ [(l, a)]) (_deliveryQueue s))
           (closures s) (user s) (trace s)).

(** Lines 96-97, the loop over the set. *)
Definition push_all (set : list Listener) (a : Args) (s : state) : state :=
  foldl (fun s l => push l a s) s set.

Definition set_queue (q : option (list (Listener * Args))) (s : state) : state :=
  State (_listeners s) q (closures s) (user s) (trace s).

Definition set_user (u : U) (s : state) : state :=
  State (_listeners s) (_deliveryQueue s) (closures s) u (trace s).

(** [emit] (lines 89-106), the loop of lines 100-103 from [index] on
    ([drain]), the call [listener(...args)] ([call]) and the body of a
    caller's function ([run]).  A listener may emit again, so the four are
    mutually recursive, and a listener that emits forever never returns:
    [fuel] bounds the depth of the recursion.  [emit] returns [true] on
    every path; its value is left out. *)
Fixpoint emit (fuel : nat) (ev : event) (a : Args) (s : state) : status * state :=
  match fuel with
  | O => (OutOfFuel, s)
  | S n =>
      match _listeners s !! ev with
      | None => (Returned, s)
      | Some set =>
          if decide (length set = 0%nat) then (Returned, s) else
          let dispatch := bool_decide (_deliveryQueue s = None) in
          let s := if dispatch then set_queue (Some []) s else s in
          let s := push_all set a s in
          if negb dispatch then (Returned, s) else
          match drain n 0 (observe DrainBegin s) with
          | (Returned, s) => (Returned, observe DrainEnd (set_queue None s))
          | r => r
          end
      end
  end
with drain (fuel : nat) (index : nat) (s : state) : status * state :=
  match fuel with
  | O => (OutOfFuel, s)
  | S n =>
      match _deliveryQueue s with
      | None => (Threw, s)   (* unreachable: only line 104 unsets the queue *)
      | Some q =>
          match q !! index with
          | None => (Returned, s)
          | Some (listener, a) =>
              match call n listener a (observe (Invoked listener a) s) with
              | (Returned, s) => drain n (S index) s
              | r => r
              end
          end
      end
  end
with call (fuel : nat) (l : Listener) (a : Args) (s : state) : status * state :=
  match fuel with
  | O => (OutOfFuel, s)
  | S n =>
      match l with
      | Fn f => run n (code f a) (observe (Called f a) s)
      | Wrapped c ev listener => call n listener a (removeListener ev l s)
      end
  end
with run (fuel : nat) (p : prog U) (s : state) : status * state :=
  match fuel with
  | O => (OutOfFuel, s)
  | S n =>
      match p with
      | Return => (Returned, s)
      | Throw => (Threw, s)
      | CallOn ev f k => run n k (on ev (Fn f) s)
      | CallOnce ev f k => run n k (once ev (Fn f) s)
      | CallRemoveListener ev f k => run n k (removeListener ev (Fn f) s)
      | CallEmit ev a k =>
          match emit n ev a s with
          | (Returned, s) => run n k s
          | r => r
          end
      | CallListenerCount ev k => run n (k (listenerCount ev s)) s
      | ReadState k => run n (k (user s)) s
      | WriteState u k => run n k (set_user u s)
      end
  end.

(** The pairs pushed, the pairs invoked and the number of drain loops
    started in a trace. *)
Definition queued_of (t : list obs) : list (Listener * Args) :=
  omap (fun o => match o with Queued l a => Some (l, a) | _ => None end) t.

Definition invoked_of (t : list obs) : list (Listener * Args) :=
  omap (fun o => match o with Invoked l a => Some (l, a) | _ => None end) t.

Definition called_of (t : list obs) : list (nat * Args) :=
  omap (fun o => match o with Called f a => Some (f, a) | _ => None end) t.

Definition drains_of (t : list obs) : nat :=
  length (filter (fun o => o = DrainBegin) t).





(** A body that emits, one event after the other, and returns. *)
Fixpoint emits (es : list (event * Args)) : prog U :=
  match es with
  | [] => Return
  | e :: es => CallEmit (fst e) (snd e) (emits es)
  end.


(** [s'] is [s] after code that ran while a drain was active: the queue
    only grew, by the pairs the code pushed, and the code invoked no pair
    and started no drain loop. *)
Definition appended (s s' : state) : Prop :=
  exists t q,
    trace s' = trace s ++ t /\
    _deliveryQueue s = Some q /\
    _deliveryQueue s' = Some (q ++ queued_of t) /\
    invoked_of t = [] /\
    drains_of t = 0%nat.

Lemma queued_of_app t1 t2 : queued_of (t1 ++ t2) = queued_of t1 ++ queued_of t2.
Proof. apply omap_app. Qed.

Lemma invoked_of_app t1 t2 : invoked_of (t1 ++ t2) = invoked_of t1 ++ invoked_of t2.
Proof. apply omap_app. Qed.

Lemma called_of_app t1 t2 : called_of (t1 ++ t2) = called_of t1 ++ called_of t2.
Proof. apply omap_app. Qed.

Lemma drains_of_app t1 t2 : drains_of (t1 ++ t2) = (drains_of t1 + drains_of t2)%nat.
Proof. unfold drains_of. by rewrite filter_app, length_app. Qed.

Lemma appended_refl s q : _deliveryQueue s = Some q -> appended s s.
Proof.
  intros Hq. exists [], q. simpl. rewrite !app_nil_r. by repeat split.
Qed.

Lemma appended_trans s1 s2 s3 : appended s1 s2 -> appended s2 s3 -> appended s1 s3.
Proof.
  intros (t1 & q1 & Ht1 & Hq1 & Hq1' & Hi1 & Hd1) (t2 & q2 & Ht2 & Hq2 & Hq2' & Hi2 & Hd2).
  exists (t1 ++ t2), q1.
  rewrite Hq1' in Hq2. injection Hq2 as <-.
  rewrite Ht2, Ht1, Hq2', queued_of_app, invoked_of_app, drains_of_app, Hi1, Hi2, Hd1, Hd2.
  by rewrite !app_assoc.
Qed.

(** A step that leaves the queue alone and shows the observer nothing that
    concerns the queue. *)
Lemma appended_silent s s' t q :
  _deliveryQueue s = Some q -> _deliveryQueue s' = Some q ->
  trace s' = trace s ++ t ->
  queued_of t = [] -> invoked_of t = [] -> drains_of t = 0%nat ->
  appended s s'.
Proof.
  intros Hq Hq' Ht Hqu Hi Hd. exists t, q. rewrite Hqu, app_nil_r. by repeat split.
Qed.

Lemma appended_on ev l s q : _deliveryQueue s = Some q -> appended s (on ev l s).
Proof. intros Hq. apply (appended_silent _ _ [] q); simpl; by rewrite ?app_nil_r. Qed.

Lemma appended_once ev l s q : _deliveryQueue s = Some q -> appended s (once ev l s).
Proof. intros Hq. apply (appended_silent _ _ [] q); simpl; by rewrite ?app_nil_r. Qed.

Lemma appended_removeListener ev l s q :
  _deliveryQueue s = Some q -> appended s (removeListener ev l s).
Proof.
  intros Hq. unfold removeListener. destruct (_listeners s !! ev).
  - apply (appended_silent _ _ [] q); simpl; by rewrite ?app_nil_r.
  - by apply (appended_refl _ q).
Qed.

Lemma appended_set_user u s q : _deliveryQueue s = Some q -> appended s (set_user u s).
Proof. intros Hq. apply (appended_silent _ _ [] q); simpl; by rewrite ?app_nil_r. Qed.

Lemma appended_called f a s q :
  _deliveryQueue s = Some q -> appended s (observe (Called f a) s).
Proof. intros Hq. by apply (appended_silent _ _ [Called f a] q). Qed.

Lemma appended_queue s s' : appended s s' -> exists q, _deliveryQueue s' = Some q.
Proof. intros (t & q & _ & _ & Hq & _). eauto. Qed.

Lemma appended_push l a s q : _deliveryQueue s = Some q -> appended s (push l a s).
Proof.
  intros Hq. exists [Queued l a], q. unfold push. simpl. rewrite Hq. by repeat split.
Qed.

Lemma appended_push_all set a s q :
  _deliveryQueue s = Some q -> appended s (push_all set a s).
Proof.
  revert s q. induction set as [|l set IH]; intros s q Hq; simpl.
  - by apply (appended_refl _ q).
  - destruct (appended_push l a s q Hq) as (t & q0 & Hp).
    eapply appended_trans; [by exists t, q0|].
    eapply IH. apply Hp.
Qed.

(** The trace and the queue after the loop of lines 96-97. *)
Lemma push_all_trace set a s :
  trace (push_all set a s) = trace s ++ map (fun l => Queued l a) set.
Proof.
  revert s. induction set as [|l set IH]; intros s.
  - simpl. by rewrite app_nil_r.
  - change (push_all (l :: set) a s) with (push_all set a (push l a s)).
    rewrite IH. simpl. by rewrite <- app_assoc.
Qed.

Lemma push_all_queue set a s q :
  _deliveryQueue s = Some q ->
  _deliveryQueue (push_all set a s) = Some (q ++ map (fun l => (l, a)) set).
Proof.
  revert s q. induction set as [|l set IH]; intros s q Hq.
  - simpl. by rewrite app_nil_r.
  - change (push_all (l :: set) a s) with (push_all set a (push l a s)).
    erewrite IH; [|simpl; by rewrite Hq].
    simpl. by rewrite <- app_assoc.
Qed.


Lemma invoked_of_pushed set a : invoked_of (map (fun l => Queued l a) set) = [].
Proof. induction set as [|l set IH]; simpl; done. Qed.

Lemma called_of_pushed set a : called_of (map (fun l => Queued l a) set) = [].
Proof. by induction set. Qed.


(** Code that runs while a queue exists only appends to it: a nested
    [emit] returns after line 99, and neither a listener nor the body of a
    function reaches the loop of lines 100-103. *)
Lemma nested_appends fuel :
  (forall ev a s st s' q, _deliveryQueue s = Some q ->
     emit fuel ev a s = (st, s') -> appended s s') /\
  (forall l a s st s' q, _deliveryQueue s = Some q ->
     call fuel l a s = (st, s') -> appended s s') /\
  (forall p s st s' q, _deliveryQueue s = Some q ->
     run fuel p s = (st, s') -> appended s s').
Proof.
  induction fuel as [|n (IHemit & IHcall & IHrun)].
  { repeat split; intros; simplify_eq/=; by eapply appended_refl. }
  split; [|split].
  - intros ev a s st s' q Hq H. simpl in H.
    destruct (_listeners s !! ev) as [set|]; [|simplify_eq; by eapply appended_refl].
    destruct (decide (length set = 0%nat)); [simplify_eq; by eapply appended_refl|].
    rewrite Hq in H. rewrite bool_decide_eq_false_2 in H by done. simpl in H.
    simplify_eq. by eapply appended_push_all.
  - intros l a s st s' q Hq H. simpl in H. destruct l as [f|c ev l].
    + eapply appended_trans; [by eapply appended_called|].
      eapply IHrun; [|exact H]. exact Hq.
    + pose proof (appended_removeListener ev (Wrapped c ev l) s q Hq) as Hr.
      destruct (appended_queue _ _ Hr) as [q' Hq'].
      eapply appended_trans; [exact Hr|]. by eapply IHcall.
  - intros p s st s' q Hq H. simpl in H.
    destruct p as [| |ev f k|ev f k|ev f k|ev a k|ev k|k|u k]; simplify_eq.
    + by eapply appended_refl.
    + by eapply appended_refl.
    + pose proof (appended_on ev (Fn f) s q Hq) as Hr.
      destruct (appended_queue _ _ Hr) as [q' Hq'].
      eapply appended_trans; [exact Hr|]. by eapply IHrun.
    + pose proof (appended_once ev (Fn f) s q Hq) as Hr.
      destruct (appended_queue _ _ Hr) as [q' Hq'].
      eapply appended_trans; [exact Hr|]. by eapply IHrun.
    + pose proof (appended_removeListener ev (Fn f) s q Hq) as Hr.
      destruct (appended_queue _ _ Hr) as [q' Hq'].
      eapply appended_trans; [exact Hr|]. by eapply IHrun.
    + destruct (emit n ev a s) as [st1 s1] eqn:He.
      pose proof (IHemit _ _ _ _ _ _ Hq He) as Hr.
      destruct (appended_queue _ _ Hr) as [q' Hq'].
      destruct st1; simplify_eq; try exact Hr.
      eapply appended_trans; [exact Hr|]. by eapply IHrun.
    + by eapply IHrun.
    + by eapply IHrun.
    + pose proof (appended_set_user u s q Hq) as Hr.
      destruct (appended_queue _ _ Hr) as [q' Hq'].
      eapply appended_trans; [exact Hr|]. by eapply IHrun.
Qed.

(** The loop of lines 100-103, entered at [index] with queue [q]: what it
    invokes is a prefix of the queue from [index] on, pairs appended
    meanwhile included, and all of it when the loop ends normally. *)
Lemma drain_fifo fuel : forall index s st s' q,
  _deliveryQueue s = Some q -> (index <= length q)%nat ->
  drain fuel index s = (st, s') ->
  exists t j,
    trace s' = trace s ++ t /\
    _deliveryQueue s' = Some (q ++ queued_of t) /\
    drains_of t = 0%nat /\
    invoked_of t = take j (drop index (q ++ queued_of t)) /\
    (st = Returned -> invoked_of t = drop index (q ++ queued_of t)).
Proof.
  induction fuel as [|n IH]; intros index s st s' q Hq Hi H; simpl in H.
  { simplify_eq. exists [], 0%nat. simpl. rewrite !app_nil_r. by repeat split. }
  rewrite Hq in H. destruct (q !! index) as [[l a]|] eqn:Hl.
  - destruct (call n l a (observe (Invoked l a) s)) as [st1 s1] eqn:Hc.
    destruct (nested_appends n) as (_ & Hcall & _).
    destruct (Hcall l a (observe (Invoked l a) s) _ _ q Hq Hc)
      as (t1 & q1 & Ht1 & Hq1 & Hq1' & Hi1 & Hd1).
    simpl in Hq1, Ht1. rewrite Hq in Hq1. injection Hq1 as <-.
    assert (Hdrop : forall q', drop index (q ++ q') = (l, a) :: drop (S index) (q ++ q')).
    { intros q'. apply drop_S. by apply lookup_app_l_Some. }
    assert (Hstop : exists t j,
      trace s1 = trace s ++ t /\
      _deliveryQueue s1 = Some (q ++ queued_of t) /\
      drains_of t = 0%nat /\
      invoked_of t = take j (drop index (q ++ queued_of t))).
    { exists ([Invoked l a] ++ t1), 1%nat.
      rewrite queued_of_app, invoked_of_app, drains_of_app, Hi1, Hd1, Ht1, Hq1', Hdrop.
      simpl. rewrite take_0. by rewrite <- app_assoc. }
    destruct st1; simplify_eq;
      try (destruct Hstop as (t & j & ?); exists t, j; by intuition).
    apply IH with (q := q ++ queued_of t1) in H as (t2 & j & Ht2 & Hq2 & Hd2 & Hi2 & Hr);
      [|done|rewrite length_app; apply lookup_lt_Some in Hl; lia].
    exists ([Invoked l a] ++ t1 ++ t2), (S j).
    rewrite !queued_of_app, !invoked_of_app, !drains_of_app, Hi1, Hd1, Hd2, Ht2, Ht1.
    change (queued_of [Invoked l a]) with (@nil (Listener * Args)).
    change (invoked_of [Invoked l a]) with [(l, a)].
    rewrite <- (app_assoc q) in Hq2, Hi2, Hr. simpl in *.
    rewrite Hdrop. simpl. rewrite <- !app_assoc.
    split; [done|]. split; [done|]. split; [done|]. split; [by f_equal|].
    intros E. f_equal. by apply Hr.
  - simplify_eq. exists [], 0%nat. simpl. rewrite !app_nil_r.
    repeat split; try done. intros _. apply lookup_ge_None in Hl.
    symmetry. apply drop_ge. lia.
Qed.


(** One step of each of the four functions, for runs that are followed
    by hand. *)
Lemma emit_owner n ev a s set :
  _listeners s !! ev = Some set -> set <> [] -> _deliveryQueue s = None ->
  emit (S n) ev a s =
    match drain n 0 (observe DrainBegin (push_all set a (set_queue (Some []) s))) with
    | (Returned, s) => (Returned, observe DrainEnd (set_queue None s))
    | r => r
    end.
Proof.
  intros Hset Hne Hq. simpl. rewrite Hset.
  destruct (decide (length set = 0%nat)) as [E|_]; [by destruct set|].
  rewrite Hq. by rewrite bool_decide_eq_true_2.
Qed.

Lemma emit_nested n ev a s set q :
  _listeners s !! ev = Some set -> set <> [] -> _deliveryQueue s = Some q ->
  emit (S n) ev a s = (Returned, push_all set a s).
Proof.
  intros Hset Hne Hq. simpl. rewrite Hset.
  destruct (decide (length set = 0%nat)) as [E|_]; [by destruct set|].
  rewrite Hq. by rewrite bool_decide_eq_false_2.
Qed.

Lemma emit_no_listener n ev a s :
  _listeners s !! ev = None \/ _listeners s !! ev = Some [] ->
  emit (S n) ev a s = (Returned, s).
Proof. intros [H|H]; simpl; by rewrite H. Qed.

Lemma drain_next n index s q l a :
  _deliveryQueue s = Some q -> q !! index = Some (l, a) ->
  drain (S n) index s =
    match call n l a (observe (Invoked l a) s) with
    | (Returned, s) => drain n (S index) s
    | r => r
    end.
Proof. intros Hq Hl. simpl. by rewrite Hq, Hl. Qed.

Lemma drain_end n index s q :
  _deliveryQueue s = Some q -> q !! index = None ->
  drain (S n) index s = (Returned, s).
Proof. intros Hq Hl. simpl. by rewrite Hq, Hl. Qed.

Lemma call_Fn n f a s :
  call (S n) (Fn f) a s = run n (code f a) (observe (Called f a) s).
Proof. done. Qed.

Lemma call_Wrapped n c ev listener a s :
  call (S n) (Wrapped c ev listener) a s =
    call n listener a (removeListener ev (Wrapped c ev listener) s).
Proof. done. Qed.

Lemma run_Return n s : run (S n) Return s = (Returned, s).
Proof. done. Qed.

Lemma run_CallEmit n ev a k s :
  run (S n) (CallEmit ev a k) s =
    match emit n ev a s with
    | (Returned, s) => run n k s
    | r => r
    end.
Proof. done. Qed.

(** *** Reentrant emission *)

Lemma push_all_state set a : forall s,
  push_all set a s
  = State (_listeners s)
          (option_map (fun q => q ++ map (fun l => (l, a)) set) (_deliveryQueue s))
          (closures s) (user s) (trace s ++ map (fun l => Queued l a) set).
Proof.
  induction set as [|l set IH]; intros [m q c u t].
  - simpl. rewrite app_nil_r. by destruct q as [q|]; simpl; rewrite ?app_nil_r.
  - change (push_all (l :: set) a (State m q c u t))
      with (push_all set a (push l a (State m q c u t))).
    rewrite IH. unfold push, observe. simpl. rewrite <- !app_assoc.
    by destruct q as [q|]; simpl; rewrite <- ?app_assoc.
Qed.










#[local] Arguments emit : simpl never.
#[local] Arguments drain : simpl never.
#[local] Arguments call : simpl never.
#[local] Arguments run : simpl never.

(** The registry operations on an entry that exists. *)
Lemma removeListener_present ev l set m q c u t :
  removeListener ev l (State (<[ev:=set]> m) q c u t)
  = State (<[ev:=set_delete l set]> m) q c u t.
Proof.
  unfold removeListener. simpl. rewrite lookup_insert_eq. by rewrite insert_insert_eq.
Qed.

Lemma on_present ev l set m q c u t :
  on ev l (State (<[ev:=set]> m) q c u t)
  = State (<[ev:=set_add l set]> m) q c u t.
Proof.
  unfold on. simpl. rewrite lookup_insert_eq. by rewrite insert_insert_eq.
Qed.

Lemma on_absent ev l m q c u t :
  m !! ev = None ->
  on ev l (State m q c u t) = State (<[ev:=[l]]> m) q c u t.
Proof. intros H. unfold on. simpl. by rewrite H. Qed.

Lemma set_delete_head l set : l ∉ set -> set_delete l (l :: set) = set.
Proof.
  intros Hl. unfold set_delete. rewrite filter_cons_False by naive_solver.
  induction set as [|l' set IH]; [done|].
  apply not_elem_of_cons in Hl as [Hne Hl].
  rewrite filter_cons_True by done. f_equal. by apply IH.
Qed.

Lemma set_delete_absent l set : l ∉ set -> set_delete l set = set.
Proof.
  intros Hl. unfold set_delete.
  induction set as [|l' set IH]; [done|].
  apply not_elem_of_cons in Hl as [Hne Hl].
  rewrite filter_cons_True by done. f_equal. by apply IH.
Qed.

(** C2.  [once(x, f1)] with [f1] emitting [x] again before it returns,
    then [on(x, f2)]: one [emit(x)] runs [f1] once and [f2] twice, in that
    order, and nothing else.  The wrapper of [f1] has left the registry
    before [f1] runs, so the nested emission queues [f2] alone. *)
Theorem once_reemit_scenario x f1 f2 a a' u fuel :
  code f1 a = CallEmit x a' Return ->
  code f2 a = Return -> code f2 a' = Return ->
  (6 <= fuel)%nat ->
  exists s',
    emit fuel x a (on x (Fn f2) (once x (Fn f1) (new_EventEmitterImpl u))) = (Returned, s') /\
    called_of (trace s') = [(f1, a); (f2, a); (f2, a')] /\
    invoked_of (trace s') = [(Wrapped 0 x (Fn f1), a); (Fn f2, a); (Fn f2, a')] /\
    _deliveryQueue s' = None /\
    _listeners s' !! x = Some [Fn f2].
Proof.
  intros Hf1 Hf2 Hf2' Hfuel.
  do 6 (destruct fuel as [|fuel]; [lia|]). clear Hfuel.
  assert (Hreg : on x (Fn f2) (once x (Fn f1) (new_EventEmitterImpl u))
                 = State (<[x:=[Wrapped 0 x (Fn f1); Fn f2]]> ∅) None 1 u []).
  { unfold once, addListener, new_EventEmitterImpl. simpl.
    rewrite on_absent by apply lookup_empty. by rewrite on_present. }
  rewrite Hreg. clear Hreg.
  erewrite emit_owner; [|apply lookup_insert_eq|done|done].
  unfold push_all, push, observe, set_queue. simpl.
  erewrite drain_next; [|done|done].
  unfold observe. simpl.
  rewrite call_Wrapped, removeListener_present.
  rewrite set_delete_head by (apply not_elem_of_cons; split; [done|apply not_elem_of_nil]).
  rewrite call_Fn, Hf1, run_CallEmit.
  erewrite emit_nested; [|apply lookup_insert_eq|done|done].
  rewrite run_Return.
  unfold push_all, push, observe. simpl.
  erewrite drain_next; [|done|done].
  rewrite call_Fn, Hf2, run_Return.
  unfold observe. simpl.
  erewrite drain_next; [|done|done].
  rewrite call_Fn, Hf2', run_Return.
  unfold observe. simpl.
  eexists. split; [done|]. simpl.
  repeat split; try done. apply lookup_insert_eq.
Qed.

(** C10.  The registry holds the closure made by [once], not [f]:
    [removeListener(event, f)] leaves that closure registered, whatever
    the registry held before, and on a new dispatcher the next
    [emit(event)] still runs [f], once, after which the closure is gone. *)
Theorem removeListener_misses_once ev f a u fuel :
  code f a = Return ->
  (5 <= fuel)%nat ->
  (forall s, Wrapped (closures s) ev (Fn f)
       ∈ default [] (_listeners (removeListener ev (Fn f) (once ev (Fn f) s)) !! ev)) /\
  exists s',
    emit fuel ev a (removeListener ev (Fn f) (once ev (Fn f) (new_EventEmitterImpl u)))
      = (Returned, s') /\
    called_of (trace s') = [(f, a)] /\
    _listeners s' !! ev = Some [].
Proof.
  intros Hf Hfuel. split.
  - intros [m q c u0 t]. unfold once, addListener, on. simpl.
    rewrite removeListener_present. simpl. rewrite lookup_insert_eq. simpl.
    unfold set_delete. apply list_elem_of_filter. split; [done|].
    unfold set_add. case_decide; [done|]. apply elem_of_app. right. by left.
  - do 5 (destruct fuel as [|fuel]; [lia|]). clear Hfuel.
    unfold once, addListener, new_EventEmitterImpl. simpl.
    rewrite on_absent by apply lookup_empty. rewrite removeListener_present.
    rewrite set_delete_absent by (apply not_elem_of_cons; split; [done|apply not_elem_of_nil]).
    erewrite emit_owner; [|apply lookup_insert_eq|done|done].
    unfold push_all, push, observe, set_queue. simpl.
    erewrite drain_next; [|done|done].
    unfold observe. simpl.
    rewrite call_Wrapped, removeListener_present.
    rewrite set_delete_head by apply not_elem_of_nil.
    rewrite call_Fn, Hf, run_Return.
    unfold observe. simpl.
    eexists. split; [done|]. simpl. split; [done|]. apply lookup_insert_eq.
Qed.

End Emitter.

(** A concrete table of functions: function 1 emits ["x"] again, every
    other function only returns. *)
Definition demo_code (f : nat) (a : Args) : prog unit :=
  match f with
  | 1%nat => CallEmit (EvString "x") (VString "again" :: a) Return
  | _ => Return
  end.

Definition demo_emitter : state :=
  on (EvString "x") (Fn 2) (once (EvString "x") (Fn 1) (new_EventEmitterImpl tt)).

(** Functions that relay: function 1 emits ["y"] and then ["z"],
    function 3 emits ["z"], the others only return; function 1 and 2
    listen to ["x"], function 3 to ["y"] and function 4 to ["z"]. *)
Definition relay_code (f : nat) (a : Args) : prog unit :=
  match f with
  | 1%nat => emits [(EvString "y", a); (EvString "z", a)]
  | 3%nat => emits [(EvString "z", VString "relayed" :: a)]
  | _ => emits []
  end.

Definition relay_registry : gmap event (list Listener) :=
  <[EvString "z" := [Fn 4]]> (<[EvString "y" := [Fn 3]]> (<[EvString "x" := [Fn 1; Fn 2]]> ∅)).

Definition relay_emitter : @state unit := State relay_registry None 0 tt [].




(** The run of that emission: the functions called, in order, each with
    the arguments of the emission that queued it. *)
Example relay_run :
  called_of (trace (snd (emit relay_code 13 (EvString "x") [VNumber 7] relay_emitter)))
  = [(1%nat, [VNumber 7]); (2%nat, [VNumber 7]); (3%nat, [VNumber 7]);
     (4%nat, [VNumber 7]); (4%nat, [VString "relayed"; VNumber 7])].
Proof. vm_compute. reflexivity. Qed.

Lemma once_reemit_scenario_witness :
  exists s',
    emit demo_code 6 (EvString "x") [VNumber 7] demo_emitter = (Returned, s') /\
    called_of (trace s') =
      [(1%nat, [VNumber 7]); (2%nat, [VNumber 7]); (2%nat, [VString "again"; VNumber 7])] /\
    invoked_of (trace s') =
      [(Wrapped 0 (EvString "x") (Fn 1), [VNumber 7]); (Fn 2, [VNumber 7]);
       (Fn 2, [VString "again"; VNumber 7])] /\
    _deliveryQueue s' = None /\
    _listeners s' !! EvString "x" = Some [Fn 2].
Proof.
  apply (once_reemit_scenario demo_code (EvString "x") 1 2 [VNumber 7]
           [VString "again"; VNumber 7] tt 6);
    [reflexivity | reflexivity | reflexivity | lia].
Defined.

Lemma removeListener_misses_once_witness :
  (forall s : @state unit, Wrapped (closures s) (EvString "x") (Fn 2)
       ∈ default [] (_listeners (removeListener (EvString "x") (Fn 2)
                                   (once (EvString "x") (Fn 2) s)) !! EvString "x")) /\
  exists s',
    emit demo_code 5 (EvString "x") []
      (removeListener (EvString "x") (Fn 2)
         (once (EvString "x") (Fn 2) (new_EventEmitterImpl tt)))
      = (Returned, s') /\
    called_of (trace s') = [(2%nat, [])] /\
    _listeners s' !! EvString "x" = Some [].
Proof.
  apply (removeListener_misses_once demo_code (EvString "x") 2 [] tt 5);
    [reflexivity | lia].
Defined.

End Dispatcher.

(** ** The byte buffer: [BufferImpl], lines 124-178 *)

Module ByteBuffer.

(** A JavaScript string is a sequence of UTF-16 code units, and the
    content of an [ArrayBuffer] a sequence of bytes. *)
Definition JSString := list Z.

(** A string literal of the source. *)
Definition str (s : string) : JSString :=
  map (fun c => Z.of_nat (Ascii.nat_of_ascii c)) (String.list_ascii_of_string s).

Inductive exn :=
| Error (message : JSString)   (* [new Error(message)], line 165 *)
| RangeError                   (* [new Uint16Array] on an odd length, [new TextDecoder] on an unknown label *)
| TypeError                    (* [TextDecoder.decode], [fatal: true], on malformed input *)
| InvalidCharacterError.       (* [atob] and [btoa] *)

Inductive result (A : Type) :=
| Ok (a : A)
| Throws (e : exn).
Arguments Ok {A} a.
Arguments Throws {A} e.

Definition in_range (lo hi b : Z) : bool := (lo <=? b) && (b <=? hi).

(** *** The platform's [TextEncoder] and [TextDecoder], after the WHATWG
    Encoding Standard *)

Definition is_high_surrogate (c : Z) : bool := in_range 0xD800 0xDBFF c.
Definition is_low_surrogate (c : Z) : bool := in_range 0xDC00 0xDFFF c.

(** The scalar values of a string: a surrogate pair is one code point, a
    surrogate on its own is replaced by U+FFFD. *)
Fixpoint scalar_values (s : JSString) : list Z :=
  match s with
  | [] => []
  | c :: rest =>
      if is_high_surrogate c then
        match rest with
        | d :: rest' =>
            if is_low_surrogate d
            then (0x10000 + (c - 0xD800) * 0x400 + (d - 0xDC00)) :: scalar_values rest'
            else 0xFFFD :: scalar_values rest
        | [] => [0xFFFD]
        end
      else if is_low_surrogate c then 0xFFFD :: scalar_values rest
      else c :: scalar_values rest
  end.

Definition utf8_encode_scalar (c : Z) : list Z :=
  if c <=? 0x7F then [c]
  else if c <=? 0x7FF then [0xC0 + c / 64; 0x80 + c mod 64]
  else if c <=? 0xFFFF then [0xE0 + c / 4096; 0x80 + (c / 64) mod 64; 0x80 + c mod 64]
  else [0xF0 + c / 262144; 0x80 + (c / 4096) mod 64; 0x80 + (c / 64) mod 64; 0x80 + c mod 64].

(** [new TextEncoder().encode(s)]. *)
Definition TextEncoder_encode (s : JSString) : list Z :=
  flat_map utf8_encode_scalar (scalar_values s).

(** The UTF-8 decoder in fatal mode: the code points of a well-formed byte
    sequence, and [None] at the first byte that no well-formed sequence
    allows (overlong forms, surrogates and code points over U+10FFFF are
    excluded by the bounds on the second byte). *)
Fixpoint utf8_decode (bs : list Z) : option (list Z) :=
  match bs with
  | [] => Some []
  | b0 :: r0 =>
      if in_range 0x00 0x7F b0 then cons b0 <$> utf8_decode r0
      else if in_range 0xC2 0xDF b0 then
        match r0 with
        | b1 :: r1 =>
            if in_range 0x80 0xBF b1
            then cons ((b0 - 0xC0) * 64 + (b1 - 0x80)) <$> utf8_decode r1
            else None
        | _ => None
        end
      else if in_range 0xE0 0xEF b0 then
        match r0 with
        | b1 :: b2 :: r2 =>
            if in_range (if b0 =? 0xE0 then 0xA0 else 0x80)
                        (if b0 =? 0xED then 0x9F else 0xBF) b1
               && in_range 0x80 0xBF b2
            then cons ((b0 - 0xE0) * 4096 + (b1 - 0x80) * 64 + (b2 - 0x80))
                   <$> utf8_decode r2
            else None
        | _ => None
        end
      else if in_range 0xF0 0xF4 b0 then
        match r0 with
        | b1 :: b2 :: b3 :: r3 =>
            if in_range (if b0 =? 0xF0 then 0x90 else 0x80)
                        (if b0 =? 0xF4 then 0x8F else 0xBF) b1
               && in_range 0x80 0xBF b2 && in_range 0x80 0xBF b3
            then cons ((b0 - 0xF0) * 262144 + (b1 - 0x80) * 4096
                       + (b2 - 0x80) * 64 + (b3 - 0x80))
                   <$> utf8_decode r3
            else None
        | _ => None
        end
      else None
  end.

(** A code point as UTF-16 code units. *)
Definition utf16_encode_scalar (c : Z) : list Z :=
  if c <=? 0xFFFF then [c]
  else [0xD800 + (c - 0x10000) / 0x400; 0xDC00 + (c - 0x10000) mod 0x400].

(** A decoder drops one leading U+FEFF, the byte order mark ([ignoreBOM]
    is false by default). *)
Definition strip_bom (cs : list Z) : list Z :=
  match cs with
  | c :: rest => if c =? 0xFEFF then rest else cs
  | [] => []
  end.

Definition decode_utf8 (bs : list Z) : option JSString :=
  (fun cs => flat_map utf16_encode_scalar (strip_bom cs)) <$> utf8_decode bs.

(** The UTF-16 decoders in fatal mode: the bytes pair up into code units, in
    the byte order of the encoding, and no surrogate stands alone. *)
Fixpoint code_units (little_endian : bool) (bs : list Z) : option (list Z) :=
  match bs with
  | [] => Some []
  | b0 :: b1 :: rest =>
      cons (if little_endian then b0 + 256 * b1 else 256 * b0 + b1)
        <$> code_units little_endian rest
  | [_] => None
  end.

Fixpoint paired (s : JSString) : bool :=
  match s with
  | [] => true
  | c :: rest =>
      if is_high_surrogate c then
        match rest with
        | d :: rest' => is_low_surrogate d && paired rest'
        | [] => false
        end
      else negb (is_low_surrogate c) && paired rest
  end.

Definition decode_utf16 (little_endian : bool) (bs : list Z) : option JSString :=
  match code_units little_endian bs with
  | Some s => if paired s then Some (strip_bom s) else None
  | None => None
  end.

(** Labels are matched without leading and trailing ASCII whitespace and
    without regard to ASCII case. *)
Definition is_ascii_whitespace (c : Z) : bool :=
  (c =? 9) || (c =? 10) || (c =? 12) || (c =? 13) || (c =? 32).

Fixpoint strip_leading (s : JSString) : JSString :=
  match s with
  | c :: rest => if is_ascii_whitespace c then strip_leading rest else s
  | [] => []
  end.

Definition normalise_label (label : JSString) : JSString :=
  map (fun c => if in_range 65 90 c then c + 32 else c)
      (rev (strip_leading (rev (strip_leading label)))).

Definition utf8_labels : list JSString :=
  map str ["unicode-1-1-utf-8"; "unicode11utf8"; "unicode20utf8"; "utf-8"; "utf8";
           "x-unicode20utf8"]%string.

Definition utf16be_labels : list JSString :=
  map str ["unicodefffe"; "utf-16be"]%string.

Definition utf16le_labels : list JSString :=
  map str ["csunicode"; "iso-10646-ucs-2"; "ucs-2"; "unicode"; "unicodefeff";
           "utf-16"; "utf-16le"]%string.

(** *** The platform's [btoa] and [atob], after the forgiving-base64 encode
    and decode of the WHATWG Infra Standard *)

Definition b64_char (v : Z) : Z :=
  if v <? 26 then 65 + v
  else if v <? 52 then 97 + (v - 26)
  else if v <? 62 then 48 + (v - 52)
  else if v =? 62 then 43
  else 47.

Definition b64_value (c : Z) : option Z :=
  if in_range 65 90 c then Some (c - 65)
  else if in_range 97 122 c then Some (c - 97 + 26)
  else if in_range 48 57 c then Some (c - 48 + 52)
  else if c =? 43 then Some 62
  else if c =? 47 then Some 63
  else None.

(** The six-bit groups of a byte sequence, the last one completed with
    zero bits. *)
Fixpoint sextets (bs : list Z) : list Z :=
  match bs with
  | a :: b :: c :: rest =>
      a / 4 :: (a mod 4) * 16 + b / 16 :: (b mod 16) * 4 + c / 64 :: c mod 64
        :: sextets rest
  | [a; b] => [a / 4; (a mod 4) * 16 + b / 16; (b mod 16) * 4]
  | [a] => [a / 4; (a mod 4) * 16]
  | [] => []
  end.

Definition padding (n : nat) : JSString :=
  match (n mod 3)%nat with
  | 1%nat => [61; 61]
  | 2%nat => [61]
  | _ => []
  end.

Definition base64_encode (bs : list Z) : JSString :=
  map b64_char (sextets bs) ++ padding (length bs).

(** [btoa(binary)]: every code unit of [binary] must be a byte. *)
Definition btoa (binary : JSString) : result JSString :=
  if forallb (in_range 0 255) binary
  then Ok (base64_encode binary)
  else Throws InvalidCharacterError.

(** The bytes of a sequence of six-bit groups; the bits left over in an
    incomplete last group are dropped. *)
Fixpoint unsextets (vs : list Z) : list Z :=
  match vs with
  | a :: b :: c :: d :: rest =>
      a * 4 + b / 16 :: (b mod 16) * 16 + c / 4 :: (c mod 4) * 64 + d
        :: unsextets rest
  | [a; b; c] => [a * 4 + b / 16; (b mod 16) * 16 + c / 4]
  | [a; b] => [a * 4 + b / 16]
  | _ => []
  end.

(** One or two [=] at the end are removed. *)
Definition strip_padding (data : JSString) : JSString :=
  match rev data with
  | c :: r =>
      if c =? 61 then
        match r with
        | d :: r' => if d =? 61 then rev r' else rev r
        | [] => rev r
        end
      else data
  | [] => data
  end.

(** [atob(data)]. *)
Definition atob (data : JSString) : result JSString :=
  let data := filter (fun c => is_ascii_whitespace c = false) data in
  let data := if (length data mod 4 =? 0)%nat then strip_padding data else data in
  if (length data mod 4 =? 1)%nat then Throws InvalidCharacterError else
  match mapM b64_value data with
  | Some vs => Ok (unsextets vs)
  | None => Throws InvalidCharacterError
  end.

(** *** Typed-array views *)

(** [view[i] = v] on a [Uint16Array]: [v] modulo 2^16, as two bytes in the
    byte order of the host; an index past the end writes nothing. *)
Definition Uint16Array_store (little_endian : bool) (bytes : list Z) (i : nat) (v : Z)
  : list Z :=
  let u := v mod 65536 in
  let '(b0, b1) := if little_endian then (u mod 256, u / 256) else (u / 256, u mod 256) in
  <[(2 * i)%nat := b0]> (<[(2 * i + 1)%nat := b1]> bytes).

(** [new Uint16Array(buffer)], read as a whole: the length in bytes must
    be even. *)
Definition Uint16Array_elements (little_endian : bool) (bytes : list Z)
  : result (list Z) :=
  match code_units little_endian bytes with
  | Some units => Ok units
  | None => Throws RangeError
  end.

(** [view.set(source, offset)] on a [Uint8Array]. *)
Definition Uint8Array_set (view source : list Z) (offset : nat) : result (list Z) :=
  if decide (offset + length source <= length view)%nat
  then Ok (take offset view ++ source ++ drop (offset + length source) view)
  else Throws RangeError.

(** *** Objects *)

(** Buffers and the [ArrayBuffer]s they hold are objects with an
    identity: the heap maps a reference to the object it denotes, and an
    allocation extends it. *)
Inductive object :=
| ArrayBuffer (bytes : list Z)
| BufferImpl (data : nat).      (* [readonly data: ArrayBuffer], line 125 *)

Definition heap := list object.

Definition alloc (o : object) (h : heap) : nat * heap := (length h, h ++ [o]).

(** [buffer.data], as bytes. *)
Definition data_of (h : heap) (buffer : nat) : option (list Z) :=
  match h !! buffer with
  | Some (BufferImpl data) =>
      match h !! data with
      | Some (ArrayBuffer bytes) => Some bytes
      | _ => None
      end
  | _ => None
  end.

(** [data: string | ArrayBuffer]. *)
Inductive Data :=
| Text (s : JSString)
| Binary (arrayBuffer : nat).

Definition quote : JSString := [34].

Section Host.

(** What the host decides: the byte order of its typed arrays, the
    decoders [TextDecoder] has, by normalised label, for the encodings
    other than UTF-8 and UTF-16 (the legacy encodings of the Encoding
    Standard, which are tables), and the number of arguments that one call
    may take (some tens of thousands, by the engine and its stack). *)
Variable little_endian : bool.
Variable legacy : JSString -> option (list Z -> option JSString).
Variable max_arguments : Z.

(** [new TextDecoder(label, { fatal: true })]. *)
Definition TextDecoder (label : JSString) : result (list Z -> option JSString) :=
  let l := normalise_label label in
  if decide (l ∈ utf8_labels) then Ok decode_utf8
  else if decide (l ∈ utf16le_labels) then Ok (decode_utf16 true)
  else if decide (l ∈ utf16be_labels) then Ok (decode_utf16 false)
  else match legacy l with
       | Some decoder => Ok decoder
       | None => Throws RangeError
       end.

(** [decoder.decode(bytes)]. *)
Definition TextDecoder_decode (decoder : list Z -> option JSString) (bytes : list Z)
  : result JSString :=
  match decoder bytes with
  | Some s => Ok s
  | None => Throws TypeError
  end.

(** Lines 157-160: a new [ArrayBuffer] of twice the length of [binary],
    filled through a [Uint16Array] with the code units of [binary]. *)
Definition fill_units (binary : JSString) : list Z :=
  foldl (fun bytes i => Uint16Array_store little_endian bytes i (default 0 (binary !! i)))
        (replicate (length binary * 2) 0)
        (seq 0 (length binary)).

(** The constructor, lines 151-168; [encoding] is [None] when the argument
    is left out. *)
Definition new_BufferImpl (data : Data) (encoding : option JSString) (h : heap)
  : result (nat * heap) :=
  let encoding := default (str "utf8") encoding in
  match data with
  | Binary arrayBuffer => Ok (alloc (BufferImpl arrayBuffer) h)
  | Text data =>
      if decide (encoding = str "base64") then
        match atob data with
        | Ok binary =>
            let '(this_data, h) := alloc (ArrayBuffer (fill_units binary)) h in
            Ok (alloc (BufferImpl this_data) h)
        | Throws e => Throws e
        end
      else if decide (encoding = str "utf8") then
        let '(this_data, h) := alloc (ArrayBuffer (TextEncoder_encode data)) h in
        Ok (alloc (BufferImpl this_data) h)
      else Throws (Error (str "Unsupported encoding " ++ quote ++ encoding ++ quote))
  end.

(** Lines 127-129. *)
Definition from (data : Data) (encoding : option JSString) (h : heap)
  : result (nat * heap) :=
  new_BufferImpl data (Some (default (str "utf8") encoding)) h.

(** Lines 131-135; [buffer] is a string or a buffer. *)
Definition byteLength (buffer : JSString + nat) (encoding : option JSString) (h : heap)
  : result (nat * heap) :=
  let encoding := default (str "utf8") encoding in
  match buffer with
  | inl s =>
      match new_BufferImpl (Text s) (Some encoding) h with
      | Ok (b, h) =>
          match data_of h b with
          | Some bytes => Ok (length bytes, h)
          | None => Throws TypeError
          end
      | Throws e => Throws e
      end
  | inr b =>
      match data_of h b with
      | Some bytes => Ok (length bytes, h)
      | None => Throws TypeError
      end
  end.

(** Lines 143-147: the loop that copies each buffer at [offset]. *)
Fixpoint copy_all (view : list Z) (offset : nat) (datas : list (list Z))
  : result (list Z) :=
  match datas with
  | [] => Ok view
  | data :: datas =>
      match Uint8Array_set view data offset with
      | Ok view => copy_all view (offset + length data) datas
      | Throws e => Throws e
      end
  end.

(** Lines 137-149.  A reference that is no buffer of the heap is outside
    the type of the argument; reading its [data] is then a [TypeError]. *)
Definition concat (buffers : list nat) (h : heap) : result (nat * heap) :=
  match buffers with
  | [] =>
      let '(empty, h) := alloc (ArrayBuffer []) h in
      Ok (alloc (BufferImpl empty) h)
  | [b] => Ok (b, h)
  | _ =>
      match mapM (data_of h) buffers with
      | Some datas =>
          let total := foldl (fun a data => (a + length data)%nat) 0%nat datas in
          match copy_all (replicate total 0) 0 datas with
          | Ok view =>
              let '(view_buffer, h) := alloc (ArrayBuffer view) h in
              Ok (alloc (BufferImpl view_buffer) h)
          | Throws e => Throws e
          end
      | None => Throws TypeError
      end
  end.

(** Lines 170-177.  The spread of line 172 passes one argument per code
    unit to [String.fromCharCode], and a call with more arguments than the
    engine takes throws a [RangeError]. *)
Definition toString (this : nat) (encoding : option JSString) (h : heap)
  : result JSString :=
  let encoding := default (str "utf8") encoding in
  match data_of h this with
  | Some bytes =>
      if decide (encoding = str "base64") then
        match Uint16Array_elements little_endian bytes with
        | Ok binary =>
            if Z.of_nat (length binary) <=? max_arguments
            then btoa binary
            else Throws RangeError
        | Throws e => Throws e
        end
      else
        match TextDecoder encoding with
        | Ok decoder => TextDecoder_decode decoder bytes
        | Throws e => Throws e
        end
  | None => Throws TypeError
  end.

End Host.

(** *** The terms of the properties *)

(** A Unicode scalar value: a code point that is no surrogate. *)
Definition scalar (c : Z) : Prop :=
  0 <= c <= 0x10FFFF /\ ~ (0xD800 <= c <= 0xDFFF).

(** Text without a surrogate on its own. *)
Definition well_formed (s : JSString) : Prop :=
  Forall (fun c => 0 <= c <= 0xFFFF) s /\ paired s = true.

(** A sequence of bytes. *)
Definition bytes (bs : list Z) : Prop := Forall (fun b => 0 <= b <= 255) bs.

(** The two bytes of a code unit, in the byte order of the host. *)
Definition unit_bytes (little_endian : bool) (u : Z) : list Z :=
  if little_endian then [u mod 256; u / 256] else [u / 256; u mod 256].

(** A host with little-endian typed arrays whose [TextDecoder] has the
    Unicode encodings alone. *)
Definition no_legacy : JSString -> option (list Z -> option JSString) :=
  fun _ => None.

(** *** UTF-8 *)

Lemma in_range_true lo hi b : lo <= b <= hi -> in_range lo hi b = true.
Proof. intros H. unfold in_range. apply andb_true_intro. split; apply Z.leb_le; lia. Qed.

Lemma in_range_false lo hi b : b < lo \/ hi < b -> in_range lo hi b = false.
Proof.
  intros H. unfold in_range. apply andb_false_iff.
  destruct H; [left|right]; apply Z.leb_gt; lia.
Qed.

Lemma in_range_spec lo hi b : in_range lo hi b = true <-> lo <= b <= hi.
Proof. unfold in_range. rewrite andb_true_iff, !Z.leb_le. done. Qed.

(** Each test of the decoder is settled by linear arithmetic once the
    quotients and remainders of the encoder are named. *)
Ltac settle_ranges :=
  repeat (cbn [andb]; first
    [ match goal with
      | |- context [in_range ?lo ?hi ?b] =>
          first [ rewrite (in_range_true lo hi b) by lia
                | rewrite (in_range_false lo hi b) by lia ]
      end
    | match goal with
      | |- context [Z.eqb ?a ?b] => destruct (Z.eqb_spec a b)
      end ]);
  cbn [andb].

Ltac arith := Z.div_mod_to_equations; lia.

Lemma utf8_decode_encode_scalar c bs :
  scalar c ->
  utf8_decode (utf8_encode_scalar c ++ bs) = cons c <$> utf8_decode bs.
Proof.
  intros [Hc Hs]. unfold utf8_encode_scalar.
  replace (c / 262144) with (c / 64 / 64 / 64) by (rewrite !Z.div_div by lia; done).
  replace (c / 4096) with (c / 64 / 64) by (rewrite !Z.div_div by lia; done).
  pose proof (Z.div_mod c 64 ltac:(lia)) as E0.
  pose proof (Z.mod_pos_bound c 64 ltac:(lia)) as B0.
  pose proof (Z.div_mod (c / 64) 64 ltac:(lia)) as E1.
  pose proof (Z.mod_pos_bound (c / 64) 64 ltac:(lia)) as B1.
  pose proof (Z.div_mod (c / 64 / 64) 64 ltac:(lia)) as E2.
  pose proof (Z.mod_pos_bound (c / 64 / 64) 64 ltac:(lia)) as B2.
  set (r0 := c mod 64) in *. set (r1 := (c / 64) mod 64) in *.
  set (r2 := (c / 64 / 64) mod 64) in *.
  set (q3 := c / 64 / 64 / 64) in *. set (q2 := c / 64 / 64) in *.
  set (q1 := c / 64) in *. clearbody r0 r1 r2 q1 q2 q3.
  destruct (Z.leb_spec c 0x7F); [|destruct (Z.leb_spec c 0x7FF); [|destruct (Z.leb_spec c 0xFFFF)]];
    cbn [app utf8_decode].
  - settle_ranges. done.
  - settle_ranges. f_equal. f_equal. lia.
  - settle_ranges; f_equal; f_equal; lia.
  - settle_ranges; f_equal; f_equal; lia.
Qed.

Lemma utf8_decode_encode cs :
  Forall scalar cs -> utf8_decode (flat_map utf8_encode_scalar cs) = Some cs.
Proof.
  induction 1 as [|c cs Hc _ IH]; [done|].
  simpl. rewrite utf8_decode_encode_scalar by done. by rewrite IH.
Qed.

(** Induction on a list, one or two elements at a time. *)
Lemma list_pair_ind {A} (P : list A -> Prop) :
  P [] -> (forall x, P [x]) ->
  (forall x y l, P l -> P (y :: l) -> P (x :: y :: l)) ->
  forall l, P l.
Proof.
  intros Hnil Hone Hcons l.
  assert (H : P l /\ forall x, P (x :: l)); [|by destruct H].
  induction l as [|y l [IH1 IH2]]; [by split|].
  split; [apply IH2|]. intros x. by apply Hcons.
Qed.

Lemma surrogate_cases c :
  0 <= c <= 0xFFFF ->
  (is_high_surrogate c = true /\ is_low_surrogate c = false /\ 0xD800 <= c <= 0xDBFF) \/
  (is_high_surrogate c = false /\ is_low_surrogate c = true /\ 0xDC00 <= c <= 0xDFFF) \/
  (is_high_surrogate c = false /\ is_low_surrogate c = false /\ ~ (0xD800 <= c <= 0xDFFF)).
Proof.
  intros Hc. unfold is_high_surrogate, is_low_surrogate.
  destruct (decide (0xD800 <= c <= 0xDBFF)); [left|right; destruct (decide (0xDC00 <= c <= 0xDFFF)); [left|right]].
  - rewrite in_range_true, in_range_false by lia. done.
  - rewrite in_range_false, in_range_true by lia. done.
  - rewrite !in_range_false by lia. repeat split; lia.
Qed.

Lemma scalar_values_scalar s :
  Forall (fun c => 0 <= c <= 0xFFFF) s -> Forall scalar (scalar_values s).
Proof.
  assert (Hrepl : scalar 0xFFFD) by (unfold scalar; lia).
  induction s as [|c|c d s IH1 IH2] using list_pair_ind; intros Hs.
  - constructor.
  - apply Forall_cons in Hs as [Hc _]. simpl.
    destruct (surrogate_cases c Hc) as [(-> & _ & ?)|[(-> & -> & ?)|(-> & -> & ?)]];
      apply Forall_singleton; try done. unfold scalar; lia.
  - apply Forall_cons in Hs as [Hc Hs]. pose proof Hs as Hds.
    apply Forall_cons in Hs as [Hd Hs].
    change (scalar_values (c :: d :: s)) with
      (if is_high_surrogate c then
         if is_low_surrogate d
         then (0x10000 + (c - 0xD800) * 0x400 + (d - 0xDC00)) :: scalar_values s
         else 0xFFFD :: scalar_values (d :: s)
       else if is_low_surrogate c then 0xFFFD :: scalar_values (d :: s)
       else c :: scalar_values (d :: s)).
    destruct (surrogate_cases c Hc) as [(-> & _ & ?)|[(-> & -> & ?)|(-> & -> & ?)]].
    + destruct (surrogate_cases d Hd) as [(_ & -> & ?)|[(_ & -> & ?)|(_ & -> & ?)]];
        constructor; auto. unfold scalar; lia.
    + constructor; auto.
    + constructor; auto. unfold scalar; lia.
Qed.

(** On well-formed text the scalar values, written back as UTF-16, are
    the text. *)
Lemma utf16_scalar_values s :
  well_formed s -> flat_map utf16_encode_scalar (scalar_values s) = s.
Proof.
  intros [Hs Hp]. revert Hs Hp.
  induction s as [|c|c d s IH1 IH2] using list_pair_ind; intros Hs Hp.
  - done.
  - apply Forall_cons in Hs as [Hc _]. simpl in *.
    destruct (surrogate_cases c Hc) as [(E & _ & ?)|[(E & E' & ?)|(E & E' & ?)]];
      rewrite E in *; try rewrite E' in *; try done.
    simpl. unfold utf16_encode_scalar. by rewrite (proj2 (Z.leb_le c 0xFFFF)) by lia.
  - apply Forall_cons in Hs as [Hc Hs]. pose proof Hs as Hds.
    apply Forall_cons in Hs as [Hd Hs].
    change (scalar_values (c :: d :: s)) with
      (if is_high_surrogate c then
         if is_low_surrogate d
         then (0x10000 + (c - 0xD800) * 0x400 + (d - 0xDC00)) :: scalar_values s
         else 0xFFFD :: scalar_values (d :: s)
       else if is_low_surrogate c then 0xFFFD :: scalar_values (d :: s)
       else c :: scalar_values (d :: s)).
    change (paired (c :: d :: s)) with
      (if is_high_surrogate c then is_low_surrogate d && paired s
       else negb (is_low_surrogate c) && paired (d :: s)) in Hp.
    destruct (surrogate_cases c Hc) as [(E & _ & ?)|[(E & E' & ?)|(E & E' & ?)]];
      rewrite E in *; try rewrite E' in *; try done.
    + apply andb_true_iff in Hp as [Hlow Hp]. rewrite Hlow.
      apply in_range_spec in Hlow.
      cbn [flat_map]. rewrite IH1 by done. unfold utf16_encode_scalar.
      rewrite (proj2 (Z.leb_gt _ _)) by lia. simpl. f_equal; [arith|]. f_equal. arith.
    + cbn [flat_map]. rewrite IH2 by done. unfold utf16_encode_scalar.
      by rewrite (proj2 (Z.leb_le c 0xFFFF)) by lia.
Qed.

(** Text that does not start with U+FEFF has scalar values that do not. *)
Lemma strip_bom_scalar_values s :
  Forall (fun c => 0 <= c <= 0xFFFF) s ->
  head s <> Some 0xFEFF -> strip_bom (scalar_values s) = scalar_values s.
Proof.
  intros Hs Hhd. destruct s as [|c s]; [done|].
  apply Forall_cons in Hs as [Hc Hs]. simpl in Hhd.
  assert (c <> 0xFEFF) by congruence.
  simpl. destruct (surrogate_cases c Hc) as [(E & _ & ?)|[(E & E' & ?)|(E & E' & ?)]];
    rewrite E; try rewrite E'.
  - destruct s as [|d s]; [done|]. destruct (is_low_surrogate d) eqn:Hd; [|done].
    apply in_range_spec in Hd. unfold strip_bom.
    by rewrite (proj2 (Z.eqb_neq _ _)) by lia.
  - done.
  - unfold strip_bom. by rewrite (proj2 (Z.eqb_neq _ _)) by lia.
Qed.

(** Encoding well-formed text as UTF-8 and decoding it gives the text
    back, unless it starts with a byte order mark. *)
Lemma decode_utf8_encode s :
  well_formed s -> head s <> Some 0xFEFF ->
  decode_utf8 (TextEncoder_encode s) = Some s.
Proof.
  intros Hwf Hhd. unfold decode_utf8, TextEncoder_encode.
  rewrite utf8_decode_encode by (apply scalar_values_scalar, Hwf).
  simpl. rewrite strip_bom_scalar_values by (done || apply Hwf).
  by rewrite utf16_scalar_values.
Qed.

(** *** Base64 *)

(** Induction on a list, three elements at a time. *)
Lemma list_triple_ind {A} (P : list A -> Prop) :
  P [] -> (forall a, P [a]) -> (forall a b, P [a; b]) ->
  (forall a b c l, P l -> P (a :: b :: c :: l)) ->
  forall l, P l.
Proof.
  intros H0 H1 H2 H3 l.
  assert (H : P l /\ (forall a, P (a :: l)) /\ (forall a b, P (a :: b :: l)));
    [|by destruct H].
  induction l as [|c l (IH0 & IH1 & IH2)]; [by repeat split|].
  split; [apply IH1|]. split; [intros a; apply IH2|]. intros a b. by apply H3.
Qed.

Lemma b64_value_char v : 0 <= v <= 63 -> b64_value (b64_char v) = Some v.
Proof.
  intros Hv. unfold b64_char, b64_value.
  destruct (Z.ltb_spec v 26); [|destruct (Z.ltb_spec v 52); [|destruct (Z.ltb_spec v 62);
    [|destruct (Z.eqb_spec v 62)]]]; settle_ranges; f_equal; lia.
Qed.

Lemma b64_char_plain v :
  0 <= v <= 63 -> is_ascii_whitespace (b64_char v) = false /\ b64_char v <> 61.
Proof.
  intros Hv. unfold b64_char, is_ascii_whitespace.
  destruct (Z.ltb_spec v 26); [|destruct (Z.ltb_spec v 52); [|destruct (Z.ltb_spec v 62);
    [|destruct (Z.eqb_spec v 62)]]];
    (split; [rewrite !(proj2 (Z.eqb_neq _ _)) by lia; done | lia]).
Qed.

Lemma sextets_range bs : bytes bs -> Forall (fun v => 0 <= v <= 63) (sextets bs).
Proof.
  unfold bytes. induction bs as [|a|a b|a b c bs IH] using list_triple_ind; intros H.
  - constructor.
  - apply Forall_cons in H as [Ha _]. simpl. repeat constructor; arith.
  - apply Forall_cons in H as [Ha H]. apply Forall_cons in H as [Hb _]. simpl.
    repeat constructor; arith.
  - apply Forall_cons in H as [Ha H]. apply Forall_cons in H as [Hb H].
    apply Forall_cons in H as [Hc H].
    change (sextets (a :: b :: c :: bs)) with
      (a / 4 :: (a mod 4) * 16 + b / 16 :: (b mod 16) * 4 + c / 64 :: c mod 64 :: sextets bs).
    repeat (constructor; [arith|]). by apply IH.
Qed.

Lemma unsextets_sextets bs : bytes bs -> unsextets (sextets bs) = bs.
Proof.
  unfold bytes. induction bs as [|a|a b|a b c bs IH] using list_triple_ind; intros H.
  - done.
  - apply Forall_cons in H as [Ha _]. simpl. f_equal. arith.
  - apply Forall_cons in H as [Ha H]. apply Forall_cons in H as [Hb _]. simpl.
    f_equal; [arith|]. f_equal. arith.
  - apply Forall_cons in H as [Ha H]. apply Forall_cons in H as [Hb H].
    apply Forall_cons in H as [Hc H].
    change (sextets (a :: b :: c :: bs)) with
      (a / 4 :: (a mod 4) * 16 + b / 16 :: (b mod 16) * 4 + c / 64 :: c mod 64 :: sextets bs).
    cbn [unsextets]. rewrite IH by done.
    f_equal; [arith|]. f_equal; [arith|]. f_equal. arith.
Qed.

(** The number of six-bit groups, by the length modulo 3. *)
Lemma length_sextets bs :
  (length (sextets bs) mod 4 = match length bs mod 3 with 0 => 0 | 1 => 2 | _ => 3 end)%nat
  /\ ((length (sextets bs) + length (padding (length bs))) mod 4 = 0)%nat.
Proof.
  induction bs as [|a|a b|a b c bs IH] using list_triple_ind; try done.
  change (sextets (a :: b :: c :: bs)) with
    (a / 4 :: (a mod 4) * 16 + b / 16 :: (b mod 16) * 4 + c / 64 :: c mod 64 :: sextets bs).
  cbn [length]. unfold padding in *.
  replace (S (S (S (length bs))) mod 3)%nat with (length bs mod 3)%nat
    by (change (S (S (S (length bs)))) with (3 + length bs)%nat;
        by rewrite <- Nat.Div0.add_mod_idemp_l).
  replace (S (S (S (S (length (sextets bs))))) mod 4)%nat with (length (sextets bs) mod 4)%nat
    by (change (S (S (S (S (length (sextets bs)))))) with (4 + length (sextets bs))%nat;
        by rewrite <- Nat.Div0.add_mod_idemp_l).
  split; [apply IH|].
  change (S (S (S (S (length (sextets bs))))) + ?n)%nat
    with (4 + (length (sextets bs) + n))%nat.
  rewrite <- Nat.Div0.add_mod_idemp_l. apply IH.
Qed.

Lemma mapM_b64_value vs :
  Forall (fun v => 0 <= v <= 63) vs -> mapM b64_value (map b64_char vs) = Some vs.
Proof.
  induction 1 as [|v vs Hv _ IH]; [done|].
  simpl. rewrite b64_value_char by done. simpl. by rewrite IH.
Qed.

Lemma filter_plain vs pad :
  Forall (fun v => 0 <= v <= 63) vs -> Forall (fun c => c = 61) pad ->
  filter (fun c => is_ascii_whitespace c = false) (map b64_char vs ++ pad)
  = map b64_char vs ++ pad.
Proof.
  intros Hvs Hpad. rewrite filter_app. f_equal.
  - induction Hvs as [|v vs Hv _ IH]; [done|]. simpl.
    rewrite filter_cons_True by (by apply b64_char_plain). by rewrite IH.
  - induction Hpad as [|c pad -> _ IH]; [done|].
    rewrite filter_cons_True by done. by rewrite IH.
Qed.

Lemma strip_padding_encoded vs n :
  Forall (fun v => 0 <= v <= 63) vs ->
  strip_padding (map b64_char vs ++ padding n) = map b64_char vs.
Proof.
  intros Hvs. unfold strip_padding, padding.
  assert (Hlast : forall r : list Z, match rev (map b64_char vs) with
            | c :: _ => (c =? 61) = false | [] => True end).
  { intros _. rewrite <- map_rev. apply Forall_rev in Hvs.
    destruct (rev vs) as [|v r]; [done|]. apply Forall_cons in Hvs as [Hv _].
    simpl. apply Z.eqb_neq. by apply b64_char_plain. }
  specialize (Hlast []).
  destruct (n mod 3)%nat as [|[|[|k]]].
  - rewrite app_nil_r. destruct (rev (map b64_char vs)) as [|c r]; [done|]. by rewrite Hlast.
  - rewrite rev_app_distr. simpl. by rewrite rev_involutive.
  - rewrite rev_app_distr. simpl.
    destruct (rev (map b64_char vs)) as [|c r] eqn:E.
    + apply (f_equal (@rev Z)) in E. by rewrite rev_involutive in E.
    + rewrite Hlast. rewrite <- E. by rewrite rev_involutive.
  - rewrite app_nil_r. destruct (rev (map b64_char vs)) as [|c r]; [done|]. by rewrite Hlast.
Qed.

(** [atob] undoes [btoa]. *)
Lemma atob_base64_encode bs : bytes bs -> atob (base64_encode bs) = Ok bs.
Proof.
  intros Hbs. pose proof (sextets_range bs Hbs) as Hvs.
  destruct (length_sextets bs) as [Hlen Hpad].
  unfold atob, base64_encode.
  rewrite filter_plain; [|done|].
  2:{ unfold padding. destruct (length bs mod 3)%nat as [|[|[|k]]]; repeat constructor. }
  rewrite length_app, length_map.
  rewrite (proj2 (Nat.eqb_eq _ _) Hpad).
  rewrite strip_padding_encoded by done.
  rewrite length_map.
  assert ((length (sextets bs) mod 4 =? 1)%nat = false) as ->.
  { apply Nat.eqb_neq. rewrite Hlen. by destruct (length bs mod 3)%nat as [|[|k]]. }
  rewrite mapM_b64_value by done. by rewrite unsextets_sextets.
Qed.

(** *** The 16-bit view *)

Lemma Uint16Array_store_at le pre rest k u :
  length pre = (2 * k)%nat -> 0 <= u <= 65535 ->
  Uint16Array_store le (pre ++ 0 :: 0 :: rest) k u = pre ++ unit_bytes le u ++ rest.
Proof.
  intros Hpre Hu. unfold Uint16Array_store, unit_bytes.
  rewrite (Z.mod_small u 65536) by lia.
  destruct le; simpl.
  - rewrite (insert_app_r_alt pre _ (2 * k + 1)) by lia.
    rewrite (insert_app_r_alt pre _ (2 * k)) by lia.
    replace (2 * k + 1 - length pre)%nat with 1%nat by lia.
    replace (2 * k - length pre)%nat with 0%nat by lia. done.
  - rewrite (insert_app_r_alt pre _ (2 * k + 1)) by lia.
    rewrite (insert_app_r_alt pre _ (2 * k)) by lia.
    replace (2 * k + 1 - length pre)%nat with 1%nat by lia.
    replace (2 * k - length pre)%nat with 0%nat by lia. done.
Qed.

(** The loop of lines 159-160, from index [k] on. *)
Lemma fill_loop le (binary : list Z) m : forall k pre,
  Forall (fun u => 0 <= u <= 65535) binary ->
  length pre = (2 * k)%nat -> (k + m)%nat = length binary ->
  foldl (fun bs i => Uint16Array_store le bs i (default 0 (binary !! i)))
        (pre ++ replicate (m * 2) 0) (seq k m)
  = pre ++ flat_map (unit_bytes le) (drop k binary).
Proof.
  induction m as [|m IH]; intros k pre Hb Hpre Hk.
  - simpl. rewrite drop_ge by lia. done.
  - destruct (lookup_lt_is_Some_2 binary k ltac:(lia)) as [u Hu].
    assert (0 <= u <= 65535) as Hrange.
    { eapply Forall_lookup_1 in Hb; [|exact Hu]. done. }
    change (seq k (S m)) with (k :: seq (S k) m).
    change (replicate (S m * 2) 0) with (0 :: 0 :: replicate (m * 2) 0).
    match goal with
    | |- foldl ?f ?a (?i :: ?l) = _ => change (foldl f a (i :: l)) with (foldl f (f a i) l)
    end.
    cbv beta. rewrite Hu. cbn [default].
    rewrite Uint16Array_store_at by done.
    rewrite (drop_S binary u k Hu). cbn [flat_map].
    rewrite (app_assoc pre). rewrite IH; [by rewrite <- app_assoc|done| |lia].
    rewrite length_app, Hpre. unfold unit_bytes. destruct le; simpl; lia.
Qed.

Lemma fill_units_bytes le binary :
  Forall (fun u => 0 <= u <= 65535) binary ->
  fill_units le binary = flat_map (unit_bytes le) binary.
Proof.
  intros Hb. unfold fill_units.
  apply (fill_loop le binary (length binary) 0%nat [] Hb); done.
Qed.

Lemma code_units_unit_bytes le binary :
  Forall (fun u => 0 <= u <= 65535) binary ->
  code_units le (flat_map (unit_bytes le) binary) = Some binary.
Proof.
  induction 1 as [|u binary Hu _ IH]; [done|].
  destruct le; simpl in *; rewrite IH; simpl; f_equal; f_equal; arith.
Qed.

Lemma bytes_units bs : bytes bs -> Forall (fun u => 0 <= u <= 65535) bs.
Proof. intros H. eapply Forall_impl; [exact H|]. simpl. lia. Qed.

Lemma bytes_forallb bs : bytes bs -> forallb (in_range 0 255) bs = true.
Proof.
  induction 1 as [|b bs Hb _ IH]; [done|].
  simpl. by rewrite in_range_true, IH.
Qed.

(** *** Buffers on the heap *)

Lemma data_of_new h bs :
  data_of (h ++ [ArrayBuffer bs] ++ [BufferImpl (length h)]) (S (length h)) = Some bs.
Proof.
  unfold data_of.
  rewrite (lookup_app_r h) by lia. replace (S (length h) - length h)%nat with 1%nat by lia.
  simpl. rewrite (lookup_app_r h) by lia. by rewrite Nat.sub_diag.
Qed.

Lemma data_of_extend h h' b bs : data_of h b = Some bs -> data_of (h ++ h') b = Some bs.
Proof.
  unfold data_of. intros H.
  destruct (h !! b) as [[|d]|] eqn:Hb; try done.
  destruct (h !! d) as [[bs'|]|] eqn:Hd; try done.
  rewrite (lookup_app_l_Some _ _ _ _ Hb), (lookup_app_l_Some _ _ _ _ Hd). done.
Qed.

Section HostProperties.

Variable little_endian : bool.
Variable legacy : JSString -> option (list Z -> option JSString).
Variable max_arguments : Z.

(** The constructor on text, for the two encodings it knows. *)
Lemma new_BufferImpl_utf8 s h :
  new_BufferImpl little_endian (Text s) (Some (str "utf8")) h
  = Ok (S (length h), h ++ [ArrayBuffer (TextEncoder_encode s)] ++ [BufferImpl (length h)]).
Proof.
  unfold new_BufferImpl, alloc. simpl default.
  rewrite decide_False by done. rewrite decide_True by done.
  rewrite length_app. simpl. rewrite <- app_assoc. repeat f_equal. lia.
Qed.

Lemma new_BufferImpl_base64 s binary h :
  atob s = Ok binary ->
  new_BufferImpl little_endian (Text s) (Some (str "base64")) h
  = Ok (S (length h), h ++ [ArrayBuffer (fill_units little_endian binary)]
                        ++ [BufferImpl (length h)]).
Proof.
  intros Hs. unfold new_BufferImpl, alloc. simpl default.
  rewrite decide_True by done. rewrite Hs.
  rewrite length_app. simpl. rewrite <- app_assoc. repeat f_equal. lia.
Qed.

Lemma TextDecoder_utf8 : TextDecoder legacy (str "utf8") = Ok decode_utf8.
Proof. unfold TextDecoder. rewrite decide_True; [done|]. vm_compute. set_solver. Qed.

(** Code units that are bytes, read from bytes two by two: the bytes are
    those of the units. *)
Lemma unit_bytes_code_units d : forall us,
  bytes d -> code_units little_endian d = Some us ->
  Forall (fun u => 0 <= u <= 255) us ->
  flat_map (unit_bytes little_endian) us = d.
Proof.
  induction d as [|x|x y d IH _] using list_pair_ind; intros us Hd Hus Hbytes.
  - by simplify_eq/=.
  - done.
  - apply Forall_cons in Hd as [Hx Hd]. apply Forall_cons in Hd as [Hy Hd].
    change (code_units little_endian (x :: y :: d)) with
      (cons (if little_endian then x + 256 * y else 256 * x + y)
         <$> code_units little_endian d) in Hus.
    apply fmap_Some in Hus as (us' & Hus' & ->).
    apply Forall_cons in Hbytes as [Hu Hbytes].
    cbn [flat_map]. rewrite (IH us' Hd Hus' Hbytes). unfold unit_bytes.
    destruct little_endian.
    + assert (y = 0) as -> by lia. rewrite Z.add_0_r in *.
      by rewrite Z.mod_small, Z.div_small by lia.
    + assert (x = 0) as -> by lia. rewrite Z.add_0_l in *.
      by rewrite Z.mod_small, Z.div_small by lia.
Qed.

Lemma forallb_bytes bs : forallb (in_range 0 255) bs = true -> bytes bs.
Proof.
  induction bs as [|b bs IH]; [constructor|]. simpl.
  intros [Hb Hbs]%andb_true_iff. constructor; [by apply in_range_spec|by apply IH].
Qed.

Lemma length_code_units d : forall us,
  code_units little_endian d = Some us -> length d = (2 * length us)%nat.
Proof.
  induction d as [|x|x y d IH _] using list_pair_ind; intros us Hus.
  - by simplify_eq/=.
  - done.
  - change (code_units little_endian (x :: y :: d)) with
      (cons (if little_endian then x + 256 * y else 256 * x + y)
         <$> code_units little_endian d) in Hus.
    apply fmap_Some in Hus as (us' & Hus' & ->). simpl. rewrite (IH us' Hus'). lia.
Qed.

(** [toString("base64")] on a buffer that holds bytes as 16-bit units. *)
Lemma toString_base64_units bs this h :
  bytes bs ->
  data_of h this = Some (flat_map (unit_bytes little_endian) bs) ->
  toString little_endian legacy max_arguments this (Some (str "base64")) h
  = if Z.of_nat (length bs) <=? max_arguments
    then Ok (base64_encode bs)
    else Throws RangeError.
Proof.
  intros Hbs Hdata. unfold toString. rewrite Hdata. simpl default.
  rewrite decide_True by done. unfold Uint16Array_elements.
  rewrite code_units_unit_bytes by (by apply bytes_units).
  unfold btoa. by rewrite bytes_forallb.
Qed.

(** C3, as the code has it.  Text goes through ["utf8"] and comes back
    when it is well formed (no surrogate on its own, which [TextEncoder]
    replaces) and does not start with U+FEFF (which [TextDecoder] drops as
    a byte order mark).  The base64 text of a byte sequence goes through
    ["base64"] and comes back when the sequence has no more bytes than a
    call takes arguments; when it has more, [toString("base64")] throws a
    [RangeError].  The buffer made from that text holds each byte as a
    16-bit unit; and [toString("base64")] gives text for a buffer exactly
    when the buffer holds bytes in that way and they are not too many: the
    text is then their base64 text. *)
Theorem buffer_round_trip h :
  (forall s, well_formed s -> head s <> Some 0xFEFF ->
     exists b h',
       new_BufferImpl little_endian (Text s) (Some (str "utf8")) h = Ok (b, h') /\
       toString little_endian legacy max_arguments b (Some (str "utf8")) h' = Ok s) /\
  (forall bs, bytes bs -> Z.of_nat (length bs) <= max_arguments ->
     exists b h',
       new_BufferImpl little_endian (Text (base64_encode bs)) (Some (str "base64")) h
         = Ok (b, h') /\
       data_of h' b = Some (flat_map (unit_bytes little_endian) bs) /\
       toString little_endian legacy max_arguments b (Some (str "base64")) h'
         = Ok (base64_encode bs)) /\
  (forall bs, bytes bs -> max_arguments < Z.of_nat (length bs) ->
     exists b h',
       new_BufferImpl little_endian (Text (base64_encode bs)) (Some (str "base64")) h
         = Ok (b, h') /\
       toString little_endian legacy max_arguments b (Some (str "base64")) h'
         = Throws RangeError) /\
  (forall this d text,
     data_of h this = Some d -> bytes d ->
     toString little_endian legacy max_arguments this (Some (str "base64")) h = Ok text <->
     exists bs,
       bytes bs /\ Z.of_nat (length bs) <= max_arguments /\
       d = flat_map (unit_bytes little_endian) bs /\ text = base64_encode bs).
Proof.
  split; [|split; [|split]].
  - intros s Hwf Hhd. eexists _, _. split; [apply new_BufferImpl_utf8|].
    unfold toString. rewrite data_of_new. simpl default.
    rewrite decide_False by done. rewrite TextDecoder_utf8.
    unfold TextDecoder_decode. by rewrite decode_utf8_encode.
  - intros bs Hbs Hlen. eexists _, _.
    split; [apply new_BufferImpl_base64, atob_base64_encode, Hbs|].
    rewrite fill_units_bytes by (by apply bytes_units).
    split; [apply data_of_new|].
    rewrite (toString_base64_units bs) by (done || apply data_of_new).
    by rewrite (proj2 (Z.leb_le _ _)).
  - intros bs Hbs Hlen. eexists _, _.
    split; [apply new_BufferImpl_base64, atob_base64_encode, Hbs|].
    rewrite fill_units_bytes by (by apply bytes_units).
    rewrite (toString_base64_units bs) by (done || apply data_of_new).
    by rewrite (proj2 (Z.leb_gt _ _)).
  - intros this d text Hdata Hd. split.
    + unfold toString. rewrite Hdata. simpl default.
      rewrite decide_True by done. unfold Uint16Array_elements.
      destruct (code_units little_endian d) as [us|] eqn:Hus; [|done].
      destruct (Z.leb_spec (Z.of_nat (length us)) max_arguments) as [Hlen|]; [|done].
      unfold btoa. destruct (forallb (in_range 0 255) us) eqn:Hbytes; [|done].
      intros [= <-]. apply forallb_bytes in Hbytes.
      exists us. split; [done|]. split; [done|]. split; [|done].
      symmetry. by apply unit_bytes_code_units.
    + intros (bs & Hbs & Hlen & -> & ->).
      rewrite (toString_base64_units bs) by done.
      by rewrite (proj2 (Z.leb_le _ _)).
Qed.

(** C9, as the code has it.  The constructor rejects, with an error that
    names it, any encoding of a string that is neither ["utf8"] nor
    ["base64"].  [toString] has no such test: what is not ["base64"] goes
    to [TextDecoder] as a label, and the call fails, with a [RangeError],
    when the label names no encoding that [TextDecoder] has. *)
Theorem other_encoding encoding :
  encoding <> str "utf8" -> encoding <> str "base64" ->
  (forall s h,
     new_BufferImpl little_endian (Text s) (Some encoding) h
     = Throws (Error (str "Unsupported encoding " ++ quote ++ encoding ++ quote))) /\
  (forall this h bs,
     data_of h this = Some bs ->
     toString little_endian legacy max_arguments this (Some encoding) h
     = match TextDecoder legacy encoding with
       | Ok decoder => TextDecoder_decode decoder bs
       | Throws e => Throws e
       end) /\
  (normalise_label encoding ∉ utf8_labels ++ utf16le_labels ++ utf16be_labels ->
   legacy (normalise_label encoding) = None ->
   TextDecoder legacy encoding = Throws RangeError /\
   forall this h bs,
     data_of h this = Some bs ->
     toString little_endian legacy max_arguments this (Some encoding) h = Throws RangeError).
Proof.
  intros Hutf8 Hbase64.
  assert (Hto : forall this h bs, data_of h this = Some bs ->
    toString little_endian legacy max_arguments this (Some encoding) h
    = match TextDecoder legacy encoding with
      | Ok decoder => TextDecoder_decode decoder bs
      | Throws e => Throws e
      end).
  { intros this h bs Hdata. unfold toString. rewrite Hdata. simpl default.
    by rewrite decide_False. }
  split; [|split; [exact Hto|]].
  - intros s h. unfold new_BufferImpl. simpl default. by rewrite !decide_False.
  - intros Hlabel Hlegacy.
    assert (TextDecoder legacy encoding = Throws RangeError) as Hdec.
    { unfold TextDecoder. rewrite !elem_of_app in Hlabel.
      rewrite !decide_False by tauto. by rewrite Hlegacy. }
    split; [done|]. intros this h bs Hdata. by rewrite (Hto _ _ _ Hdata), Hdec.
Qed.

End HostProperties.

(** *** Concatenation *)

Lemma copy_all_zeroes datas : forall pre,
  copy_all (pre ++ replicate (length (List.concat datas)) 0) (length pre) datas
  = Ok (pre ++ List.concat datas).
Proof.
  induction datas as [|data datas IH]; intros pre.
  - simpl. by rewrite app_nil_r.
  - cbn [copy_all List.concat]. unfold Uint8Array_set.
    rewrite decide_True by (rewrite !length_app, length_replicate; lia).
    rewrite take_app_length.
    rewrite drop_app_add' by done.
    rewrite drop_replicate, length_app.
    replace (length data + length (List.concat datas) - length data)%nat
      with (length (List.concat datas)) by lia.
    rewrite (app_assoc pre data), <- (length_app pre data). rewrite IH.
    by rewrite <- app_assoc.
Qed.

Lemma total_byteLength datas : forall a,
  foldl (fun a (data : list Z) => (a + length data)%nat) a datas
  = (a + length (List.concat datas))%nat.
Proof.
  induction datas as [|data datas IH]; intros a; simpl; [lia|].
  rewrite IH, length_app. lia.
Qed.

(** C7.  [concat([])] is a new buffer of length 0; [concat([b])] is [b],
    the same object, and nothing is allocated; [concat] of two buffers or
    more is a new buffer that holds the bytes of the buffers one after the
    other, so as many bytes as they hold together, and the buffers that
    existed are as they were. *)
Theorem concat_buffers h :
  (exists b h',
     concat [] h = Ok (b, h') /\ h !! b = None /\ h `prefix_of` h' /\
     data_of h' b = Some []) /\
  (forall b, concat [b] h = Ok (b, h)) /\
  (forall b1 b2 buffers datas,
     mapM (data_of h) (b1 :: b2 :: buffers) = Some datas ->
     exists b h',
       concat (b1 :: b2 :: buffers) h = Ok (b, h') /\ h !! b = None /\ h `prefix_of` h' /\
       data_of h' b = Some (List.concat datas) /\
       length (List.concat datas) = sum_list (map length datas) /\
       mapM (data_of h') (b1 :: b2 :: buffers) = Some datas).
Proof.
  split; [|split].
  - eexists _, _. unfold concat, alloc. split; [done|]. simpl.
    split; [apply lookup_ge_None_2; rewrite length_app; simpl; lia|].
    split; [rewrite <- app_assoc; by apply prefix_app_r|].
    rewrite length_app. simpl. rewrite <- app_assoc. simpl.
    replace (length h + 1)%nat with (S (length h)) by lia.
    apply (data_of_new h []).
  - done.
  - intros b1 b2 buffers datas Hdatas.
    exists (S (length h)), (h ++ [ArrayBuffer (List.concat datas)] ++ [BufferImpl (length h)]).
    split.
    { unfold concat. rewrite Hdatas, total_byteLength, Nat.add_0_l.
      pose proof (copy_all_zeroes datas []) as Hcopy.
      rewrite app_nil_l in Hcopy. change (length (@nil Z)) with 0%nat in Hcopy.
      rewrite Hcopy. unfold alloc. simpl.
      rewrite length_app. simpl. rewrite <- app_assoc. repeat f_equal. lia. }
    split; [apply lookup_ge_None_2; lia|].
    split; [by apply prefix_app_r|].
    split; [apply data_of_new|].
    split.
    { clear. induction datas as [|d datas IH]; [done|]. simpl. rewrite length_app. lia. }
    apply mapM_Some. apply mapM_Some in Hdatas.
    eapply Forall2_impl; [exact Hdatas|]. intros b bs. apply data_of_extend.
Qed.

(** C3 as stated fails: text that starts with U+FEFF comes back from
    ["utf8"] without it, and a buffer that holds three bytes, or the two
    bytes 1 and 2, has no ["base64"] text at all, [toString] reading the
    bytes two by two as code units. *)
Lemma round_trip_counterexample :
  new_BufferImpl true (Text [0xFEFF; 0x68; 0x69]) (Some (str "utf8")) []
    = Ok (1%nat, [ArrayBuffer [0xEF; 0xBB; 0xBF; 0x68; 0x69]; BufferImpl 0]) /\
  toString true no_legacy 65535 1 (Some (str "utf8"))
    [ArrayBuffer [0xEF; 0xBB; 0xBF; 0x68; 0x69]; BufferImpl 0] = Ok [0x68; 0x69] /\
  new_BufferImpl true (Binary 0) None [ArrayBuffer [1; 2; 3]]
    = Ok (1%nat, [ArrayBuffer [1; 2; 3]; BufferImpl 0]) /\
  toString true no_legacy 65535 1 (Some (str "base64")) [ArrayBuffer [1; 2; 3]; BufferImpl 0]
    = Throws RangeError /\
  toString true no_legacy 65535 1 (Some (str "base64")) [ArrayBuffer [1; 2]; BufferImpl 0]
    = Throws InvalidCharacterError.
Proof. repeat split; vm_compute; reflexivity. Qed.

Lemma buffer_round_trip_witness :
  (exists b h',
     new_BufferImpl true (Text [0x68; 0xE9; 0xD83D; 0xDE00]) (Some (str "utf8")) []
       = Ok (b, h') /\
     toString true no_legacy 65535 b (Some (str "utf8")) h' = Ok [0x68; 0xE9; 0xD83D; 0xDE00]) /\
  (exists b h',
     new_BufferImpl true (Text (base64_encode [1; 2; 255; 0])) (Some (str "base64")) []
       = Ok (b, h') /\
     data_of h' b = Some (flat_map (unit_bytes true) [1; 2; 255; 0]) /\
     toString true no_legacy 65535 b (Some (str "base64")) h'
       = Ok (base64_encode [1; 2; 255; 0])) /\
  (exists b h',
     new_BufferImpl true (Text (base64_encode [1; 2; 255; 0])) (Some (str "base64")) []
       = Ok (b, h') /\
     toString true no_legacy 3 b (Some (str "base64")) h' = Throws RangeError) /\
  (toString true no_legacy 65535 1 (Some (str "base64"))
     [ArrayBuffer [1; 0; 2; 0; 255; 0; 0; 0]; BufferImpl 0] = Ok (base64_encode [1; 2; 255; 0])
   <-> exists bs,
         bytes bs /\ Z.of_nat (length bs) <= 65535 /\
         [1; 0; 2; 0; 255; 0; 0; 0] = flat_map (unit_bytes true) bs /\
         base64_encode [1; 2; 255; 0] = base64_encode bs).
Proof.
  assert (Hbytes : bytes [1; 2; 255; 0]) by (repeat constructor; lia).
  split; [|split; [|split]].
  - apply (proj1 (buffer_round_trip true no_legacy 65535 []) [0x68; 0xE9; 0xD83D; 0xDE00]).
    + split; [repeat constructor; lia | reflexivity].
    + discriminate.
  - apply (proj1 (proj2 (buffer_round_trip true no_legacy 65535 [])) [1; 2; 255; 0] Hbytes).
    simpl. lia.
  - apply (proj1 (proj2 (proj2 (buffer_round_trip true no_legacy 3 []))) [1; 2; 255; 0] Hbytes).
    simpl. lia.
  - apply (proj2 (proj2 (proj2 (buffer_round_trip true no_legacy 65535
             [ArrayBuffer [1; 0; 2; 0; 255; 0; 0; 0]; BufferImpl 0])))
             1%nat [1; 0; 2; 0; 255; 0; 0; 0] (base64_encode [1; 2; 255; 0])).
    + reflexivity.
    + repeat constructor; lia.
Defined.

(** C9 as stated fails: [toString("utf-16le")] decodes. *)
Lemma other_encoding_counterexample :
  toString true no_legacy 65535 1 (Some (str "utf-16le"))
    [ArrayBuffer [0x68; 0; 0x69; 0]; BufferImpl 0] = Ok (str "hi").
Proof. vm_compute. reflexivity. Qed.

Lemma other_encoding_witness :
  (forall s h,
     new_BufferImpl true (Text s) (Some (str "hex")) h
     = Throws (Error (str "Unsupported encoding " ++ quote ++ str "hex" ++ quote))) /\
  (forall this h bs,
     data_of h this = Some bs ->
     toString true no_legacy 65535 this (Some (str "hex")) h
     = match TextDecoder no_legacy (str "hex") with
       | Ok decoder => TextDecoder_decode decoder bs
       | Throws e => Throws e
       end) /\
  (normalise_label (str "hex") ∉ utf8_labels ++ utf16le_labels ++ utf16be_labels ->
   no_legacy (normalise_label (str "hex")) = None ->
   TextDecoder no_legacy (str "hex") = Throws RangeError /\
   forall this h bs,
     data_of h this = Some bs ->
     toString true no_legacy 65535 this (Some (str "hex")) h = Throws RangeError).
Proof.
  apply (other_encoding true no_legacy 65535 (str "hex")); discriminate.
Defined.

Lemma concat_buffers_witness :
  (exists b h',
     concat [] [ArrayBuffer [1; 2]; BufferImpl 0; ArrayBuffer [3]; BufferImpl 2]
       = Ok (b, h') /\
     [ArrayBuffer [1; 2]; BufferImpl 0; ArrayBuffer [3]; BufferImpl 2] !! b = None /\
     [ArrayBuffer [1; 2]; BufferImpl 0; ArrayBuffer [3]; BufferImpl 2] `prefix_of` h' /\
     data_of h' b = Some []) /\
  (forall b, concat [b] [ArrayBuffer [1; 2]; BufferImpl 0; ArrayBuffer [3]; BufferImpl 2]
             = Ok (b, [ArrayBuffer [1; 2]; BufferImpl 0; ArrayBuffer [3]; BufferImpl 2])) /\
  (forall b1 b2 buffers datas,
     mapM (data_of [ArrayBuffer [1; 2]; BufferImpl 0; ArrayBuffer [3]; BufferImpl 2])
          (b1 :: b2 :: buffers) = Some datas ->
     exists b h',
       concat (b1 :: b2 :: buffers)
              [ArrayBuffer [1; 2]; BufferImpl 0; ArrayBuffer [3]; BufferImpl 2] = Ok (b, h') /\
       [ArrayBuffer [1; 2]; BufferImpl 0; ArrayBuffer [3]; BufferImpl 2] !! b = None /\
       [ArrayBuffer [1; 2]; BufferImpl 0; ArrayBuffer [3]; BufferImpl 2] `prefix_of` h' /\
       data_of h' b = Some (List.concat datas) /\
       length (List.concat datas) = sum_list (map length datas) /\
       mapM (data_of h') (b1 :: b2 :: buffers) = Some datas).
Proof.
  apply (concat_buffers [ArrayBuffer [1; 2]; BufferImpl 0; ArrayBuffer [3]; BufferImpl 2]).
Defined.

End ByteBuffer.

(** ** The deferred-task scheduler: [makeWaitForNextTask], lines 280-313 *)

Module Scheduler.

(** What [setImmediate] was given: the closure [loop] of line 294, or, on
    Node 11 and later, where the function returned is [setImmediate]
    itself, a callback. *)
Inductive task :=
| Loop
| Direct (callback : nat).

(** The two functions that [makeWaitForNextTask] may return. *)
Inductive scheduler :=
| SetImmediate            (* line 283 *)
| Spinning.               (* lines 306-312 *)

Inductive obs :=
| Submitted (callback : nat)     (* the function returned is called *)
| Armed                          (* [setImmediate(loop)] *)
| Invoked (callback : nat)       (* [callback()] *)
| Uncaught (callback : nat).     (* the callback threw *)

#[global] Instance obs_eq_dec : EqDecision obs.
Proof. solve_decision. Defined.

(** The variables [spinning] and [callbacks] of lines 292-293, the
    immediate queue of the host, first in first out, and what has been
    observed. *)
Record state := State {
  spinning : bool;
  callbacks : list nat;
  immediates : list task;
  trace : list obs
}.

Definition initial : state := State false [] [] [].

Definition observe (o : obs) (s : state) : state :=
  State (spinning s) (callbacks s) (immediates s) (trace s ++ [o]).

Definition setImmediate (t : task) (s : state) : state :=
  State (spinning s) (callbacks s) (immediates s ++ [t]) (trace s).

(** Lines 281-283: [None] when the assertion fails; [node] is
    [parseInt(process.versions.node, 10)]. *)
Definition makeWaitForNextTask (isNode : bool) (node : Z) : option scheduler :=
  if negb isNode then None
  else if 11 <=? node then Some SetImmediate
  else Some Spinning.

Section Callbacks.

(** A callback is a function of the caller, known by its reference.  When
    it is called it may hand further callbacks to the scheduler, and then
    it returns or throws: [body c] lists the callbacks [c] submits, in
    order, and tells whether it throws after that. *)
Variable body : nat -> list nat * bool.

(** The function returned, applied to [callback]: lines 306-312, or
    [setImmediate(callback)]. *)
Definition waitForNextTask (k : scheduler) (callback : nat) (s : state) : state :=
  let s := observe (Submitted callback) s in
  match k with
  | SetImmediate => setImmediate (Direct callback) s
  | Spinning =>
      let s := State (spinning s) (callbacks s ++ [callback]) (immediates s) (trace s) in
      if spinning s then s
      else observe Armed
             (setImmediate Loop (State true (callbacks s) (immediates s) (trace s)))
  end.

(** [callback()]: the state after it, and whether it threw. *)
Definition invoke (k : scheduler) (callback : nat) (s : state) : bool * state :=
  let s := foldl (fun s c => waitForNextTask k c s)
                 (observe (Invoked callback) s) (fst (body callback)) in
  if snd (body callback) then (true, observe (Uncaught callback) s) else (false, s).

(** Lines 294-304. *)
Definition loop (k : scheduler) (s : state) : bool * state :=
  match callbacks s with
  | [] => (false, State false (callbacks s) (immediates s) (trace s))
  | callback :: rest =>
      let s := State (spinning s) rest (immediates s) (trace s) in
      let s := observe Armed (setImmediate Loop s) in
      invoke k callback s
  end.

(** One turn of the host's event loop: the first immediate runs.  An
    exception that escapes it is the host's to report (a process with an
    ['uncaughtException'] handler goes on), and the next turn runs the
    next immediate all the same. *)
Definition turn (k : scheduler) (s : state) : state :=
  match immediates s with
  | [] => s
  | t :: rest =>
      let s := State (spinning s) (callbacks s) rest (trace s) in
      match t with
      | Loop => snd (loop k s)
      | Direct callback => snd (invoke k callback s)
      end
  end.

Fixpoint turns (k : scheduler) (n : nat) (s : state) : state :=
  match n with
  | O => s
  | S n => turns k n (turn k s)
  end.

(** What happens to a scheduler from outside: a task of the program
    submits a callback, or the event loop takes a turn. *)
Inductive input :=
| Submit (callback : nat)
| Turn.

Definition step (k : scheduler) (s : state) (i : input) : state :=
  match i with
  | Submit callback => waitForNextTask k callback s
  | Turn => turn k s
  end.

Definition run (k : scheduler) (inputs : list input) : state :=
  foldl (step k) initial inputs.

Definition submitted_of (t : list obs) : list nat :=
  omap (fun o => match o with Submitted c => Some c | _ => None end) t.

Definition invoked_of (t : list obs) : list nat :=
  omap (fun o => match o with Invoked c => Some c | _ => None end) t.

(** The callbacks that wait: in [callbacks], or in the immediate queue. *)
Definition pending (s : state) : list nat :=
  callbacks s ++ omap (fun t => match t with Direct c => Some c | Loop => None end)
                      (immediates s).

(** The state between two steps: every callback submitted has been
    invoked or waits, in the order of submission; and either the loop is
    armed, once, or nothing waits (for [setImmediate] itself: the immediate
    queue holds the callbacks that wait). *)
Definition ready (k : scheduler) (s : state) : Prop :=
  submitted_of (trace s) = invoked_of (trace s) ++ pending s /\
  match k with
  | Spinning =>
      if spinning s then immediates s = [Loop]
      else immediates s = [] /\ callbacks s = []
  | SetImmediate => callbacks s = [] /\ Forall (fun t => t <> Loop) (immediates s)
  end.

Lemma submitted_after t1 t2 :
  submitted_of (t1 ++ t2) = submitted_of t1 ++ submitted_of t2.
Proof. apply omap_app. Qed.

Lemma invoked_after t1 t2 : invoked_of (t1 ++ t2) = invoked_of t1 ++ invoked_of t2.
Proof. apply omap_app. Qed.

Lemma ready_initial k : ready k initial.
Proof. destruct k; repeat split; constructor. Qed.

Lemma waitForNextTask_ready k c s :
  ready k s ->
  ready k (waitForNextTask k c s) /\
  invoked_of (trace (waitForNextTask k c s)) = invoked_of (trace s) /\
  pending (waitForNextTask k c s) = pending s ++ [c].
Proof.
  destruct s as [sp cbs imm tr].
  unfold ready, waitForNextTask, pending, observe, setImmediate. simpl.
  intros [Hacc Hshape]. destruct k.
  - destruct Hshape as [-> Himm]. simpl in *.
    rewrite submitted_after, invoked_after, omap_app, Hacc. simpl.
    rewrite app_nil_r, <- app_assoc. repeat split; try done.
    apply Forall_app. split; [done|]. by repeat constructor.
  - destruct sp; simpl.
    + rewrite Hshape in *. simpl in *.
      rewrite submitted_after, invoked_after, Hacc. simpl.
      rewrite !app_nil_r, <- app_assoc. done.
    + destruct Hshape as [-> ->]. simpl in *.
      rewrite !submitted_after, !invoked_after, Hacc. simpl.
      rewrite !app_nil_r. done.
Qed.

Lemma submits_ready k cs : forall s,
  ready k s ->
  ready k (foldl (fun s c => waitForNextTask k c s) s cs) /\
  invoked_of (trace (foldl (fun s c => waitForNextTask k c s) s cs)) = invoked_of (trace s).
Proof.
  induction cs as [|c cs IH]; intros s Hs; [done|]. simpl.
  destruct (waitForNextTask_ready k c s Hs) as (Hr & Hi & _).
  destruct (IH _ Hr) as [Hr' Hi']. split; [done|]. by rewrite Hi'.
Qed.

(** A callback that was waiting runs: it is the one more callback invoked,
    and what it submits waits behind the others, whether it throws or not. *)
Lemma invoke_ready k callback s :
  ready k (observe (Invoked callback) s) ->
  ready k (snd (invoke k callback s)) /\
  invoked_of (trace (snd (invoke k callback s))) = invoked_of (trace s) ++ [callback].
Proof.
  intros Hs. unfold invoke.
  destruct (submits_ready k (fst (body callback)) _ Hs) as [Hr Hi].
  assert (Hinv : invoked_of (trace (observe (Invoked callback) s))
                 = invoked_of (trace s) ++ [callback]).
  { simpl. by rewrite invoked_after. }
  destruct (snd (body callback)); simpl; [|by rewrite Hi].
  rewrite invoked_after, app_nil_r, Hi. split; [|done].
  destruct Hr as [Hacc Hshape]. split; [|done].
  unfold pending in *. simpl. by rewrite submitted_after, invoked_after, !app_nil_r.
Qed.

(** One turn invokes the callback that has waited longest, if one waits. *)
Lemma turn_ready k s :
  ready k s ->
  ready k (turn k s) /\
  invoked_of (trace (turn k s)) = invoked_of (trace s) ++ take 1 (pending s) /\
  (pending s = [] -> trace (turn k s) = trace s).
Proof.
  destruct s as [sp cbs imm tr]. intros Hs. pose proof Hs as [Hacc Hshape].
  unfold turn, pending in *. simpl in *. destruct k.
  - destruct Hshape as [-> Himm]. simpl in *.
    destruct imm as [|t rest]; [by rewrite app_nil_r|].
    apply Forall_cons in Himm as [Ht Hrest]. destruct t as [|callback]; [done|].
    simpl in *. rewrite take_0.
    edestruct (invoke_ready SetImmediate callback) as [Hr Hinv];
      [|split; [exact Hr|split; [exact Hinv|done]]].
    unfold ready, pending. simpl.
    rewrite submitted_after, invoked_after, app_nil_r. simpl.
    by rewrite Hacc, <- app_assoc.
  - destruct sp.
    + rewrite Hshape in *. simpl in *. rewrite app_nil_r in Hacc.
      unfold loop. simpl. destruct cbs as [|callback rest].
      { simpl. by rewrite app_nil_r. }
      simpl. rewrite take_0.
      edestruct (invoke_ready Spinning callback) as [Hr Hinv];
        [|split; [exact Hr|split; [|done]]].
      * unfold ready, pending. simpl.
        rewrite !submitted_after, !invoked_after, !app_nil_r. simpl.
        rewrite ?app_nil_r. by rewrite Hacc, <- app_assoc.
      * rewrite Hinv. simpl. by rewrite invoked_after, app_nil_r.
    + destruct Hshape as [-> ->]. simpl. by rewrite app_nil_r.
Qed.

(** When nothing waits, turns change nothing that is observed. *)
Lemma turns_idle k n : forall s,
  ready k s -> pending s = [] ->
  trace (turns k n s) = trace s /\ ready k (turns k n s).
Proof.
  induction n as [|n IH]; intros s Hs Hp; [done|]. simpl.
  destruct (turn_ready k s Hs) as (Hr & Hi & Ht). specialize (Ht Hp).
  assert (pending (turn k s) = []) as Hp'.
  { destruct Hs as [Hacc _], Hr as [Hacc' _]. rewrite Ht, Hacc, Hp in Hacc'.
    by apply app_inv_head in Hacc'. }
  destruct (IH _ Hr Hp') as [Htr Hrn]. split; [by rewrite Htr|done].
Qed.

Lemma turns_ready k n : forall s,
  ready k s ->
  ready k (turns k n s) /\
  invoked_of (trace (turns k n s))
  = take (length (invoked_of (trace s)) + n) (submitted_of (trace (turns k n s))).
Proof.
  induction n as [|n IH]; intros s Hs.
  - simpl. split; [done|]. destruct Hs as [Hacc _].
    by rewrite Nat.add_0_r, Hacc, take_app_length.
  - destruct (turn_ready k s Hs) as (Hr & Hi & Ht).
    destruct (pending s) as [|c rest] eqn:Hp.
    + destruct (turns_idle k (S n) s Hs Hp) as [Htr Hrn]. split; [done|].
      rewrite Htr. destruct Hs as [Hacc _]. rewrite Hacc, Hp, app_nil_r.
      by rewrite take_ge by lia.
    + simpl. destruct (IH _ Hr) as [Hrn Hin]. split; [done|].
      rewrite Hin, Hi, length_app. simpl. f_equal. lia.
Qed.

Lemma run_ready k inputs : ready k (run k inputs).
Proof.
  unfold run. generalize (ready_initial k). generalize initial.
  induction inputs as [|i inputs IH]; intros s Hs; [done|].
  simpl. apply IH. destruct i as [c|]; simpl.
  - by apply waitForNextTask_ready.
  - by apply turn_ready.
Qed.

(** Submissions only add to the trace and to the immediate queue. *)
Lemma submits_extend k cs : forall s,
  exists t imm,
    trace (foldl (fun s c => waitForNextTask k c s) s cs) = trace s ++ t /\
    immediates (foldl (fun s c => waitForNextTask k c s) s cs) = immediates s ++ imm.
Proof.
  induction cs as [|c cs IH]; intros s.
  - exists [], []. simpl. by rewrite !app_nil_r.
  - simpl. destruct (IH (waitForNextTask k c s)) as (t & imm & Ht & Himm).
    rewrite Ht, Himm. destruct s as [sp cbs imms tr].
    unfold waitForNextTask, observe, setImmediate. simpl.
    destruct k; [|destruct sp]; simpl; rewrite <- ?app_assoc; eauto.
Qed.

End Callbacks.

(** Callback 1 submits callback 3 and throws; the others only return. *)
Definition demo_body (c : nat) : list nat * bool :=
  match c with
  | 1%nat => ([3%nat], true)
  | _ => ([], false)
  end.

(** Callbacks 1 and 2 are submitted, 1 throws when it runs: 2 and 3 are
    invoked after it. *)
Example demo_run :
  invoked_of (trace (turns demo_body Spinning 2
                       (run demo_body Spinning [Submit 1; Submit 2; Turn])))
  = [1; 2; 3]%nat.
Proof. reflexivity. Qed.

End Scheduler.

(** ** The message transport: [WebSocketTransport], lines 315-360 *)

Module Transport.

(** [WebSocket.readyState]. *)
Inductive readyState := CONNECTING | OPEN | CLOSING | CLOSED.

Inductive exn :=
| HandshakeError       (* [new Error(event.toString())], line 329 *)
| InvalidStateError    (* [_ws.send] on a socket that is still connecting *)
| NotOpenError.        (* [_ws.send] on a socket that is closing or closed, where it throws *)

(** The promise [_connect] of lines 327-330. *)
Inductive promise := Pending | Fulfilled | Rejected (reason : exn).

(** How the promise returned by a call of [send] was settled. *)
Inductive outcome := Resolved | Failed (reason : exn).

(** A microtask: the rest of the body of [send], from the [await] of line
    353 on, for the call [id] with its [message]; [thrown] is what the
    [await] throws, if it does. *)
Record job := Resume { id : nat; message : string; thrown : option exn }.

(** A transport: the socket ([ws], and [wire], the messages it was given
    to transmit, in order), the promise [_connect] with the calls of
    [send] that wait for it, the microtask queue of the host, and, for each
    call of [send], in the order of the calls, its message and, once it is
    known, its outcome. *)
Record state := State {
  ws : readyState;
  wire : list string;
  _connect : promise;
  waiting : list (nat * string);
  microtasks : list job;
  calls : list string;
  settled : list (nat * outcome)
}.

(** The constructor, lines 322-330: the socket is connecting and the
    promise is pending.  The listeners for ['message'] and ['close'] of
    lines 337-349 read and write nothing that [send] depends on, and are
    left out. *)
Definition new_WebSocketTransport : state :=
  State CONNECTING [] Pending [] [] [] [].

Section Host.

(** What [_ws.send] does once the socket is closing or closed: the
    [WebSocket] of a browser drops the message and returns, the [ws]
    module of Node throws. *)
Variable closed_send_throws : bool.

(** [send(message)], lines 352-355, up to the [await]: the call waits for
    [_connect] when it is pending, and goes on in a microtask when it is
    settled (one microtask; an engine in which an [await] takes more of
    them takes as many for every call). *)
Definition send (message : string) (s : state) : state :=
  let id := length (calls s) in
  let s := State (ws s) (wire s) (_connect s) (waiting s) (microtasks s)
                 (calls s ++ [message]) (settled s) in
  match _connect s with
  | Pending =>
      State (ws s) (wire s) (_connect s) (waiting s ++ [(id, message)]) (microtasks s)
            (calls s) (settled s)
  | Fulfilled =>
      State (ws s) (wire s) (_connect s) (waiting s)
            (microtasks s ++ [Resume id message None]) (calls s) (settled s)
  | Rejected reason =>
      State (ws s) (wire s) (_connect s) (waiting s)
            (microtasks s ++ [Resume id message (Some reason)]) (calls s) (settled s)
  end.

(** The settlement of [_connect]: a promise settles once, and the calls
    that wait go on, in the order in which they started to wait. *)
Definition settle (p : promise) (s : state) : state :=
  match _connect s with
  | Pending =>
      let thrown := match p with Rejected reason => Some reason | _ => None end in
      State (ws s) (wire s) p []
            (microtasks s ++ map (fun w => Resume (fst w) (snd w) thrown) (waiting s))
            (calls s) (settled s)
  | _ => s
  end.

(** [this._ws.send(message)], line 354. *)
Definition ws_send (message : string) (s : state) : option exn * state :=
  match ws s with
  | OPEN =>
      (None, State (ws s) (wire s ++ [message]) (_connect s) (waiting s) (microtasks s)
                   (calls s) (settled s))
  | CONNECTING => (Some InvalidStateError, s)
  | CLOSING | CLOSED => (if closed_send_throws then Some NotOpenError else None, s)
  end.

Definition settle_send (id : nat) (o : outcome) (s : state) : state :=
  State (ws s) (wire s) (_connect s) (waiting s) (microtasks s) (calls s)
        (settled s ++ [(id, o)]).

(** The first microtask runs: line 353 throws, or line 354 runs, and the
    promise that [send] returned is settled. *)
Definition tick (s : state) : state :=
  match microtasks s with
  | [] => s
  | Resume id message thrown :: rest =>
      let s := State (ws s) (wire s) (_connect s) (waiting s) rest (calls s) (settled s) in
      match thrown with
      | Some reason => settle_send id (Failed reason) s
      | None =>
          match ws_send message s with
          | (None, s) => settle_send id Resolved s
          | (Some reason, s) => settle_send id (Failed reason) s
          end
      end
  end.

Definition set_ws (r : readyState) (s : state) : state :=
  State r (wire s) (_connect s) (waiting s) (microtasks s) (calls s) (settled s).

(** [close()], lines 357-359: the socket starts to close; its events
    follow. *)
Definition close (s : state) : state :=
  match ws s with
  | CONNECTING | OPEN => set_ws CLOSING s
  | _ => s
  end.

(** What happens to a transport: the program calls [send] or [close], the
    host runs a microtask, or the socket has an event.  The socket opens
    once, from connecting (['open'], line 328); it fails, from any state
    but closed (['error'], line 329, then ['close']); or it closes after
    it was open (['close'] alone). *)
Inductive input :=
| Send (message : string)
| Close
| Tick
| SocketOpen
| SocketFail
| SocketClose.

Definition step (s : state) (i : input) : state :=
  match i with
  | Send message => send message s
  | Close => close s
  | Tick => tick s
  | SocketOpen =>
      match ws s with
      | CONNECTING => settle Fulfilled (set_ws OPEN s)
      | _ => s
      end
  | SocketFail =>
      match ws s with
      | CLOSED => s
      | _ => settle (Rejected HandshakeError) (set_ws CLOSED s)
      end
  | SocketClose =>
      match ws s with
      | OPEN | CLOSING => set_ws CLOSED s
      | _ => s
      end
  end.

Definition run (inputs : list input) : state :=
  foldl step new_WebSocketTransport inputs.

(** The host runs the microtasks that are queued. *)
Definition drain (s : state) : state :=
  Nat.iter (length (microtasks s)) tick s.

(** The messages of the calls of [send] among the inputs, in order. *)
Definition messages (inputs : list input) : list string :=
  omap (fun i => match i with Send m => Some m | _ => None end) inputs.

(** The program only calls [send], and microtasks run. *)
Definition sending (inputs : list input) : Prop :=
  Forall (fun i => match i with Send _ | Tick => True | _ => False end) inputs.

(** The three phases of a transport whose program only sends.  While the
    socket connects, every call waits. *)
Definition connecting (s : state) : Prop :=
  ws s = CONNECTING /\ _connect s = Pending /\ wire s = [] /\
  microtasks s = [] /\ settled s = [] /\
  map fst (waiting s) = seq 0 (length (calls s)) /\ map snd (waiting s) = calls s.

(** Once it is open, the messages of the calls are, in the order of the
    calls, on the wire or in the microtask queue, and the calls whose
    message is on the wire are resolved. *)
Definition opened (s : state) : Prop :=
  ws s = OPEN /\ _connect s = Fulfilled /\ waiting s = [] /\
  Forall (fun j => thrown j = None) (microtasks s) /\
  wire s ++ map message (microtasks s) = calls s /\
  map id (microtasks s) = seq (length (wire s)) (length (microtasks s)) /\
  settled s = map (fun i => (i, Resolved)) (seq 0 (length (wire s))).

(** Once the handshake has failed, every call is rejected, or about to be,
    with the error of the handshake, and nothing is on the wire. *)
Definition failed (s : state) : Prop :=
  ws s = CLOSED /\ _connect s = Rejected HandshakeError /\ waiting s = [] /\
  wire s = [] /\
  Forall (fun j => thrown j = Some HandshakeError) (microtasks s) /\
  map id (microtasks s) = seq (length (settled s)) (length (microtasks s)) /\
  (length (settled s) + length (microtasks s))%nat = length (calls s) /\
  settled s = map (fun i => (i, Failed HandshakeError)) (seq 0 (length (settled s))).

Lemma messages_app i1 i2 : messages (i1 ++ i2) = messages i1 ++ messages i2.
Proof. apply omap_app. Qed.

Lemma messages_cons i inputs : messages (i :: inputs) = messages [i] ++ messages inputs.
Proof. apply (messages_app [i]). Qed.

Lemma connecting_new : connecting new_WebSocketTransport.
Proof. by repeat split. Qed.

Lemma connecting_step s i :
  connecting s -> sending [i] ->
  connecting (step s i) /\ calls (step s i) = calls s ++ messages [i].
Proof.
  destruct s as [r w c wt mt cs st]. unfold connecting. simpl.
  intros (-> & -> & -> & -> & -> & Hid & Hmsg) Hi.
  apply Forall_cons in Hi as [Hi _].
  destruct i as [m| | | | |]; try done; simpl.
  - rewrite !map_app, Hid, Hmsg, length_app. simpl.
    replace (length cs + 1)%nat with (S (length cs)) by lia.
    rewrite seq_S. by repeat split.
  - rewrite app_nil_r. by repeat split.
Qed.

Lemma connecting_steps inputs : forall s,
  connecting s -> sending inputs ->
  connecting (foldl step s inputs) /\
  calls (foldl step s inputs) = calls s ++ messages inputs.
Proof.
  induction inputs as [|i inputs IH]; intros s Hs Hin.
  - simpl. by rewrite app_nil_r.
  - apply Forall_cons in Hin as [Hi Hin]. rewrite (messages_cons i inputs).
    change (foldl step s (i :: inputs)) with (foldl step (step s i) inputs).
    destruct (connecting_step s i Hs) as [Hs' Hc]; [by constructor|].
    destruct (IH _ Hs' Hin) as [Hs'' Hc'']. split; [done|].
    by rewrite Hc'', Hc, app_assoc.
Qed.

Lemma opened_SocketOpen s :
  connecting s -> opened (step s SocketOpen) /\ calls (step s SocketOpen) = calls s.
Proof.
  destruct s as [r w c wt mt cs st]. unfold connecting, opened. simpl.
  intros (-> & -> & -> & -> & -> & Hid & Hmsg). simpl.
  rewrite !map_map. simpl. rewrite length_map.
  assert (length wt = length cs) as Hlen by (by rewrite <- Hmsg, length_map).
  rewrite Hlen. repeat split; try done.
  clear. induction wt; by constructor.
Qed.

Lemma failed_SocketFail s :
  connecting s -> failed (step s SocketFail) /\ calls (step s SocketFail) = calls s.
Proof.
  destruct s as [r w c wt mt cs st]. unfold connecting, failed. simpl.
  intros (-> & -> & -> & -> & -> & Hid & Hmsg). simpl.
  rewrite !map_map. simpl. rewrite length_map.
  assert (length wt = length cs) as Hlen by (by rewrite <- Hmsg, length_map).
  rewrite Hlen. repeat split; try done.
  clear. induction wt; by constructor.
Qed.

Lemma opened_step s i :
  opened s -> sending [i] ->
  opened (step s i) /\ calls (step s i) = calls s ++ messages [i].
Proof.
  destruct s as [r w c wt mt cs st]. unfold opened. simpl.
  intros (-> & -> & -> & Hthrown & Hcalls & Hids & ->) Hi.
  apply Forall_cons in Hi as [Hi _].
  destruct i as [m| | | | |]; try done; simpl.
  - rewrite !map_app, !length_app, Hids, <- Hcalls, !length_app, length_map. simpl.
    replace (length mt + 1)%nat with (S (length mt)) by lia.
    rewrite seq_S, app_assoc. repeat split; try done.
    apply Forall_app. split; [done|]. by repeat constructor.
  - unfold tick. simpl. destruct mt as [|[i m t] mt]; simpl.
    { simpl in *. rewrite app_nil_r in Hcalls. rewrite !app_nil_r. by repeat split. }
    apply Forall_cons in Hthrown as [Ht Hthrown]. simpl in *. subst t.
    injection Hids as -> Hids. simpl.
    rewrite app_nil_r, length_app. simpl.
    replace (length w + 1)%nat with (S (length w)) by lia.
    rewrite seq_S, map_app, <- app_assoc. simpl. by repeat split.
Qed.

Lemma opened_steps inputs : forall s,
  opened s -> sending inputs ->
  opened (foldl step s inputs) /\
  calls (foldl step s inputs) = calls s ++ messages inputs.
Proof.
  induction inputs as [|i inputs IH]; intros s Hs Hin.
  - simpl. by rewrite app_nil_r.
  - apply Forall_cons in Hin as [Hi Hin]. rewrite (messages_cons i inputs).
    change (foldl step s (i :: inputs)) with (foldl step (step s i) inputs).
    destruct (opened_step s i Hs) as [Hs' Hc]; [by constructor|].
    destruct (IH _ Hs' Hin) as [Hs'' Hc'']. split; [done|].
    by rewrite Hc'', Hc, app_assoc.
Qed.

Lemma failed_step s i :
  failed s -> sending [i] ->
  failed (step s i) /\ calls (step s i) = calls s ++ messages [i].
Proof.
  destruct s as [r w c wt mt cs st]. unfold failed. simpl.
  intros (-> & -> & -> & -> & Hthrown & Hids & Hlen & Hst) Hi.
  apply Forall_cons in Hi as [Hi _].
  destruct i as [m| | | | |]; try done; simpl.
  - rewrite !map_app, !length_app, Hids, <- Hlen. simpl.
    replace (length mt + 1)%nat with (S (length mt)) by lia.
    rewrite seq_S. repeat split; try done; [|lia].
    apply Forall_app. split; [done|]. by repeat constructor.
  - unfold tick. simpl. destruct mt as [|[i m t] mt]; simpl.
    { simpl in *. rewrite !app_nil_r. by repeat split. }
    apply Forall_cons in Hthrown as [Ht Hthrown]. simpl in *. subst t.
    injection Hids as -> Hids. simpl.
    rewrite app_nil_r, length_app. simpl.
    replace (length st + 1)%nat with (S (length st)) by lia.
    rewrite seq_S, map_app, <- Hst. simpl. repeat split; try done. lia.
Qed.

Lemma failed_steps inputs : forall s,
  failed s -> sending inputs ->
  failed (foldl step s inputs) /\
  calls (foldl step s inputs) = calls s ++ messages inputs.
Proof.
  induction inputs as [|i inputs IH]; intros s Hs Hin.
  - simpl. by rewrite app_nil_r.
  - apply Forall_cons in Hin as [Hi Hin]. rewrite (messages_cons i inputs).
    change (foldl step s (i :: inputs)) with (foldl step (step s i) inputs).
    destruct (failed_step s i Hs) as [Hs' Hc]; [by constructor|].
    destruct (IH _ Hs' Hin) as [Hs'' Hc'']. split; [done|].
    by rewrite Hc'', Hc, app_assoc.
Qed.

(** Running the microtasks that are queued empties the queue. *)
Lemma ticks_opened n : forall s,
  opened s -> length (microtasks s) = n ->
  opened (Nat.iter n tick s) /\ microtasks (Nat.iter n tick s) = [] /\
  calls (Nat.iter n tick s) = calls s.
Proof.
  induction n as [|n IH]; intros s Hs Hn.
  - simpl. split; [done|]. split; [|done]. by destruct (microtasks s).
  - rewrite Nat.iter_succ_r.
    destruct (opened_step s Tick Hs) as [Hs' Hc]; [by repeat constructor|].
    simpl in Hs', Hc. rewrite app_nil_r in Hc.
    destruct (IH (tick s) Hs') as (Ho & Hm & Hcs).
    + unfold tick. destruct (microtasks s) as [|[i m t] mt] eqn:E; [done|].
      simpl in Hn. destruct t; [|destruct (ws_send m _) as [[e|] s1] eqn:Hws];
        unfold ws_send in *; simpl in *; try lia;
        destruct (ws s); simplify_eq/=; try lia;
        destruct closed_send_throws; simplify_eq/=; lia.
    + by rewrite Hcs, Hc.
Qed.

Lemma ticks_failed n : forall s,
  failed s -> length (microtasks s) = n ->
  failed (Nat.iter n tick s) /\ microtasks (Nat.iter n tick s) = [] /\
  calls (Nat.iter n tick s) = calls s.
Proof.
  induction n as [|n IH]; intros s Hs Hn.
  - simpl. split; [done|]. split; [|done]. by destruct (microtasks s).
  - rewrite Nat.iter_succ_r.
    destruct (failed_step s Tick Hs) as [Hs' Hc]; [by repeat constructor|].
    simpl in Hs', Hc. rewrite app_nil_r in Hc.
    destruct (IH (tick s) Hs') as (Ho & Hm & Hcs).
    + unfold tick. destruct (microtasks s) as [|[i m t] mt] eqn:E; [done|].
      simpl in Hn. destruct t; [|destruct (ws_send m _) as [[e|] s1] eqn:Hws];
        unfold ws_send in *; simpl in *; try lia;
        destruct (ws s); simplify_eq/=; try lia;
        destruct closed_send_throws; simplify_eq/=; lia.
    + by rewrite Hcs, Hc.
Qed.

Lemma run_app inputs1 inputs2 : run (inputs1 ++ inputs2) = foldl step (run inputs1) inputs2.
Proof. unfold run. apply foldl_app. Qed.

(** C5.  Calls of [send] made while the socket connects put nothing on
    the wire; once the socket is open, what is on the wire is at every
    moment a start of the messages in the order of the calls, those from
    before the opening first, so no later message overtakes one that
    waited; and when the microtasks have run, all the messages are on the
    wire, in the order of the calls, and every call is resolved. *)
Theorem sends_in_call_order pre post :
  sending pre -> sending post ->
  wire (run pre) = [] /\
  wire (run (pre ++ SocketOpen :: post)) `prefix_of` messages pre ++ messages post /\
  wire (drain (run (pre ++ SocketOpen :: post))) = messages pre ++ messages post /\
  settled (drain (run (pre ++ SocketOpen :: post)))
  = map (fun i => (i, Resolved)) (seq 0 (length (messages pre ++ messages post))).
Proof.
  intros Hpre Hpost.
  destruct (connecting_steps pre _ connecting_new Hpre) as [Hc Hcalls].
  fold (run pre) in Hc, Hcalls. simpl in Hcalls.
  split; [apply Hc|].
  destruct (opened_SocketOpen _ Hc) as [Ho Hcalls'].
  destruct (opened_steps post _ Ho Hpost) as [Ho' Hcalls''].
  rewrite run_app. cbn [foldl].
  set (s := foldl step (step (run pre) SocketOpen) post) in *.
  assert (calls s = messages pre ++ messages post) as Hs
    by (by rewrite Hcalls'', Hcalls', Hcalls).
  split.
  { rewrite <- Hs. destruct Ho' as (_ & _ & _ & _ & <- & _). by apply prefix_app_r. }
  destruct (ticks_opened (length (microtasks s)) s Ho' eq_refl) as (Hd & Hm & Hcs).
  fold (drain s) in Hd, Hm, Hcs.
  destruct Hd as (_ & _ & _ & _ & Hw & _ & Hst).
  rewrite Hm in Hw. simpl in Hw. rewrite app_nil_r in Hw.
  rewrite Hst, Hw, Hcs, Hs. done.
Qed.

(** C6.  When the handshake fails while calls of [send] wait, none is left
    waiting and nothing reaches the wire; when the microtasks have run,
    every call, made before the failure or after it, is rejected with the
    error of the handshake; and a call made after that is rejected by the
    next microtask. *)
Theorem handshake_failure_rejects pre post :
  sending pre -> sending post ->
  waiting (run (pre ++ SocketFail :: post)) = [] /\
  wire (drain (run (pre ++ SocketFail :: post))) = [] /\
  settled (drain (run (pre ++ SocketFail :: post)))
  = map (fun i => (i, Failed HandshakeError))
        (seq 0 (length (messages pre ++ messages post))) /\
  (forall m,
     settled (tick (send m (drain (run (pre ++ SocketFail :: post)))))
     = settled (drain (run (pre ++ SocketFail :: post)))
       ++ [(length (messages pre ++ messages post), Failed HandshakeError)]).
Proof.
  intros Hpre Hpost.
  destruct (connecting_steps pre _ connecting_new Hpre) as [Hc Hcalls].
  fold (run pre) in Hc, Hcalls. simpl in Hcalls.
  destruct (failed_SocketFail _ Hc) as [Hf Hcalls'].
  destruct (failed_steps post _ Hf Hpost) as [Hf' Hcalls''].
  rewrite run_app. cbn [foldl].
  set (s := foldl step (step (run pre) SocketFail) post) in *.
  assert (calls s = messages pre ++ messages post) as Hs
    by (by rewrite Hcalls'', Hcalls', Hcalls).
  split; [apply Hf'|].
  destruct (ticks_failed (length (microtasks s)) s Hf' eq_refl) as (Hd & Hm & Hcs).
  fold (drain s) in Hd, Hm, Hcs. rewrite <- Hs, <- Hcs. clear -Hd Hm.
  destruct (drain s) as [r w c wt mt cs st]. unfold failed in Hd. simpl in *.
  destruct Hd as (-> & -> & -> & -> & _ & _ & Hlen & Hst). subst mt.
  simpl in Hlen. rewrite Nat.add_0_r in Hlen. rewrite <- Hlen.
  split; [done|]. split; [done|]. intros m. unfold tick, send. simpl. by rewrite Hlen.
Qed.

End Host.

Lemma sends_in_call_order_witness :
  wire (run false [Send "a"; Tick; Send "b"]) = [] /\
  wire (run false ([Send "a"; Tick; Send "b"] ++ SocketOpen :: [Tick; Send "c"]))
    `prefix_of` messages [Send "a"; Tick; Send "b"] ++ messages [Tick; Send "c"] /\
  wire (drain false (run false ([Send "a"; Tick; Send "b"] ++ SocketOpen :: [Tick; Send "c"])))
    = messages [Send "a"; Tick; Send "b"] ++ messages [Tick; Send "c"] /\
  settled (drain false (run false ([Send "a"; Tick; Send "b"] ++ SocketOpen :: [Tick; Send "c"])))
  = map (fun i => (i, Resolved))
        (seq 0 (length (messages [Send "a"; Tick; Send "b"] ++ messages [Tick; Send "c"]))).
Proof.
  apply (sends_in_call_order false [Send "a"; Tick; Send "b"] [Tick; Send "c"]);
    repeat constructor.
Defined.

(** ["a"] and ["b"] waited for the socket to open, ["c"] came after. *)
Example demo_wire :
  wire (drain false (run false [Send "a"; Tick; Send "b"; SocketOpen; Tick; Send "c"]))
  = ["a"; "b"; "c"]%string.
Proof. reflexivity. Qed.

Lemma handshake_failure_rejects_witness :
  waiting (run true ([Send "a"; Send "b"] ++ SocketFail :: [Tick; Send "c"])) = [] /\
  wire (drain true (run true ([Send "a"; Send "b"] ++ SocketFail :: [Tick; Send "c"]))) = [] /\
  settled (drain true (run true ([Send "a"; Send "b"] ++ SocketFail :: [Tick; Send "c"])))
  = map (fun i => (i, Failed HandshakeError))
        (seq 0 (length (messages [Send "a"; Send "b"] ++ messages [Tick; Send "c"]))) /\
  (forall m,
     settled (tick true (send m (drain true
                (run true ([Send "a"; Send "b"] ++ SocketFail :: [Tick; Send "c"])))))
     = settled (drain true (run true ([Send "a"; Send "b"] ++ SocketFail :: [Tick; Send "c"])))
       ++ [(length (messages [Send "a"; Send "b"] ++ messages [Tick; Send "c"]),
            Failed HandshakeError)]).
Proof.
  apply (handshake_failure_rejects true [Send "a"; Send "b"] [Tick; Send "c"]);
    repeat constructor.
Defined.

(** After the socket was open, what a call of [send] on the closed socket
    gives is what the socket's own [send] does: in a browser the message
    is dropped and the call is resolved. *)
Example send_after_close :
  settled (drain false (run false [SocketOpen; SocketClose; Send "late"]))
  = [(0%nat, Resolved)] /\
  settled (drain true (run true [SocketOpen; SocketClose; Send "late"]))
  = [(0%nat, Failed NotOpenError)].
Proof. split; reflexivity. Qed.

End Transport.

(** ** The URL match predicate: [urlMatches], lines 221-236 *)

Module UrlMatch.

(** A regular expression, as far as [urlMatches] uses one: what [test]
    answers on a string (no [g] or [y] flag, so no state). *)
Record RegExp := { test : string -> bool }.

(** What [new URL(urlString)] gives. *)
Record URL := {
  protocol : string;
  host : string;
  pathname : string;
  search : string;
  hash : string
}.

(** [types.URLMatch]: a string, a regular expression or a predicate. *)
Inductive URLMatch :=
| MString (s : string)
| MRegExp (r : RegExp)
| MFunction (f : URL -> bool).

Inductive exn :=
| TypeError          (* [new URL] on a string that is no URL *)
| AssertionError.    (* line 234 *)

Inductive result (A : Type) :=
| Ok (a : A)
| Throws (e : exn).
Arguments Ok {A} a.
Arguments Throws {A} e.

Section Helpers.

(** [helper.isString] and [helper.globToRegex] are defined in [./helper],
    and [URL] by the host: they are parameters of [urlMatches]. *)
Variable isString : URLMatch -> bool.
Variable globToRegex : string -> RegExp.
Variable new_URL : string -> option URL.

(** Lines 221-236; [None] is [undefined]. *)
Definition urlMatches (urlString : string) (match_ : option URLMatch) : result bool :=
  match match_ with
  | None => Ok true
  | Some (MString "") => Ok true
  | Some match_ =>
      let match_ :=
        if isString match_
        then match match_ with
             | MString s => MRegExp (globToRegex s)
             | _ => match_
             end
        else match_ in
      match match_ with
      | MRegExp r => Ok (test r urlString)
      | _ =>
          let same :=
            match match_ with
            | MString s => bool_decide (s = urlString)
            | _ => false
            end in
          if same then Ok true else
          match new_URL urlString with
          | None => Throws TypeError
          | Some url =>
              match match_ with
              | MString s => Ok (bool_decide (pathname url = s))
              | MFunction f => Ok (f url)
              | MRegExp _ => Throws AssertionError
              end
          end
      end
  end.

(** No pattern, or the empty one, matches every URL. *)
Lemma urlMatches_absent u :
  urlMatches u None = Ok true /\ urlMatches u (Some (MString "")) = Ok true.
Proof. done. Qed.

(** A string that [helper.isString] accepts is matched as a regular
    expression, whatever it is: line 227 returns, and the comparisons of
    lines 228-232 are not reached. *)
Lemma urlMatches_string u p :
  isString (MString p) = true -> p <> ""%string ->
  urlMatches u (Some (MString p)) = Ok (test (globToRegex p) u).
Proof.
  intros His Hp. unfold urlMatches. destruct p as [|c p]; [done|]. by rewrite His.
Qed.

(** C8, on the code.  [helper.isString] is true of a string, and the
    regular expression of a glob without metacharacters matches that text
    alone: then [urlMatches("http://host/path", "/path")] is false,
    whatever the path of the URL, like
    [urlMatches("http://host/path", "/other")]; a text pattern matches
    when it is the whole URL, and there is no fallback to the path. *)
Theorem urlMatches_plain_text :
  (forall s, isString (MString s) = true) ->
  (forall u, test (globToRegex "/path") u = bool_decide (u = "/path"%string)) ->
  (forall u, test (globToRegex "/other") u = bool_decide (u = "/other"%string)) ->
  (forall u, urlMatches u None = Ok true /\ urlMatches u (Some (MString "")) = Ok true) /\
  urlMatches "http://host/path" (Some (MString "/path")) = Ok false /\
  urlMatches "http://host/path" (Some (MString "/other")) = Ok false /\
  urlMatches "/path" (Some (MString "/path")) = Ok true.
Proof.
  intros His Hpath Hother. split; [apply urlMatches_absent|].
  rewrite !urlMatches_string by done. rewrite !Hpath, Hother. done.
Qed.

End Helpers.

(** [helper.isString], by its name and its use before [globToRegex]: true
    of a string, false of a regular expression and of a function. *)
Definition typeof_string (m : URLMatch) : bool :=
  match m with
  | MString _ => true
  | _ => false
  end.

(** Modelled from the spec: [helper.globToRegex] is not among the sources;
    a glob-style pattern is "converted to an equivalent regular expression
    and tested against the full URL string", and a glob without
    metacharacters, the only kind used below, is equivalent to the
    expression that matches its text and nothing else. *)
Definition plain_glob (glob : string) : RegExp :=
  {| test := fun u => bool_decide (u = glob) |}.

(** [new URL] on the URLs used below. *)
Definition demo_URL (u : string) : option URL :=
  if bool_decide (u = "http://host/path"%string)
  then Some {| protocol := "http:"; host := "host"; pathname := "/path";
               search := ""; hash := "" |}
  else None.

Lemma urlMatches_plain_text_witness :
  (forall u, urlMatches typeof_string plain_glob demo_URL u None = Ok true /\
             urlMatches typeof_string plain_glob demo_URL u (Some (MString "")) = Ok true) /\
  urlMatches typeof_string plain_glob demo_URL "http://host/path" (Some (MString "/path"))
    = Ok false /\
  urlMatches typeof_string plain_glob demo_URL "http://host/path" (Some (MString "/other"))
    = Ok false /\
  urlMatches typeof_string plain_glob demo_URL "/path" (Some (MString "/path")) = Ok true.
Proof.
  apply (urlMatches_plain_text typeof_string plain_glob demo_URL); reflexivity.
Defined.

(** The comparisons of lines 228-232 would give the path fallback, were
    they reached: with a [helper.isString] that is never true they are. *)
Example path_fallback_unreached :
  urlMatches (fun _ => false) plain_glob demo_URL "http://host/path" (Some (MString "/path"))
    = Ok true /\
  urlMatches (fun _ => false) plain_glob demo_URL "http://host/path" (Some (MString "/other"))
    = Ok false.
Proof. split; reflexivity. Qed.

End UrlMatch.

(** ** More on the dispatcher: what the registry and the queue keep *)

Module DispatcherLaws.

Import Dispatcher.

Section Registry.

Context {U : Type}.
Variable code : nat -> Args -> prog U.

(** No set of the registry holds a listener twice. *)
Definition registry_ok (s : @state U) : Prop :=
  forall ev set, _listeners s !! ev = Some set -> NoDup set.

Lemma set_add_NoDup l set : NoDup set -> NoDup (set_add l set).
Proof.
  intros Hset. unfold set_add. case_decide; [done|].
  apply NoDup_app. repeat split; [done| |apply NoDup_singleton].
  intros x Hx Hx'. apply list_elem_of_singleton in Hx'. by subst.
Qed.

Lemma set_delete_NoDup l set : NoDup set -> NoDup (set_delete l set).
Proof. apply NoDup_filter. Qed.

Lemma set_add_again l set : set_add l (set_add l set) = set_add l set.
Proof.
  unfold set_add at 2 3. case_decide as Hl.
  - unfold set_add. by rewrite decide_True.
  - unfold set_add. rewrite decide_True; [done|]. apply elem_of_app. right. by left.
Qed.

Lemma registry_ok_on ev l s : registry_ok s -> registry_ok (on ev l s).
Proof.
  intros Hs ev' set'. unfold on. simpl.
  destruct (decide (ev = ev')) as [<-|Hne].
  - rewrite lookup_insert_eq. intros [= <-]. apply set_add_NoDup.
    destruct (_listeners s !! ev) as [set|] eqn:E; simpl; [by eapply Hs|constructor].
  - rewrite lookup_insert_ne by done. apply Hs.
Qed.

Lemma registry_ok_once ev l s : registry_ok s -> registry_ok (once ev l s).
Proof. intros Hs. unfold once, addListener. apply registry_ok_on. exact Hs. Qed.

Lemma registry_ok_removeListener ev l s :
  registry_ok s -> registry_ok (removeListener ev l s).
Proof.
  intros Hs ev' set'. unfold removeListener.
  destruct (_listeners s !! ev) as [set|] eqn:E; [|apply Hs]. simpl.
  destruct (decide (ev = ev')) as [<-|Hne].
  - rewrite lookup_insert_eq. intros [= <-]. apply set_delete_NoDup. by eapply Hs.
  - rewrite lookup_insert_ne by done. apply Hs.
Qed.

Lemma push_all_registry set a (s : @state U) :
  _listeners (push_all set a s) = _listeners s.
Proof.
  revert s. induction set as [|l set IH]; intros s; [done|].
  change (push_all (l :: set) a s) with (push_all set a (push l a s)).
  by rewrite IH.
Qed.

(** Whatever the listeners do, a run keeps the registry without
    repetition. *)
Lemma runs_keep_registry_ok fuel :
  (forall ev a s st s', registry_ok s -> emit code fuel ev a s = (st, s') -> registry_ok s') /\
  (forall index s st s', registry_ok s -> drain code fuel index s = (st, s') -> registry_ok s') /\
  (forall l a s st s', registry_ok s -> call code fuel l a s = (st, s') -> registry_ok s') /\
  (forall p s st s', registry_ok s -> run code fuel p s = (st, s') -> registry_ok s').
Proof.
  induction fuel as [|n (IHemit & IHdrain & IHcall & IHrun)].
  { repeat split; intros; simplify_eq/=; done. }
  split; [|split; [|split]].
  - intros ev a s st s' Hs H. simpl in H.
    destruct (_listeners s !! ev) as [set|]; [|by simplify_eq].
    destruct (decide (length set = 0%nat)); [by simplify_eq|].
    destruct (negb (bool_decide (_deliveryQueue s = None))).
    { simplify_eq. intros ev' set'. rewrite push_all_registry.
      destruct (bool_decide (_deliveryQueue s = None)); apply Hs. }
    destruct (drain code n 0 _) as [st1 s1] eqn:Hd.
    assert (registry_ok s1) as Hs1.
    { eapply IHdrain; [|exact Hd]. intros ev' set'. simpl. rewrite push_all_registry.
      destruct (bool_decide (_deliveryQueue s = None)); apply Hs. }
    destruct st1; simplify_eq; done.
  - intros index s st s' Hs H. simpl in H.
    destruct (_deliveryQueue s) as [q|]; [|by simplify_eq].
    destruct (q !! index) as [[l a]|]; [|by simplify_eq].
    destruct (call code n l a _) as [st1 s1] eqn:Hc.
    assert (registry_ok s1) as Hs1 by (eapply IHcall; [|exact Hc]; exact Hs).
    destruct st1; simplify_eq; try done. by eapply IHdrain.
  - intros l a s st s' Hs H. simpl in H. destruct l as [f|c ev l].
    + eapply IHrun; [|exact H]. exact Hs.
    + eapply IHcall; [|exact H]. by apply registry_ok_removeListener.
  - intros p s st s' Hs H. simpl in H.
    destruct p as [| |ev f k|ev f k|ev f k|ev a k|ev k|k|u k]; simplify_eq; try done.
    + eapply IHrun; [|exact H]. by apply registry_ok_on.
    + eapply IHrun; [|exact H]. by apply registry_ok_once.
    + eapply IHrun; [|exact H]. by apply registry_ok_removeListener.
    + destruct (emit code n ev a s) as [st1 s1] eqn:He.
      assert (registry_ok s1) as Hs1 by (by eapply IHemit).
      destruct st1; simplify_eq; try done. by eapply IHrun.
    + by eapply IHrun.
    + by eapply IHrun.
    + eapply IHrun; [|exact H]. exact Hs.
Qed.

(** X1.  A listener is registered at most once for an event: registering
    it again changes nothing, and in every state that a new dispatcher
    reaches, whatever its user and the listeners do (registrations,
    removals and emissions, nested ones included), no set of the registry
    holds a listener twice. *)
Theorem registry_holds_listener_once :
  (forall ev l (s : @state U), on ev l (on ev l s) = on ev l s) /\
  (forall fuel p u, registry_ok (snd (run code fuel p (new_EventEmitterImpl u)))).
Proof.
  split.
  - intros ev l [m q c u t]. unfold on. simpl.
    rewrite lookup_insert_eq, insert_insert_eq. simpl. by rewrite set_add_again.
  - intros fuel p u.
    destruct (run code fuel p (new_EventEmitterImpl u)) as [st s'] eqn:H.
    destruct (runs_keep_registry_ok fuel) as (_ & _ & _ & Hrun).
    eapply Hrun; [|exact H].
    intros ev set. unfold new_EventEmitterImpl. simpl. by rewrite lookup_empty.
Qed.

(** X22.  Registering a listener that was not registered and removing it
    again leaves the listeners of the event as they were, in the same
    order; the count goes up by one and comes back; and the listeners of
    the other events are not touched. *)
Theorem on_then_removeListener ev l (s : @state U) :
  l ∉ default [] (_listeners s !! ev) ->
  default [] (_listeners (removeListener ev l (on ev l s)) !! ev)
    = default [] (_listeners s !! ev) /\
  listenerCount ev (on ev l s) = S (listenerCount ev s) /\
  listenerCount ev (removeListener ev l (on ev l s)) = listenerCount ev s /\
  (forall ev', ev' <> ev ->
     _listeners (removeListener ev l (on ev l s)) !! ev' = _listeners s !! ev').
Proof.
  intros Hl. destruct s as [m q c u t]. simpl in Hl.
  assert (Hon : on ev l (State m q c u t)
                = State (<[ev := default [] (m !! ev) ++ [l]]> m) q c u t).
  { unfold on, set_add. simpl. by rewrite decide_False. }
  assert (Hdel : set_delete l (default [] (m !! ev) ++ [l]) = default [] (m !! ev)).
  { unfold set_delete. rewrite filter_app, filter_cons_False by (intros Hne; by apply Hne).
    rewrite filter_nil, app_nil_r. by apply (set_delete_absent l). }
  assert (Hcount : listenerCount ev (State m q c u t) = length (default [] (m !! ev))).
  { unfold listenerCount. simpl. by destruct (m !! ev). }
  rewrite Hon, removeListener_present, Hdel, Hcount.
  unfold listenerCount. simpl. rewrite !lookup_insert_eq. simpl.
  split; [done|]. split; [rewrite length_app; simpl; lia|]. split; [done|].
  intros ev' Hne. by rewrite lookup_insert_ne.
Qed.

End Registry.

Section Emissions.

Context {U : Type}.
Variable code : nat -> Args -> prog U.

(** An emission that finds a queue calls no function, and leaves a
    queue. *)
Lemma emit_on_queue fuel ev a (s : @state U) st s' q :
  _deliveryQueue s = Some q ->
  emit code fuel ev a s = (st, s') ->
  exists t,
    trace s' = trace s ++ t /\ invoked_of t = [] /\ called_of t = [] /\
    _deliveryQueue s' <> None.
Proof.
  intros Hq H.
  assert (Hsame : (st, s') = (st, s) -> exists t,
    trace s' = trace s ++ t /\ invoked_of t = [] /\ called_of t = [] /\
    _deliveryQueue s' <> None).
  { intros [= ->]. exists []. rewrite app_nil_r, Hq. by repeat split. }
  destruct fuel as [|n]; simpl in H; [simplify_eq; by apply Hsame|].
  destruct (_listeners s !! ev) as [set|]; [|simplify_eq; by apply Hsame].
  destruct (decide (length set = 0%nat)); [simplify_eq; by apply Hsame|].
  rewrite Hq in H. rewrite bool_decide_eq_false_2 in H by done. simpl in H.
  simplify_eq. exists (map (fun l => Queued l a) set).
  rewrite push_all_trace, invoked_of_pushed, called_of_pushed.
  rewrite (push_all_queue set a s q Hq). by repeat split.
Qed.

(** X2.  The drain loop does not catch what a listener throws, and the
    queue is unset after the loop only.  So when a listener throws, the
    queue stays; from then on every emission on that dispatcher finds it,
    appends to it and returns: no listener is invoked any more, and the
    queue is never unset. *)
Theorem throw_leaves_queue_forever fuel ev a (s : @state U) s' fuel' ev' a' st'' s'' :
  _deliveryQueue s = None ->
  emit code fuel ev a s = (Threw, s') ->
  emit code fuel' ev' a' s' = (st'', s'') ->
  _deliveryQueue s' <> None /\
  exists t,
    trace s'' = trace s' ++ t /\ invoked_of t = [] /\ called_of t = [] /\
    _deliveryQueue s'' <> None.
Proof.
  intros Hq H H'.
  assert (exists q', _deliveryQueue s' = Some q') as [q' Hq'].
  { destruct fuel as [|n]; simpl in H; [done|].
    destruct (_listeners s !! ev) as [set|]; [|done].
    destruct (decide (length set = 0%nat)); [done|].
    rewrite Hq in H. rewrite bool_decide_eq_true_2 in H by done. simpl in H.
    destruct (drain code n 0 _) as [st2 s2] eqn:Hd.
    eapply (drain_fifo code n 0 _ st2 s2 (map (fun l => (l, a)) set)) in Hd
      as (t & j & _ & Hq2 & _); [| |simpl; lia].
    - destruct st2; simplify_eq. eauto.
    - simpl. by rewrite (push_all_queue set a _ []). }
  split; [by rewrite Hq'|]. by eapply emit_on_queue.
Qed.

End Emissions.

Section Scenarios.

Context {U : Type}.
Variable code : nat -> Args -> prog U.

Lemma run_CallOn n ev f k (s : @state U) :
  run code (S n) (CallOn ev f k) s = run code n k (on ev (Fn f) s).
Proof. done. Qed.

Lemma run_CallRemoveListener n ev f k (s : @state U) :
  run code (S n) (CallRemoveListener ev f k) s = run code n k (removeListener ev (Fn f) s).
Proof. done. Qed.

#[local] Arguments emit : simpl never.
#[local] Arguments drain : simpl never.
#[local] Arguments call : simpl never.
#[local] Arguments run : simpl never.

(** What the drain loop shows when it delivers to the functions [fs],
    each of which only returns. *)
Definition deliveries (a : Args) (fs : list nat) : list obs :=
  flat_map (fun f => [Invoked (Fn f) a; Called f a]) fs.

Lemma called_of_deliveries a fs : called_of (deliveries a fs) = map (fun f => (f, a)) fs.
Proof. induction fs as [|f fs IH]; [done|]. simpl. by rewrite <- IH. Qed.

Lemma invoked_of_deliveries a fs :
  invoked_of (deliveries a fs) = map (fun f => (Fn f, a)) fs.
Proof. induction fs as [|f fs IH]; [done|]. simpl. by rewrite <- IH. Qed.

Lemma drain_plain a fs : forall index (s : @state U) fuel q,
  _deliveryQueue s = Some q ->
  drop index q = map (fun f => (Fn f, a)) fs ->
  Forall (fun f => code f a = Return) fs ->
  (length fs + 3 <= fuel)%nat ->
  drain code fuel index s
  = (Returned, State (_listeners s) (Some q) (closures s) (user s)
                     (trace s ++ deliveries a fs)).
Proof.
  induction fs as [|f fs IH]; intros index s fuel q Hq Hdrop Hfs Hfuel.
  - destruct fuel as [|n]; [simpl in Hfuel; lia|].
    rewrite (drain_end code n index s q Hq).
    + destruct s. simpl in *. subst. by rewrite app_nil_r.
    + rewrite <- (Nat.add_0_r index), <- lookup_drop. by rewrite Hdrop.
  - apply Forall_cons in Hfs as [Hf Hfs]. simpl in Hfuel.
    do 3 (destruct fuel as [|fuel]; [lia|]).
    rewrite (drain_next code _ index s q (Fn f) a Hq).
    2:{ rewrite <- (Nat.add_0_r index), <- lookup_drop. by rewrite Hdrop. }
    rewrite call_Fn, Hf, run_Return.
    rewrite (IH (S index) _ (S (S fuel)) q).
    + destruct s. unfold observe, deliveries. simpl. by rewrite <- !app_assoc.
    + by destruct s.
    + replace (S index) with (index + 1)%nat by lia.
      rewrite <- drop_drop, Hdrop. done.
    + done.
    + lia.
Qed.

(** X3.  On a dispatcher that is not delivering, [emit] calls the
    listeners registered for the event once each, in the order of their
    registration and with the arguments of the [emit], provided that they
    return without touching the dispatcher; the registry is as before and
    the queue is unset again. *)
Theorem emit_calls_in_registration_order fuel ev a (s : @state U) fs :
  _deliveryQueue s = None ->
  _listeners s !! ev = Some (map Fn fs) ->
  Forall (fun f => code f a = Return) fs ->
  (length fs + 4 <= fuel)%nat ->
  exists t,
    emit code fuel ev a s
    = (Returned, State (_listeners s) None (closures s) (user s) (trace s ++ t)) /\
    called_of t = map (fun f => (f, a)) fs /\
    invoked_of t = map (fun f => (Fn f, a)) fs.
Proof.
  intros Hq Hset Hfs Hfuel.
  destruct fuel as [|fuel]; [lia|].
  destruct fs as [|f fs].
  - exists []. rewrite emit_no_listener by (by right).
    destruct s. simpl in *. subst. by rewrite app_nil_r.
  - rewrite (emit_owner code fuel ev a s _ Hset) by done.
    set (set := map Fn (f :: fs)).
    rewrite (drain_plain a (f :: fs) 0 _ fuel (map (fun l => (l, a)) set)).
    + exists (map (fun l => Queued l a) set ++ [DrainBegin] ++ deliveries a (f :: fs)
              ++ [DrainEnd]).
      split.
      * rewrite push_all_state. unfold observe, set_queue. simpl.
        by rewrite <- !app_assoc.
      * rewrite !called_of_app, !invoked_of_app, called_of_pushed, invoked_of_pushed.
        rewrite called_of_deliveries, invoked_of_deliveries. simpl.
        by rewrite !app_nil_r.
    + by rewrite push_all_state.
    + unfold set. simpl. by rewrite map_map.
    + done.
    + simpl in *. lia.
Qed.

(** X4.  An emission delivers to the listeners that were registered when
    it started: [f1] removes [f2] and registers [f3] while it runs, and
    the emission still calls [f2] and does not call [f3]; the next one
    calls [f1] and [f3]. *)
Theorem emission_delivers_to_snapshot x f1 f2 f3 a u fuel :
  f1 <> f2 -> f1 <> f3 -> f2 <> f3 ->
  code f1 a = CallRemoveListener x f2 (CallOn x f3 Return) ->
  code f2 a = Return -> code f3 a = Return ->
  (7 <= fuel)%nat ->
  exists s1 s2,
    emit code fuel x a (on x (Fn f2) (on x (Fn f1) (new_EventEmitterImpl u)))
      = (Returned, s1) /\
    called_of (trace s1) = [(f1, a); (f2, a)] /\
    _listeners s1 !! x = Some [Fn f1; Fn f3] /\
    emit code fuel x a s1 = (Returned, s2) /\
    called_of (drop (length (trace s1)) (trace s2)) = [(f1, a); (f3, a)] /\
    _listeners s2 !! x = Some [Fn f1; Fn f3].
Proof.
  intros H12 H13 H23 Hf1 Hf2 Hf3 Hfuel.
  do 7 (destruct fuel as [|fuel]; [lia|]). clear Hfuel.
  assert (Hadd2 : set_add (Fn f2) [Fn f1] = [Fn f1; Fn f2]).
  { unfold set_add. case_decide as Hin; [|done].
    apply list_elem_of_singleton in Hin. congruence. }
  assert (Hadd3 : set_add (Fn f3) [Fn f1] = [Fn f1; Fn f3]).
  { unfold set_add. case_decide as Hin; [|done].
    apply list_elem_of_singleton in Hin. congruence. }
  assert (Hadd3' : set_add (Fn f3) [Fn f1; Fn f3] = [Fn f1; Fn f3]).
  { unfold set_add. case_decide as Hin; [done|].
    destruct Hin. apply elem_of_cons. right. by left. }
  assert (Hdel : set_delete (Fn f2) [Fn f1; Fn f2] = [Fn f1]).
  { unfold set_delete. rewrite filter_cons_True by congruence.
    by rewrite filter_cons_False by (intros Hne; by apply Hne). }
  assert (Hdel' : set_delete (Fn f2) [Fn f1; Fn f3] = [Fn f1; Fn f3]).
  { unfold set_delete. rewrite filter_cons_True by congruence.
    by rewrite filter_cons_True by congruence. }
  unfold new_EventEmitterImpl.
  rewrite on_absent by apply lookup_empty. rewrite on_present, Hadd2.
  erewrite emit_owner; [|apply lookup_insert_eq|done|done].
  unfold push_all, push, observe, set_queue. simpl.
  erewrite drain_next; [|done|done].
  unfold observe. simpl.
  rewrite call_Fn, Hf1, run_CallRemoveListener.
  unfold observe; cbn [_listeners _deliveryQueue closures user trace app].
  rewrite removeListener_present, Hdel, run_CallOn, on_present, Hadd3, run_Return.
  erewrite drain_next; [|done|done].
  rewrite call_Fn, Hf2, run_Return.
  unfold observe. simpl.
  eexists. eexists. split; [done|]. simpl.
  split; [done|]. split; [apply lookup_insert_eq|].
  erewrite emit_owner; [|apply lookup_insert_eq|done|done].
  unfold push_all, push, observe, set_queue. simpl.
  erewrite drain_next; [|done|done].
  unfold observe. simpl.
  rewrite call_Fn, Hf1, run_CallRemoveListener.
  unfold observe; cbn [_listeners _deliveryQueue closures user trace app].
  rewrite removeListener_present, Hdel', run_CallOn, on_present, Hadd3', run_Return.
  erewrite drain_next; [|done|done].
  rewrite call_Fn, Hf3, run_Return.
  unfold observe. simpl.
  split; [done|]. simpl. split; [done|]. apply lookup_insert_eq.
Qed.

(** X5.  [once] makes a new closure at every call, and the set compares
    closures: [once(event, f)] twice registers two listeners, one [emit]
    runs [f] twice and leaves none of them registered, while [on(event, f)]
    twice registers [f] once. *)
Theorem once_twice_calls_twice ev f a u fuel :
  code f a = Return ->
  (6 <= fuel)%nat ->
  listenerCount ev (once ev (Fn f) (once ev (Fn f) (new_EventEmitterImpl u))) = 2%nat /\
  listenerCount ev (on ev (Fn f) (on ev (Fn f) (new_EventEmitterImpl u))) = 1%nat /\
  exists s',
    emit code fuel ev a (once ev (Fn f) (once ev (Fn f) (new_EventEmitterImpl u)))
      = (Returned, s') /\
    called_of (trace s') = [(f, a); (f, a)] /\
    listenerCount ev s' = 0%nat.
Proof.
  intros Hf Hfuel.
  assert (Hreg : once ev (Fn f) (once ev (Fn f) (new_EventEmitterImpl u))
                 = State (<[ev:=[Wrapped 0 ev (Fn f); Wrapped 1 ev (Fn f)]]> ∅) None 2 u []).
  { unfold once, addListener, new_EventEmitterImpl. simpl.
    rewrite lookup_empty. simpl. rewrite on_present.
    assert (Hfirst : set_add (Wrapped 0 ev (Fn f)) [] = [Wrapped 0 ev (Fn f)]).
    { unfold set_add. case_decide as Hin; [by apply elem_of_nil in Hin|done]. }
    rewrite Hfirst. unfold set_add. case_decide as Hin; [|done].
    apply list_elem_of_singleton in Hin. congruence. }
  split; [|split].
  - rewrite Hreg. unfold listenerCount. simpl. by rewrite lookup_insert_eq.
  - unfold new_EventEmitterImpl. rewrite on_absent by apply lookup_empty.
    rewrite on_present. unfold listenerCount. simpl. rewrite lookup_insert_eq.
    unfold set_add. case_decide as Hin; [done|]. destruct Hin. by left.
  - rewrite Hreg. clear Hreg.
    do 6 (destruct fuel as [|fuel]; [lia|]). clear Hfuel.
    erewrite emit_owner; [|apply lookup_insert_eq|done|done].
    unfold push_all, push, observe, set_queue. simpl.
    erewrite drain_next; [|done|done].
    unfold observe. simpl.
    rewrite call_Wrapped, removeListener_present.
    rewrite set_delete_head
      by (apply not_elem_of_cons; split; [done|apply not_elem_of_nil]).
    rewrite call_Fn, Hf, run_Return.
    unfold observe. simpl.
    erewrite drain_next; [|done|done].
    rewrite call_Wrapped. unfold observe. simpl.
    rewrite removeListener_present.
    rewrite set_delete_head by apply not_elem_of_nil.
    rewrite call_Fn, Hf, run_Return.
    unfold observe. simpl.
      eexists. split; [done|]. simpl. split; [done|].
    unfold listenerCount. simpl. by rewrite lookup_insert_eq.
Qed.

End Scenarios.

(** Function 1 throws; on a dispatcher that holds it and function 2 for
    ["x"], the first emission ends with its exception, and the second
    calls nobody. *)
Definition thrower (f : nat) (a : Args) : prog unit :=
  match f with
  | 1%nat => Throw
  | _ => Return
  end.

Definition thrower_emitter : @state unit :=
  on (EvString "x") (Fn 2) (on (EvString "x") (Fn 1) (new_EventEmitterImpl tt)).

Lemma throw_leaves_queue_forever_witness :
  _deliveryQueue (snd (emit thrower 10 (EvString "x") [] thrower_emitter)) <> None /\
  exists t,
    trace (snd (emit thrower 10 (EvString "x") []
                  (snd (emit thrower 10 (EvString "x") [] thrower_emitter))))
    = trace (snd (emit thrower 10 (EvString "x") [] thrower_emitter)) ++ t /\
    invoked_of t = [] /\ called_of t = [] /\
    _deliveryQueue (snd (emit thrower 10 (EvString "x") []
                           (snd (emit thrower 10 (EvString "x") [] thrower_emitter))))
    <> None.
Proof.
  apply (throw_leaves_queue_forever thrower 10 (EvString "x") [] thrower_emitter
           (snd (emit thrower 10 (EvString "x") [] thrower_emitter))
           10 (EvString "x") []
           Returned
           (snd (emit thrower 10 (EvString "x") []
                   (snd (emit thrower 10 (EvString "x") [] thrower_emitter)))));
    vm_compute; reflexivity.
Defined.

(** Functions that only return, on a dispatcher that holds two of them
    for ["x"]. *)
Definition quiet (f : nat) (a : Args) : prog unit := Return.

Definition quiet_emitter : @state unit :=
  on (EvString "x") (Fn 2) (on (EvString "x") (Fn 1) (new_EventEmitterImpl tt)).

Lemma emit_calls_in_registration_order_witness :
  exists t,
    emit quiet 6 (EvString "x") [VString "m"] quiet_emitter
    = (Returned, State (_listeners quiet_emitter) None (closures quiet_emitter)
                       (user quiet_emitter) (trace quiet_emitter ++ t)) /\
    called_of t = map (fun f => (f, [VString "m"])) [1; 2]%nat /\
    invoked_of t = map (fun f => (Fn f, [VString "m"])) [1; 2]%nat.
Proof.
  apply (emit_calls_in_registration_order quiet 6 (EvString "x") [VString "m"]
           quiet_emitter [1; 2]%nat).
  - reflexivity.
  - vm_compute. reflexivity.
  - repeat constructor.
  - simpl. lia.
Defined.

(** Function 1 removes function 2 and registers function 3. *)
Definition rewirer (f : nat) (a : Args) : prog unit :=
  match f with
  | 1%nat => CallRemoveListener (EvString "x") 2 (CallOn (EvString "x") 3 Return)
  | _ => Return
  end.

Lemma emission_delivers_to_snapshot_witness :
  exists s1 s2,
    emit rewirer 7 (EvString "x") []
      (on (EvString "x") (Fn 2) (on (EvString "x") (Fn 1) (new_EventEmitterImpl tt)))
      = (Returned, s1) /\
    called_of (trace s1) = [(1%nat, []); (2%nat, [])] /\
    _listeners s1 !! EvString "x" = Some [Fn 1; Fn 3] /\
    emit rewirer 7 (EvString "x") [] s1 = (Returned, s2) /\
    called_of (drop (length (trace s1)) (trace s2)) = [(1%nat, []); (3%nat, [])] /\
    _listeners s2 !! EvString "x" = Some [Fn 1; Fn 3].
Proof.
  apply (emission_delivers_to_snapshot rewirer (EvString "x") 1 2 3 [] tt 7);
    first [reflexivity | lia].
Defined.

Lemma once_twice_calls_twice_witness :
  listenerCount (EvString "x")
    (once (EvString "x") (Fn 1) (once (EvString "x") (Fn 1) (new_EventEmitterImpl tt)))
    = 2%nat /\
  listenerCount (EvString "x")
    (on (EvString "x") (Fn 1) (on (EvString "x") (Fn 1) (new_EventEmitterImpl tt)))
    = 1%nat /\
  exists s',
    emit quiet 6 (EvString "x") []
      (once (EvString "x") (Fn 1) (once (EvString "x") (Fn 1) (new_EventEmitterImpl tt)))
      = (Returned, s') /\
    called_of (trace s') = [(1%nat, []); (1%nat, [])] /\
    listenerCount (EvString "x") s' = 0%nat.
Proof.
  apply (once_twice_calls_twice quiet (EvString "x") 1 [] tt 6); [reflexivity | lia].
Defined.

Lemma on_then_removeListener_witness :
  default [] (_listeners (removeListener (EvString "x") (Fn 3)
                            (on (EvString "x") (Fn 3) quiet_emitter)) !! EvString "x")
    = default [] (_listeners quiet_emitter !! EvString "x") /\
  listenerCount (EvString "x") (on (EvString "x") (Fn 3) quiet_emitter)
    = S (listenerCount (EvString "x") quiet_emitter) /\
  listenerCount (EvString "x")
    (removeListener (EvString "x") (Fn 3) (on (EvString "x") (Fn 3) quiet_emitter))
    = listenerCount (EvString "x") quiet_emitter /\
  (forall ev', ev' <> EvString "x" ->
     _listeners (removeListener (EvString "x") (Fn 3)
                   (on (EvString "x") (Fn 3) quiet_emitter)) !! ev'
     = _listeners quiet_emitter !! ev').
Proof.
  apply (on_then_removeListener (EvString "x") (Fn 3) quiet_emitter).
  vm_compute. intros Hin.
  repeat (apply elem_of_cons in Hin as [Hin|Hin]; [discriminate|]).
  by apply elem_of_nil in Hin.
Defined.

End DispatcherLaws.

(** ** More on the scheduler: the two variants, and the idle loop *)
Module SchedulerLaws.
Import Scheduler.

Section Variants.

Variable body : nat -> list nat * bool.

(** What the callback that has waited longest submits when it runs. *)
Definition next_submits (s : state) : list nat :=
  match pending s with
  | callback :: _ => fst (body callback)
  | [] => []
  end.

Lemma waitForNextTask_submitted k c s :
  submitted_of (trace (waitForNextTask k c s)) = submitted_of (trace s) ++ [c].
Proof.
  destruct s as [sp cbs imm tr]. unfold waitForNextTask, observe, setImmediate.
  destruct k; [|destruct sp]; simpl; rewrite ?submitted_after; simpl;
    by rewrite ?app_nil_r.
Qed.

Lemma submits_submitted k cs : forall s,
  submitted_of (trace (foldl (fun s c => waitForNextTask k c s) s cs))
  = submitted_of (trace s) ++ cs.
Proof.
  induction cs as [|c cs IH]; intros s; simpl; [by rewrite app_nil_r|].
  by rewrite IH, waitForNextTask_submitted, <- app_assoc.
Qed.

Lemma invoke_submitted k callback s :
  submitted_of (trace (snd (invoke body k callback s)))
  = submitted_of (trace s) ++ fst (body callback).
Proof.
  unfold invoke.
  destruct (snd (body callback)); simpl;
    rewrite ?submitted_after, submits_submitted; simpl;
    rewrite ?submitted_after; simpl; by rewrite ?app_nil_r.
Qed.

Lemma turn_submitted k s :
  ready k s ->
  submitted_of (trace (turn body k s)) = submitted_of (trace s) ++ next_submits s.
Proof.
  destruct s as [sp cbs imm tr]. intros [Hacc Hshape].
  unfold turn, next_submits, pending in *. simpl in *. destruct k.
  - destruct Hshape as [-> Himm]. simpl.
    destruct imm as [|t rest]; [by rewrite app_nil_r|].
    apply Forall_cons in Himm as [Ht _]. destruct t as [|callback]; [done|].
    simpl. by rewrite invoke_submitted.
  - destruct sp.
    + rewrite Hshape. simpl. rewrite app_nil_r. unfold loop. simpl.
      destruct cbs as [|callback rest]; simpl; [by rewrite app_nil_r|].
      rewrite invoke_submitted. simpl. by rewrite submitted_after, app_nil_r.
    + destruct Hshape as [-> ->]. simpl. by rewrite app_nil_r.
Qed.

(** What a step does to the callbacks invoked and to those that wait. *)
Lemma turn_pending k s :
  ready k s ->
  pending (turn body k s) = drop 1 (pending s) ++ next_submits s.
Proof.
  intros Hs.
  destruct (turn_ready body k s Hs) as ([Hacc' _] & Hinv & _).
  pose proof (turn_submitted k s Hs) as Hsub. destruct Hs as [Hacc _].
  rewrite Hsub, Hinv, Hacc in Hacc'.
  rewrite <- (take_drop 1 (pending s)) in Hacc' at 1.
  rewrite <- !app_assoc in Hacc'.
  by do 2 apply app_inv_head in Hacc'.
Qed.

Lemma step_view k s i :
  ready k s ->
  invoked_of (trace (step body k s i))
  = match i with
    | Submit _ => invoked_of (trace s)
    | Turn => invoked_of (trace s) ++ take 1 (pending s)
    end /\
  pending (step body k s i)
  = match i with
    | Submit c => pending s ++ [c]
    | Turn => drop 1 (pending s) ++ next_submits s
    end.
Proof.
  intros Hs. destruct i as [c|]; simpl.
  - by destruct (waitForNextTask_ready k c s Hs) as (_ & Hi & Hp).
  - destruct (turn_ready body k s Hs) as (_ & Hi & _). split; [done|].
    by apply turn_pending.
Qed.

Lemma run_snoc k inputs i :
  run body k (inputs ++ [i]) = step body k (run body k inputs) i.
Proof. unfold run. by rewrite foldl_app. Qed.

(** First in, first out, told from the inputs and from the callbacks
    alone: the callbacks invoked so far, and a queue of those that wait.  A submission goes to the end of the queue; a turn invokes
    the first callback of the queue, and what that callback submits goes to
    the end of the queue, whether the callback throws or returns. *)
Definition fifo_step (q : list nat * list nat) (i : input) : list nat * list nat :=
  match i with
  | Submit callback => (fst q, snd q ++ [callback])
  | Turn =>
      match snd q with
      | [] => q
      | callback :: rest => (fst q ++ [callback], rest ++ fst (body callback))
      end
  end.

Definition fifo (inputs : list input) : list nat * list nat :=
  foldl fifo_step ([], []) inputs.

Lemma run_fifo k inputs :
  invoked_of (trace (run body k inputs)) = fst (fifo inputs) /\
  pending (run body k inputs) = snd (fifo inputs).
Proof.
  induction inputs as [|i inputs [IHi IHp]] using rev_ind; [done|].
  assert (Hsnoc : fifo (inputs ++ [i]) = fifo_step (fifo inputs) i)
    by (unfold fifo; by rewrite foldl_app).
  rewrite run_snoc, Hsnoc.
  destruct (step_view k _ i (run_ready body k inputs)) as [-> ->].
  unfold next_submits. rewrite IHi, IHp.
  destruct (fifo inputs) as [inv pend]. destruct i as [c|]; [done|].
  destruct pend as [|c rest]; simpl; rewrite ?app_nil_r, ?take_0, ?drop_0; done.
Qed.

(** As many turns as callbacks wait invoke these, in order. *)
Lemma turns_take k n : forall s,
  ready k s -> (n <= length (pending s))%nat ->
  invoked_of (trace (turns body k n s)) = invoked_of (trace s) ++ take n (pending s).
Proof.
  induction n as [|n IH]; intros s Hs Hn; simpl; [by rewrite app_nil_r|].
  destruct (pending s) as [|c rest] eqn:Hp; [simpl in Hn; lia|]. simpl in Hn.
  destruct (turn_ready body k s Hs) as (Hs' & Hi & _).
  pose proof (turn_pending k s Hs) as Hp'. rewrite Hp in Hi, Hp'. simpl in Hi, Hp'.
  rewrite take_0 in Hi. rewrite drop_0 in Hp'.
  rewrite IH; [|done|rewrite Hp', length_app; lia].
  rewrite Hi, Hp', take_app_le, <- app_assoc by lia. done.
Qed.

(** C4.  Whatever is submitted and whenever, from tasks of the program
    or from callbacks, and whichever callbacks throw: the callbacks that
    have been invoked, and those that wait, are those of a queue fed by the
    submissions of the inputs and of the callbacks invoked, first in first
    out, in which a callback that throws counts as one that returns; so
    every callback that waits is invoked, in order, in as many turns as
    callbacks wait before it, none skipped after one that threw; and the
    loop hands itself to [setImmediate] before it calls the callback, so
    that it is armed again when the callback throws. *)
Theorem scheduler_fifo_despite_throw isNode node k inputs :
  makeWaitForNextTask isNode node = Some k ->
  invoked_of (trace (run body k inputs)) = fst (fifo inputs) /\
  pending (run body k inputs) = snd (fifo inputs) /\
  (forall n, (n <= length (snd (fifo inputs)))%nat ->
     invoked_of (trace (turns body k n (run body k inputs)))
     = fst (fifo inputs) ++ take n (snd (fifo inputs))) /\
  (forall s callback rest,
     callbacks s = callback :: rest ->
     exists t imm,
       trace (snd (loop body Spinning s)) = trace s ++ Armed :: Invoked callback :: t /\
       immediates (snd (loop body Spinning s)) = immediates s ++ Loop :: imm /\
       fst (loop body Spinning s) = snd (body callback)).
Proof.
  intros _. destruct (run_fifo k inputs) as [Hi Hp].
  split; [done|]. split; [done|]. split.
  - intros n Hn. rewrite <- Hi, <- Hp. apply turns_take; [apply run_ready|by rewrite Hp].
  - intros s callback rest Hcb. unfold loop. rewrite Hcb. unfold invoke.
    match goal with
    | |- context [foldl ?f ?s0 ?cs] =>
        destruct (submits_extend Spinning cs s0) as (t & imm & Ht & Himm)
    end.
    simpl in Ht, Himm.
    destruct (snd (body callback)); simpl; rewrite ?Ht, ?Himm, <- ?app_assoc; simpl.
    + exists (t ++ [Uncaught callback]), imm. by rewrite <- ?app_assoc.
    + by exists t, imm.
Qed.

(** X6.  The scheduler of Node 11 and later, [setImmediate] itself, and
    the loop of lines 292-312 cannot be told apart by what they invoke:
    after the same submissions and turns, in the same order, the same
    callbacks have been invoked, in the same order, and the same callbacks
    wait, in the same order. *)
Theorem variants_invoke_alike inputs :
  invoked_of (trace (run body Spinning inputs))
    = invoked_of (trace (run body SetImmediate inputs)) /\
  pending (run body Spinning inputs) = pending (run body SetImmediate inputs).
Proof.
  induction inputs as [|i inputs [IHi IHp]] using rev_ind; [done|].
  rewrite !run_snoc.
  destruct (step_view Spinning _ i (run_ready body Spinning inputs)) as [-> ->].
  destruct (step_view SetImmediate _ i (run_ready body SetImmediate inputs)) as [-> ->].
  unfold next_submits. rewrite IHi, IHp. by destruct i.
Qed.

(** X7.  The function returned never calls the callback it is given
    before it returns.  The loop of lines 294-304 is handed to
    [setImmediate] at most once at a time, and when it runs with nothing
    waiting it stops: no immediate is left, [spinning] is false again and
    nothing is observed. *)
Theorem loop_armed_once_and_stops inputs :
  (forall k c,
     invoked_of (trace (waitForNextTask k c (run body k inputs)))
     = invoked_of (trace (run body k inputs))) /\
  (length (immediates (run body Spinning inputs)) <= 1)%nat /\
  (pending (run body Spinning inputs) = [] ->
   turn body Spinning (run body Spinning inputs)
   = State false [] [] (trace (run body Spinning inputs))).
Proof.
  split; [|split].
  - intros k c.
    by destruct (waitForNextTask_ready k c _ (run_ready body k inputs)) as (_ & Hi & _).
  - destruct (run_ready body Spinning inputs) as [_ Hshape].
    destruct (spinning _); [by rewrite Hshape|]. destruct Hshape as [-> _]. simpl. lia.
  - destruct (run_ready body Spinning inputs) as [_ Hshape].
    destruct (run body Spinning inputs) as [sp cbs imm tr].
    unfold pending, turn. simpl in *. intros Hp.
    apply app_eq_nil in Hp as [-> _].
    destruct sp; [by rewrite Hshape|]. by destruct Hshape as [-> _].
Qed.

End Variants.

Lemma scheduler_fifo_despite_throw_witness :
  invoked_of (trace (run demo_body Spinning [Submit 1; Submit 2; Turn]))
    = fst (fifo demo_body [Submit 1; Submit 2; Turn]) /\
  pending (run demo_body Spinning [Submit 1; Submit 2; Turn])
    = snd (fifo demo_body [Submit 1; Submit 2; Turn]) /\
  (forall n, (n <= length (snd (fifo demo_body [Submit 1; Submit 2; Turn])))%nat ->
     invoked_of (trace (turns demo_body Spinning n
                          (run demo_body Spinning [Submit 1; Submit 2; Turn])))
     = fst (fifo demo_body [Submit 1; Submit 2; Turn])
       ++ take n (snd (fifo demo_body [Submit 1; Submit 2; Turn]))) /\
  (forall s callback rest,
     callbacks s = callback :: rest ->
     exists t imm,
       trace (snd (loop demo_body Spinning s)) = trace s ++ Armed :: Invoked callback :: t /\
       immediates (snd (loop demo_body Spinning s)) = immediates s ++ Loop :: imm /\
       fst (loop demo_body Spinning s) = snd (demo_body callback)).
Proof.
  apply (scheduler_fifo_despite_throw demo_body true 10 Spinning [Submit 1; Submit 2; Turn]).
  reflexivity.
Defined.

(** Callback 1 throws after it submitted callback 3: the queue holds 2
    and then 3, and two more turns invoke them. *)
Example demo_fifo :
  fifo demo_body [Submit 1; Submit 2; Turn] = ([1], [2; 3])%nat /\
  invoked_of (trace (turns demo_body Spinning 2
                       (run demo_body Spinning [Submit 1; Submit 2; Turn])))
  = [1; 2; 3]%nat.
Proof. split; reflexivity. Qed.

End SchedulerLaws.

(** ** More on the transport: every interleaving of calls and events *)
Module TransportLaws.
Import Transport.

Section Host.

Variable closed_send_throws : bool.

(** What holds of a transport whatever the program and the socket did:
    the calls of [send] are settled in the order in which they were made;
    the wire holds messages of settled calls, in that order; while
    [_connect] is pending every call waits and no microtask is queued;
    once it is settled no call waits, and the microtasks are those of the
    calls that are not settled yet, in order; a socket that still connects
    has not settled [_connect]; and nothing fails with the error of a
    socket that still connects. *)
Definition orderly (s : state) : Prop :=
  map fst (settled s) = seq 0 (length (settled s)) /\
  (length (settled s) <= length (calls s))%nat /\
  wire s `sublist_of` take (length (settled s)) (calls s) /\
  (ws s = CONNECTING -> _connect s = Pending) /\
  _connect s <> Rejected InvalidStateError /\
  Forall (fun j => thrown j <> Some InvalidStateError) (microtasks s) /\
  Forall (fun p => snd p <> Failed InvalidStateError) (settled s) /\
  match _connect s with
  | Pending =>
      microtasks s = [] /\ settled s = [] /\
      map fst (waiting s) = seq 0 (length (calls s)) /\ map snd (waiting s) = calls s
  | _ =>
      waiting s = [] /\
      map id (microtasks s) = seq (length (settled s)) (length (microtasks s)) /\
      map message (microtasks s) = drop (length (settled s)) (calls s)
  end.

Lemma orderly_new : orderly new_WebSocketTransport.
Proof. unfold orderly. simpl. repeat split; try done; constructor. Qed.

Lemma queue_length {A B} (f : A -> B) (l : list A) n (k : list B) :
  map f l = drop n k -> (n <= length k)%nat -> (n + length l)%nat = length k.
Proof.
  intros H Hn. apply (f_equal length) in H. rewrite length_map, length_drop in H. lia.
Qed.

Lemma orderly_send m s : orderly s -> orderly (send m s).
Proof.
  destruct s as [r w c wt mt cs st]. unfold orderly, send. simpl.
  intros (Hids & Hlen & Hwire & Hws & Hrej & Hmt & Hst & Hc).
  assert (Htake : take (length st) (cs ++ [m]) = take (length st) cs)
    by (by rewrite take_app_le).
  destruct c as [| |reason]; simpl; rewrite ?length_app; simpl.
  - destruct Hc as (-> & -> & Hw1 & Hw2). simpl in *.
    rewrite !map_app, Hw1, Hw2. simpl.
    replace (length cs + 1)%nat with (S (length cs)) by lia. rewrite seq_S.
    repeat split; try done; lia.
  - destruct Hc as (-> & Hm1 & Hm2).
    pose proof (queue_length _ _ _ _ Hm2 Hlen) as Hq.
    rewrite Htake, !map_app, Hm1, Hm2, drop_app_le by done. simpl.
    replace (length mt + 1)%nat with (S (length mt)) by lia. rewrite seq_S, Hq.
    repeat split; try done; [lia|].
    apply Forall_app. split; [done|]. by repeat constructor.
  - destruct Hc as (-> & Hm1 & Hm2).
    pose proof (queue_length _ _ _ _ Hm2 Hlen) as Hq.
    rewrite Htake, !map_app, Hm1, Hm2, drop_app_le by done. simpl.
    replace (length mt + 1)%nat with (S (length mt)) by lia. rewrite seq_S, Hq.
    repeat split; try done; [lia|].
    apply Forall_app. split; [done|]. repeat constructor. simpl. congruence.
Qed.

Lemma orderly_set_ws r s : r <> CONNECTING -> orderly s -> orderly (set_ws r s).
Proof.
  destruct s as [r0 w c wt mt cs st]. unfold orderly, set_ws. simpl.
  intros Hr (Hids & Hlen & Hwire & Hws & Hrej & Hmt & Hst & Hc).
  repeat split; try done.
Qed.

Lemma orderly_settle p s :
  p <> Pending -> p <> Rejected InvalidStateError -> ws s <> CONNECTING ->
  orderly s -> orderly (settle p s).
Proof.
  destruct s as [r w c wt mt cs st]. unfold orderly, settle. simpl.
  intros Hp Hp' Hr (Hids & Hlen & Hwire & Hws & Hrej & Hmt & Hst & Hc).
  destruct c as [| |reason]; simpl;
    [|destruct Hc as (? & ? & ?); repeat split; try done..].
  destruct Hc as (-> & -> & Hw1 & Hw2). simpl in *.
  assert (length wt = length cs) as Hl by (by rewrite <- Hw2, length_map).
  destruct p as [| |reason]; [done|..]; simpl;
    rewrite !map_map; simpl; rewrite length_map, Hl, drop_0;
    (repeat split; try done);
    apply Forall_map, Forall_forall; intros x _; simpl; congruence.
Qed.

Lemma orderly_tick s : orderly s -> orderly (tick closed_send_throws s).
Proof.
  destruct s as [r w c wt mt cs st]. intros Hs. unfold tick. simpl.
  destruct mt as [|[i m t] rest]; [done|].
  destruct Hs as (Hids & Hlen & Hwire & Hws & Hrej & Hmt & Hst & Hc). simpl in *.
  assert (Hc' : wt = [] /\
                i :: map id rest = seq (length st) (S (length rest)) /\
                m :: map message rest = drop (length st) cs /\
                c <> Pending /\ r <> CONNECTING).
  { destruct c; [by destruct Hc|..]; destruct Hc as (-> & ? & ?);
      repeat split; try done; intros ->; by specialize (Hws eq_refl). }
  destruct Hc' as (-> & Hm1 & Hm2 & Hcp & Hr). simpl in Hm1. injection Hm1 as -> Hm1.
  apply Forall_cons in Hmt as [Ht Hmt]. simpl in Ht.
  assert (Hm : cs !! length st = Some m).
  { rewrite <- (Nat.add_0_r (length st)), <- lookup_drop. by rewrite <- Hm2. }
  assert (Hlt : (length st < length cs)%nat) by (by apply lookup_lt_Some in Hm).
  assert (Htake : take (length st + 1) cs = take (length st) cs ++ [m]).
  { replace (length st + 1)%nat with (S (length st)) by lia. by erewrite take_S_r. }
  assert (Hdrop : map message rest = drop (length st + 1) cs).
  { rewrite <- drop_drop, <- Hm2. done. }
  assert (Hseq : seq 0 (length st + 1) = seq 0 (length st) ++ [length st]).
  { replace (length st + 1)%nat with (S (length st)) by lia. by rewrite seq_S. }
  assert (Hgoal : forall o w',
            o <> Failed InvalidStateError ->
            w' `sublist_of` take (length st) cs ++ [m] ->
            orderly (State r w' c [] rest cs (st ++ [(length st, o)]))).
  { intros o w' Ho Hw'. unfold orderly. simpl.
    rewrite map_app, !length_app. simpl. rewrite Hids, Htake, Hseq, Hdrop.
    rewrite (Nat.add_1_r (length st)) in *.
    repeat split; try done; try lia.
    - apply Forall_app. split; [done|]. by repeat constructor.
    - by destruct c. }
  destruct t as [reason|]; simpl.
  - apply Hgoal; [congruence|by apply sublist_inserts_r].
  - unfold ws_send. simpl.
    destruct r; simpl; try done.
    + apply Hgoal; [done|]. by apply sublist_app.
    + destruct closed_send_throws; simpl;
        (apply Hgoal; [done|by apply sublist_inserts_r]).
    + destruct closed_send_throws; simpl;
        (apply Hgoal; [done|by apply sublist_inserts_r]).
Qed.

Lemma orderly_step s i :
  orderly s ->
  orderly (step closed_send_throws s i) /\
  calls (step closed_send_throws s i) = calls s ++ messages [i].
Proof.
  intros Hs. destruct i as [m| | | | |]; simpl.
  - split; [by apply orderly_send|]. unfold send. by destruct (_connect s).
  - rewrite app_nil_r. unfold close.
    destruct (ws s) eqn:E; (split; [|done]); try done; by apply orderly_set_ws.
  - rewrite app_nil_r. split; [by apply orderly_tick|].
    unfold tick. destruct (microtasks s) as [|[i m t] rest]; [done|].
    destruct t; [done|]. unfold ws_send. simpl.
    by destruct (ws s); [|destruct closed_send_throws..].
  - rewrite app_nil_r. destruct (ws s) eqn:E; (split; [|try done]); try done.
    + apply orderly_settle; try done. by apply orderly_set_ws.
    + unfold settle, set_ws. simpl. by destruct (_connect s).
  - rewrite app_nil_r.
    destruct (ws s) eqn:E; (split; [|try done]); try done;
      try (apply orderly_settle; try done; by apply orderly_set_ws);
      unfold settle, set_ws; simpl; by destruct (_connect s).
  - rewrite app_nil_r. destruct (ws s) eqn:E; (split; [|done]); try done;
      by apply orderly_set_ws.
Qed.

Lemma orderly_run inputs :
  orderly (run closed_send_throws inputs) /\
  calls (run closed_send_throws inputs) = messages inputs.
Proof.
  induction inputs as [|i inputs [IH IHc]] using rev_ind.
  - split; [apply orderly_new|done].
  - rewrite run_app. simpl.
    destruct (orderly_step _ i IH) as [Hs Hc]. split; [done|].
    by rewrite Hc, IHc, messages_app.
Qed.

(** X8.  Whatever the program and the socket do, and in whatever order:
    the calls of [send] are settled in the order in which they were made,
    and the wire holds messages of settled calls only, each once at most
    and in the order of the calls. *)
Theorem sends_settle_in_call_order inputs :
  map fst (settled (run closed_send_throws inputs))
    = seq 0 (length (settled (run closed_send_throws inputs))) /\
  (length (settled (run closed_send_throws inputs)) <= length (messages inputs))%nat /\
  wire (run closed_send_throws inputs)
    `sublist_of` take (length (settled (run closed_send_throws inputs))) (messages inputs).
Proof.
  destruct (orderly_run inputs) as [(Hids & Hlen & Hwire & _) Hc].
  rewrite Hc in *. done.
Qed.

(** X9.  [send] waits for [_connect] before it touches the socket, so no
    call ever reaches a socket that still connects: whatever the program
    and the socket do, no call of [send] fails with the error that
    [_ws.send] raises on a connecting socket. *)
Theorem send_never_on_connecting_socket inputs :
  Forall (fun p => snd p <> Failed InvalidStateError)
         (settled (run closed_send_throws inputs)) /\
  (ws (run closed_send_throws inputs) = CONNECTING ->
   microtasks (run closed_send_throws inputs) = []).
Proof.
  destruct (orderly_run inputs) as [(_ & _ & _ & Hws & _ & _ & Hst & Hc) _].
  split; [done|]. intros Hr. rewrite (Hws Hr) in Hc. by destruct Hc.
Qed.

(** Neither ['open'] nor ['error']. *)
Definition unsettling (inputs : list input) : Prop :=
  Forall (fun i => i <> SocketOpen /\ i <> SocketFail) inputs.

Lemma pending_step s i :
  i <> SocketOpen -> i <> SocketFail -> _connect s = Pending -> microtasks s = [] ->
  _connect (step closed_send_throws s i) = Pending.
Proof.
  intros Ho Hf Hc Hm. destruct i; try done; simpl.
  - unfold send. simpl. by rewrite Hc.
  - unfold close. by destruct (ws s).
  - unfold tick. by rewrite Hm.
  - by destruct (ws s).
Qed.

(** X10.  Only the ['open'] and the ['error'] event of the socket settle
    [_connect]; [close()] and the ['close'] event do not.  As long as
    neither has come, no call of [send] is settled, nothing is on the
    wire and every call waits, in order. *)
Theorem sends_wait_for_open_or_error inputs :
  unsettling inputs ->
  settled (run closed_send_throws inputs) = [] /\
  wire (run closed_send_throws inputs) = [] /\
  map snd (waiting (run closed_send_throws inputs)) = messages inputs.
Proof.
  intros Hin.
  assert (Hp : _connect (run closed_send_throws inputs) = Pending).
  { induction inputs as [|i inputs IH] using rev_ind; [done|].
    apply Forall_app in Hin as [Hin Hi]. apply Forall_singleton in Hi as [Ho Hf].
    rewrite run_app. simpl. specialize (IH Hin).
    apply pending_step; try done.
    destruct (orderly_run inputs) as [(_ & _ & _ & _ & _ & _ & _ & Hc) _].
    rewrite IH in Hc. by destruct Hc. }
  destruct (orderly_run inputs) as [(_ & _ & Hwire & _ & _ & _ & _ & Hc) Hcalls].
  rewrite Hp in Hc. destruct Hc as (_ & Hst & _ & Hw). rewrite Hst in *.
  simpl in Hwire. apply sublist_nil_r in Hwire. by rewrite Hw, Hcalls.
Qed.

End Host.

Lemma sends_wait_for_open_or_error_witness :
  settled (run true [Send "a"; Close; Tick; SocketClose; Send "b"; Tick]) = [] /\
  wire (run true [Send "a"; Close; Tick; SocketClose; Send "b"; Tick]) = [] /\
  map snd (waiting (run true [Send "a"; Close; Tick; SocketClose; Send "b"; Tick]))
  = messages [Send "a"; Close; Tick; SocketClose; Send "b"; Tick].
Proof.
  apply (sends_wait_for_open_or_error true
           [Send "a"; Close; Tick; SocketClose; Send "b"; Tick]).
  repeat constructor; discriminate.
Defined.

End TransportLaws.

(** ** The transport's inbound side: the listeners of lines 331-349 *)
Module Inbound.

(** [messageWrap], line 335: in Node the function that
    [makeWaitForNextTask] returns, in a browser [cb => cb()]. *)
Inductive wrap :=
| Later (k : Scheduler.scheduler)
| Now.

Definition messageWrap (isNode : bool) (node : Z) : option wrap :=
  if isNode then option_map Later (Scheduler.makeWaitForNextTask isNode node)
  else Some Now.

(** What the program's handlers were called with. *)
Inductive obs :=
| Message (handler : nat) (data : string)   (* line 340 *)
| Closed (handler : nat).                   (* line 346 *)

(** The fields [onmessage] and [onclose], which the program assigns
    ([None] is [undefined]); the [data] of the ['message'] events so far,
    the closure of lines 338-341 for the event number [i] being callback
    [i] of the scheduler; the state of the scheduler; and the calls of the
    handlers. *)
Record state := State {
  onmessage : option nat;
  onclose : option nat;
  frames : list string;
  tasks : Scheduler.state;
  trace : list obs
}.

Definition new_WebSocketTransport : state :=
  State None None [] Scheduler.initial [].

Definition observe (o : obs) (s : state) : state :=
  State (onmessage s) (onclose s) (frames s) (tasks s) (trace s ++ [o]).

Definition set_tasks (t : Scheduler.state) (s : state) : state :=
  State (onmessage s) (onclose s) (frames s) t (trace s).

Section Handlers.

(** Whether the handler throws on the event number [i]; [wrapper] is the
    value of [messageWrap]. *)
Variable throws : nat -> bool.
Variable wrapper : wrap.

(** The closure of lines 338-341 as the scheduler sees it: it hands
    nothing to the scheduler, which only the constructor can reach. *)
Definition callback (i : nat) : list nat * bool := ([], throws i).

(** Lines 339-340, for the event number [i]: [onmessage] is read when the
    closure runs. *)
Definition deliver (i : nat) (s : state) : state :=
  match onmessage s, frames s !! i with
  | Some handler, Some data => observe (Message handler data) s
  | _, _ => s
  end.

(** The listener for ['message'], lines 337-342. *)
Definition on_message (data : string) (s : state) : state :=
  let i := length (frames s) in
  let s := State (onmessage s) (onclose s) (frames s ++ [data]) (tasks s) (trace s) in
  match wrapper with
  | Now => deliver i s
  | Later k => set_tasks (Scheduler.waitForNextTask k i (tasks s)) s
  end.

(** The listener for ['close'], lines 344-347. *)
Definition on_close (s : state) : state :=
  match onclose s with
  | Some handler => observe (Closed handler) s
  | None => s
  end.

(** One turn of the event loop of Node: the scheduler's next immediate
    runs, and the closures that it invokes deliver. *)
Definition turn (s : state) : state :=
  match wrapper with
  | Now => s
  | Later k =>
      let t := Scheduler.turn callback k (tasks s) in
      foldl (fun s i => deliver i s) (set_tasks t s)
            (drop (length (Scheduler.invoked_of (Scheduler.trace (tasks s))))
                  (Scheduler.invoked_of (Scheduler.trace t)))
  end.

(** What happens to the inbound side: the program assigns a handler (a
    handler that assigns one does so before the next input), the socket
    has an event (the listeners for ['error'], lines 329 and 349, call no
    handler), or the event loop takes a turn. *)
Inductive input :=
| SetOnMessage (handler : option nat)
| SetOnClose (handler : option nat)
| SocketMessage (data : string)
| SocketClose
| SocketError
| Turn.

Definition step (s : state) (i : input) : state :=
  match i with
  | SetOnMessage handler => State handler (onclose s) (frames s) (tasks s) (trace s)
  | SetOnClose handler => State (onmessage s) handler (frames s) (tasks s) (trace s)
  | SocketMessage data => on_message data s
  | SocketClose => on_close s
  | SocketError => s
  | Turn => turn s
  end.

Definition run (inputs : list input) : state :=
  foldl step new_WebSocketTransport inputs.

Definition turns (n : nat) (s : state) : state := Nat.iter n turn s.

(** The calls of [onmessage] in a trace, and the data of the ['message']
    events among the inputs. *)
Definition delivered (t : list obs) : list (nat * string) :=
  omap (fun o => match o with Message handler data => Some (handler, data) | _ => None end) t.

Definition arrived (inputs : list input) : list string :=
  omap (fun i => match i with SocketMessage data => Some data | _ => None end) inputs.

Lemma delivered_app t1 t2 : delivered (t1 ++ t2) = delivered t1 ++ delivered t2.
Proof. apply omap_app. Qed.

Lemma arrived_app i1 i2 : arrived (i1 ++ i2) = arrived i1 ++ arrived i2.
Proof. apply omap_app. Qed.

(** The inbound side in Node while [onmessage] is [handler]: the scheduler
    was handed the closures of the events, in order, and the events whose
    closure has been invoked have been delivered to the handler. *)
Definition attentive (k : Scheduler.scheduler) (handler : nat) (s : state) : Prop :=
  Scheduler.ready k (tasks s) /\
  Scheduler.submitted_of (Scheduler.trace (tasks s)) = seq 0 (length (frames s)) /\
  onmessage s = Some handler /\
  delivered (trace s)
  = map (pair handler)
        (take (length (Scheduler.invoked_of (Scheduler.trace (tasks s)))) (frames s)).

Lemma attentive_bound k handler s :
  attentive k handler s ->
  (length (Scheduler.invoked_of (Scheduler.trace (tasks s)))
   + length (Scheduler.pending (tasks s)))%nat = length (frames s).
Proof.
  intros ([Hacc _] & Hsub & _). rewrite Hsub in Hacc.
  apply (f_equal length) in Hacc. rewrite length_seq, length_app in Hacc. lia.
Qed.

Lemma attentive_next k handler s c rest :
  attentive k handler s ->
  Scheduler.pending (tasks s) = c :: rest ->
  c = length (Scheduler.invoked_of (Scheduler.trace (tasks s))).
Proof.
  intros Hs Hp. pose proof (attentive_bound _ _ _ Hs) as Hb.
  destruct Hs as ([Hacc _] & Hsub & _). rewrite Hsub, Hp in Hacc.
  rewrite Hp in Hb. simpl in Hb.
  apply (f_equal (fun l => l !! length (Scheduler.invoked_of (Scheduler.trace (tasks s)))))
    in Hacc.
  rewrite list_lookup_middle in Hacc by done.
  rewrite lookup_seq_lt in Hacc by lia. simpl in Hacc. congruence.
Qed.

End Handlers.

Section Node.

Variable throws : nat -> bool.
Variable k : Scheduler.scheduler.

Lemma attentive_message handler data s :
  attentive k handler s ->
  attentive k handler (on_message (Later k) data s) /\
  trace (on_message (Later k) data s) = trace s /\
  frames (on_message (Later k) data s) = frames s ++ [data].
Proof.
  intros Hs. pose proof (attentive_bound _ _ _ Hs) as Hb.
  destruct Hs as (Hready & Hsub & Hon & Hdel).
  destruct (Scheduler.waitForNextTask_ready k (length (frames s)) _ Hready)
    as (Hready' & Hinv & _).
  unfold on_message, attentive. simpl. split; [|done].
  rewrite SchedulerLaws.waitForNextTask_submitted, Hsub, Hinv, length_app. simpl.
  rewrite take_app_le by lia.
  replace (length (frames s) + 1)%nat with (S (length (frames s))) by lia.
  by rewrite seq_S.
Qed.

Lemma attentive_turn handler s :
  attentive k handler s ->
  attentive k handler (turn throws (Later k) s) /\
  frames (turn throws (Later k) s) = frames s /\
  length (Scheduler.invoked_of (Scheduler.trace (tasks (turn throws (Later k) s))))
  = (length (Scheduler.invoked_of (Scheduler.trace (tasks s))) `min` length (frames s)
     + (if decide (length (Scheduler.invoked_of (Scheduler.trace (tasks s)))
                   < length (frames s))%nat then 1 else 0))%nat.
Proof.
  intros Hs. pose proof (attentive_bound _ _ _ Hs) as Hb.
  pose proof (fun c rest => attentive_next k handler s c rest Hs) as Hnext.
  destruct Hs as (Hready & Hsub & Hon & Hdel).
  destruct (Scheduler.turn_ready (callback throws) k _ Hready) as (Hready' & Hinv & _).
  pose proof (SchedulerLaws.turn_submitted (callback throws) k _ Hready) as Hsub'.
  assert (SchedulerLaws.next_submits (callback throws) (tasks s) = []) as Hnone.
  { unfold SchedulerLaws.next_submits. by destruct (Scheduler.pending (tasks s)). }
  rewrite Hnone, app_nil_r in Hsub'.
  unfold turn, attentive.
  set (t := Scheduler.turn (callback throws) k (tasks s)) in *.
  rewrite Hinv, drop_app_length.
  destruct (Scheduler.pending (tasks s)) as [|c rest] eqn:Hp.
  - simpl in *. rewrite app_nil_r in *.
    rewrite Hinv, Hsub', Hsub, Nat.min_l by lia.
    rewrite decide_False by lia.
    split; [split; [exact Hready'|done]|split; [done|lia]].
  - specialize (Hnext c rest eq_refl). simpl in Hb. simpl.
    assert (is_Some (frames s !! c)) as [data Hdata]
      by (apply lookup_lt_is_Some; lia).
    unfold deliver. simpl. rewrite Hon, Hdata. simpl.
    rewrite Hinv, Hsub', Hsub, length_app, Nat.min_l by lia. simpl.
    rewrite decide_True by lia.
    split; [split; [exact Hready'|]|split; [done|lia]].
    split; [done|]. split; [done|].
    rewrite delivered_app, Hdel. simpl.
    replace (length (Scheduler.invoked_of (Scheduler.trace (tasks s))) + 1)%nat
      with (S c) by lia.
    erewrite take_S_r by done. rewrite map_app, <- Hnext. done.
Qed.

Lemma attentive_step handler s i :
  (forall h, i <> SetOnMessage h) ->
  attentive k handler s ->
  attentive k handler (step throws (Later k) s i) /\
  frames (step throws (Later k) s i) = frames s ++ arrived [i].
Proof.
  intros Hi Hs. destruct i as [h|h|data| | |]; simpl; rewrite ?app_nil_r.
  - by destruct (Hi h).
  - done.
  - by destruct (attentive_message handler data s Hs) as (? & ? & ?).
  - split; [|by unfold on_close; destruct (onclose s)].
    destruct Hs as (Hready & Hsub & Hon & Hdel). unfold on_close, attentive.
    destruct (onclose s); [|done]. simpl. rewrite delivered_app. simpl.
    by rewrite app_nil_r.
  - done.
  - by destruct (attentive_turn handler s Hs) as (? & ? & ?).
Qed.

Lemma attentive_turns handler n : forall s,
  attentive k handler s ->
  attentive k handler (turns throws (Later k) n s) /\
  frames (turns throws (Later k) n s) = frames s /\
  length (Scheduler.invoked_of (Scheduler.trace (tasks (turns throws (Later k) n s))))
  = ((length (Scheduler.invoked_of (Scheduler.trace (tasks s))) + n)
       `min` length (frames s))%nat.
Proof.
  induction n as [|n IH]; intros s Hs.
  - pose proof (attentive_bound _ _ _ Hs). unfold turns. simpl.
    split; [done|]. split; [done|]. lia.
  - unfold turns in *. rewrite Nat.iter_succ_r.
    destruct (attentive_turn handler s Hs) as (Hs' & Hf & Hl).
    destruct (IH _ Hs') as (Hs'' & Hf' & Hl').
    split; [done|]. split; [by rewrite Hf', Hf|].
    rewrite Hl', Hl, Hf. case_decide; lia.
Qed.

Lemma run_last inputs i :
  run throws (Later k) (inputs ++ [i]) = step throws (Later k) (run throws (Later k) inputs) i.
Proof. unfold run. by rewrite foldl_app. Qed.

(** X11.  In Node, while [onmessage] stays the handler it was set to
    first: the messages delivered are, at every moment, the first of those
    that arrived, in the order of arrival, none twice; no ['message'] event
    calls the handler itself; and each turn of the event loop delivers the
    next message, and that alone, until none is left. *)
Theorem messages_delivered_in_arrival_order handler inputs n :
  Forall (fun i => forall h, i <> SetOnMessage h) inputs ->
  delivered (trace (run throws (Later k) (SetOnMessage (Some handler) :: inputs)))
    `prefix_of` map (pair handler) (arrived inputs) /\
  delivered (trace (turns throws (Later k) n
                      (run throws (Later k) (SetOnMessage (Some handler) :: inputs))))
  = map (pair handler)
        (take (length (delivered (trace (run throws (Later k)
                                           (SetOnMessage (Some handler) :: inputs)))) + n)
              (arrived inputs)) /\
  (forall data,
     trace (step throws (Later k)
              (run throws (Later k) (SetOnMessage (Some handler) :: inputs))
              (SocketMessage data))
     = trace (run throws (Later k) (SetOnMessage (Some handler) :: inputs))).
Proof.
  intros Hin.
  assert (Hs : attentive k handler (run throws (Later k) (SetOnMessage (Some handler) :: inputs))
               /\ frames (run throws (Later k) (SetOnMessage (Some handler) :: inputs))
                  = arrived inputs).
  { induction inputs as [|i inputs IH] using rev_ind.
    - split; [|done]. repeat split; try done. apply Scheduler.ready_initial.
    - apply Forall_app in Hin as [Hin Hi]. apply Forall_cons in Hi as [Hi _].
      destruct (IH Hin) as [Hs Hf].
      rewrite app_comm_cons, run_last.
      destruct (attentive_step handler _ i Hi Hs) as [Hs' Hf'].
      split; [done|]. by rewrite Hf', Hf, arrived_app. }
  destruct Hs as [Hs Hf].
  set (s := run throws (Later k) (SetOnMessage (Some handler) :: inputs)) in *.
  pose proof (attentive_bound _ _ _ Hs) as Hb.
  assert (Hlen : length (delivered (trace s))
                 = length (Scheduler.invoked_of (Scheduler.trace (tasks s)))).
  { destruct Hs as (_ & _ & _ & ->). rewrite length_map, length_take. lia. }
  split; [|split].
  - destruct Hs as (_ & _ & _ & ->). rewrite <- Hf.
    rewrite <- (take_drop (length (Scheduler.invoked_of (Scheduler.trace (tasks s))))
                  (frames s)) at 2.
    rewrite map_app. by apply prefix_app_r.
  - destruct (attentive_turns handler n s Hs) as ((_ & _ & _ & ->) & -> & ->).
    rewrite Hlen, Hf. f_equal.
    destruct (Nat.min_spec (length (Scheduler.invoked_of (Scheduler.trace (tasks s))) + n)
                (length (arrived inputs))) as [[Hlt ->]|[Hle ->]]; [done|].
    by rewrite !take_ge by lia.
  - intros data. simpl. by destruct (attentive_message handler data s Hs) as (_ & ? & _).
Qed.

End Node.

Section Browser.

Variable throws : nat -> bool.

Lemma now_step_quiet s i :
  (forall data, i <> SocketMessage data) ->
  delivered (trace (step throws Now s i)) = delivered (trace s).
Proof.
  intros Hi. destruct i as [h|h|data| | |]; simpl; try done.
  - by destruct (Hi data).
  - unfold on_close. destruct (onclose s); [|done]. simpl.
    rewrite delivered_app. simpl. by rewrite app_nil_r.
Qed.

Lemma now_steps_quiet inputs : forall s,
  Forall (fun i => forall data, i <> SocketMessage data) inputs ->
  delivered (trace (foldl (step throws Now) s inputs)) = delivered (trace s).
Proof.
  induction inputs as [|i inputs IH]; intros s Hin; [done|].
  apply Forall_cons in Hin as [Hi Hin]. simpl.
  by rewrite IH, now_step_quiet.
Qed.

(** X12.  A message that arrives while [onmessage] is not set: in a
    browser the closure runs inside the event, finds no handler, and the
    message is never delivered, whatever the program assigns later; in
    Node the closure runs in the next task, and the message is delivered
    to the handler assigned in between. *)
Theorem unheard_message_lost_in_browser_only data handler rest k :
  Forall (fun i => forall d, i <> SocketMessage d) rest ->
  delivered (trace (run throws Now
                      (SocketMessage data :: SetOnMessage (Some handler) :: rest))) = [] /\
  delivered (trace (run throws (Later k)
                      [SocketMessage data; SetOnMessage (Some handler); Turn]))
  = [(handler, data)].
Proof.
  intros Hrest. split.
  - unfold run. simpl. by rewrite now_steps_quiet.
  - unfold run, turn, callback. simpl.
    destruct k; vm_compute; by destruct (throws 0%nat).
Qed.

End Browser.

(** The value of [messageWrap] in Node and in a browser. *)
Lemma messageWrap_cases node :
  (exists k, messageWrap true node = Some (Later k)) /\ messageWrap false node = Some Now.
Proof.
  split; [|done]. unfold messageWrap, Scheduler.makeWaitForNextTask. simpl.
  destruct (11 <=? node); eauto.
Qed.

Lemma messages_delivered_in_arrival_order_witness :
  delivered (trace (run (fun _ => true) (Later Scheduler.Spinning)
                      (SetOnMessage (Some 7%nat)
                         :: [SocketMessage "a"; SocketMessage "b"; Turn; SocketMessage "c"])))
    `prefix_of` map (pair 7%nat)
                    (arrived [SocketMessage "a"; SocketMessage "b"; Turn; SocketMessage "c"]) /\
  delivered (trace (turns (fun _ => true) (Later Scheduler.Spinning) 1
                      (run (fun _ => true) (Later Scheduler.Spinning)
                         (SetOnMessage (Some 7%nat)
                            :: [SocketMessage "a"; SocketMessage "b"; Turn; SocketMessage "c"]))))
  = map (pair 7%nat)
        (take (length (delivered (trace (run (fun _ => true) (Later Scheduler.Spinning)
                 (SetOnMessage (Some 7%nat)
                    :: [SocketMessage "a"; SocketMessage "b"; Turn; SocketMessage "c"])))) + 1)
              (arrived [SocketMessage "a"; SocketMessage "b"; Turn; SocketMessage "c"])) /\
  (forall data,
     trace (step (fun _ => true) (Later Scheduler.Spinning)
              (run (fun _ => true) (Later Scheduler.Spinning)
                 (SetOnMessage (Some 7%nat)
                    :: [SocketMessage "a"; SocketMessage "b"; Turn; SocketMessage "c"]))
              (SocketMessage data))
     = trace (run (fun _ => true) (Later Scheduler.Spinning)
                (SetOnMessage (Some 7%nat)
                   :: [SocketMessage "a"; SocketMessage "b"; Turn; SocketMessage "c"]))).
Proof.
  apply (messages_delivered_in_arrival_order (fun _ => true) Scheduler.Spinning 7%nat
           [SocketMessage "a"; SocketMessage "b"; Turn; SocketMessage "c"] 1).
  repeat constructor; discriminate.
Defined.

Lemma unheard_message_lost_in_browser_only_witness :
  delivered (trace (run (fun _ => false) Now
                      (SocketMessage "a" :: SetOnMessage (Some 7%nat)
                         :: [Turn; SocketClose; SetOnMessage None]))) = [] /\
  delivered (trace (run (fun _ => false) (Later Scheduler.SetImmediate)
                      [SocketMessage "a"; SetOnMessage (Some 7%nat); Turn]))
  = [(7%nat, "a"%string)].
Proof.
  apply (unheard_message_lost_in_browser_only (fun _ => false) "a" 7%nat
           [Turn; SocketClose; SetOnMessage None] Scheduler.SetImmediate).
  repeat constructor; discriminate.
Defined.

(** Two messages arrive in one task of Node; each is delivered in a task
    of its own. *)
Example demo_inbound :
  delivered (trace (run (fun _ => false) (Later Scheduler.Spinning)
                      [SetOnMessage (Some 7%nat); SocketMessage "a"; SocketMessage "b"]))
  = [] /\
  delivered (trace (run (fun _ => false) (Later Scheduler.Spinning)
                      [SetOnMessage (Some 7%nat); SocketMessage "a"; SocketMessage "b"; Turn]))
  = [(7%nat, "a"%string)] /\
  delivered (trace (run (fun _ => false) (Later Scheduler.Spinning)
                      [SetOnMessage (Some 7%nat); SocketMessage "a"; SocketMessage "b"; Turn; Turn]))
  = [(7%nat, "a"%string); (7%nat, "b"%string)].
Proof. repeat split; reflexivity. Qed.

End Inbound.

(** ** More on buffers: lengths, text that has no base64, the way back
    from bytes, and nested concatenation *)
Module ByteBufferLaws.
Import ByteBuffer.

Section Host.

Variable little_endian : bool.
Variable legacy : JSString -> option (list Z -> option JSString).
Variable max_arguments : Z.

Lemma length_unit_bytes (us : list Z) :
  length (flat_map (unit_bytes little_endian) us) = (2 * length us)%nat.
Proof.
  induction us as [|u us IH]; [done|].
  cbn [flat_map]. rewrite length_app, IH. unfold unit_bytes.
  destruct little_endian; simpl; lia.
Qed.

Lemma length_utf8_encode_scalar c :
  c <= 0x10FFFF ->
  (1 <= length (utf8_encode_scalar c) <= 4)%nat /\
  (c <= 0xFFFF -> (length (utf8_encode_scalar c) <= 3)%nat) /\
  (0xFFFF < c -> length (utf8_encode_scalar c) = 4%nat).
Proof.
  intros Hc. unfold utf8_encode_scalar.
  destruct (Z.leb_spec c 0x7F); [|destruct (Z.leb_spec c 0x7FF); [|destruct (Z.leb_spec c 0xFFFF)]];
    simpl; repeat split; lia.
Qed.

(** UTF-8 takes from one to three bytes for a code unit. *)
Lemma length_TextEncoder_encode s :
  Forall (fun c => c <= 0xFFFF) s ->
  (length s <= length (TextEncoder_encode s) <= 3 * length s)%nat.
Proof.
  unfold TextEncoder_encode.
  assert (Hrepl : length (utf8_encode_scalar 0xFFFD) = 3%nat) by done.
  induction s as [|c|c d s IH1 IH2] using list_pair_ind; intros Hs.
  - simpl. lia.
  - apply Forall_cons in Hs as [Hc _]. simpl.
    destruct (is_high_surrogate c); [simpl; lia|].
    destruct (is_low_surrogate c); [simpl; lia|].
    cbn [flat_map]. rewrite app_nil_r.
    destruct (length_utf8_encode_scalar c ltac:(lia)) as (? & H3 & _).
    specialize (H3 Hc). simpl. lia.
  - apply Forall_cons in Hs as [Hc Hs]. pose proof Hs as Hds.
    apply Forall_cons in Hs as [Hd Hs].
    specialize (IH1 Hs). specialize (IH2 Hds).
    change (scalar_values (c :: d :: s)) with
      (if is_high_surrogate c then
         if is_low_surrogate d
         then (0x10000 + (c - 0xD800) * 0x400 + (d - 0xDC00)) :: scalar_values s
         else 0xFFFD :: scalar_values (d :: s)
       else if is_low_surrogate c then 0xFFFD :: scalar_values (d :: s)
       else c :: scalar_values (d :: s)).
    destruct (is_high_surrogate c) eqn:Hhigh.
    + destruct (is_low_surrogate d) eqn:Hlow.
      * apply in_range_spec in Hhigh, Hlow.
        cbn [flat_map]. rewrite length_app.
        destruct (length_utf8_encode_scalar
                    (0x10000 + (c - 0xD800) * 0x400 + (d - 0xDC00)) ltac:(lia))
          as (_ & _ & ->); [|lia]. simpl length in *. lia.
      * cbn [flat_map]. rewrite length_app, Hrepl. simpl length in *. lia.
    + destruct (is_low_surrogate c).
      * cbn [flat_map]. rewrite length_app, Hrepl. simpl length in *. lia.
      * cbn [flat_map]. rewrite length_app.
        destruct (length_utf8_encode_scalar c ltac:(lia)) as (? & H3 & _).
        specialize (H3 Hc). simpl length in *. lia.
Qed.

(** X13.  [byteLength] of a string, read as UTF-8 by default, is the
    number of bytes of its encoding: at least one byte and at most three
    for each code unit, and exactly one for each when the text is ASCII. *)
Theorem byteLength_of_text s h :
  Forall (fun c => 0 <= c <= 0xFFFF) s ->
  exists n h',
    byteLength little_endian (inl s) None h = Ok (n, h') /\
    n = length (TextEncoder_encode s) /\
    (length s <= n <= 3 * length s)%nat /\
    (Forall (fun c => c <= 0x7F) s -> n = length s).
Proof.
  intros Hs. exists (length (TextEncoder_encode s)). eexists.
  unfold byteLength. simpl default. rewrite new_BufferImpl_utf8, data_of_new.
  split; [done|]. split; [done|]. split.
  - apply length_TextEncoder_encode. eapply Forall_impl; [exact Hs|]. simpl. lia.
  - intros Hascii. unfold TextEncoder_encode. clear Hs.
    induction Hascii as [|c s Hc _ IH]; [done|]. simpl.
    unfold is_high_surrogate, is_low_surrogate.
    rewrite !in_range_false by lia. cbn [flat_map]. rewrite length_app, IH.
    unfold utf8_encode_scalar. by rewrite (proj2 (Z.leb_le c 0x7F)) by lia.
Qed.

(** X14.  [byteLength] of base64 text is twice the number of bytes that
    the text stands for: the constructor keeps each of them as a 16-bit
    unit. *)
Theorem byteLength_of_base64 bs h :
  bytes bs ->
  exists h',
    byteLength little_endian (inl (base64_encode bs)) (Some (str "base64")) h
    = Ok ((2 * length bs)%nat, h').
Proof.
  intros Hbs. eexists. unfold byteLength. simpl default.
  rewrite (new_BufferImpl_base64 little_endian _ bs) by (by apply atob_base64_encode).
  rewrite data_of_new, fill_units_bytes by (by apply bytes_units).
  by rewrite length_unit_bytes.
Qed.

(** The bytes of text without U+0000 are not zero. *)
Lemma utf8_encode_scalar_nonzero c :
  1 <= c <= 0x10FFFF -> Forall (fun b => 1 <= b <= 255) (utf8_encode_scalar c).
Proof.
  intros Hc. unfold utf8_encode_scalar.
  destruct (Z.leb_spec c 0x7F); [|destruct (Z.leb_spec c 0x7FF); [|destruct (Z.leb_spec c 0xFFFF)]];
    repeat constructor; arith.
Qed.

Lemma scalar_values_nonzero s :
  Forall (fun c => 1 <= c <= 0xFFFF) s ->
  Forall (fun c => 1 <= c <= 0x10FFFF) (scalar_values s).
Proof.
  induction s as [|c|c d s IH1 IH2] using list_pair_ind; intros Hs.
  - constructor.
  - apply Forall_cons in Hs as [Hc _]. simpl.
    destruct (is_high_surrogate c); [apply Forall_singleton; lia|].
    destruct (is_low_surrogate c); apply Forall_singleton; lia.
  - apply Forall_cons in Hs as [Hc Hs]. pose proof Hs as Hds.
    apply Forall_cons in Hs as [Hd Hs].
    change (scalar_values (c :: d :: s)) with
      (if is_high_surrogate c then
         if is_low_surrogate d
         then (0x10000 + (c - 0xD800) * 0x400 + (d - 0xDC00)) :: scalar_values s
         else 0xFFFD :: scalar_values (d :: s)
       else if is_low_surrogate c then 0xFFFD :: scalar_values (d :: s)
       else c :: scalar_values (d :: s)).
    destruct (is_high_surrogate c) eqn:Hhigh.
    + destruct (is_low_surrogate d) eqn:Hlow.
      * apply in_range_spec in Hhigh, Hlow. constructor; [lia|auto].
      * constructor; [lia|auto].
    + destruct (is_low_surrogate c); (constructor; [lia|auto]).
Qed.

Lemma TextEncoder_encode_nonzero s :
  Forall (fun c => 1 <= c <= 0xFFFF) s ->
  Forall (fun b => 1 <= b <= 255) (TextEncoder_encode s).
Proof.
  intros Hs. apply scalar_values_nonzero in Hs. unfold TextEncoder_encode.
  induction Hs as [|c cs Hc _ IH]; [constructor|].
  cbn [flat_map]. apply Forall_app. split; [by apply utf8_encode_scalar_nonzero|done].
Qed.

(** Bytes that are not zero, read two by two: one is left over, or every
    code unit is above 255. *)
Lemma code_units_nonzero bs :
  Forall (fun b => 1 <= b <= 255) bs ->
  match code_units little_endian bs with
  | None => Nat.even (length bs) = false
  | Some us => Nat.even (length bs) = true /\
               length us = Nat.div2 (length bs) /\
               (bs <> [] -> forallb (in_range 0 255) us = false)
  end.
Proof.
  induction bs as [|x|x y bs IH _] using list_pair_ind; intros Hbs.
  - done.
  - done.
  - apply Forall_cons in Hbs as [Hx Hbs]. apply Forall_cons in Hbs as [Hy Hbs].
    specialize (IH Hbs).
    change (code_units little_endian (x :: y :: bs)) with
      (cons (if little_endian then x + 256 * y else 256 * x + y)
         <$> code_units little_endian bs).
    change (Nat.even (length (x :: y :: bs))) with (Nat.even (length bs)).
    change (Nat.div2 (length (x :: y :: bs))) with (S (Nat.div2 (length bs))).
    destruct (code_units little_endian bs) as [us|]; [|done].
    destruct IH as (Heven & Hlen & _). split; [done|]. split; [simpl; by rewrite Hlen|].
    intros _. simpl. rewrite in_range_false; [done|]. destruct little_endian; lia.
Qed.

(** X15.  A buffer made from text has no ["base64"] text, unless the text
    is empty or holds U+0000: [toString("base64")] reads the bytes two by
    two as code units, and throws: a [RangeError] when the number of bytes
    is odd, a [RangeError] again when it is even and the units are more
    than a call takes arguments, and an [InvalidCharacterError] from [btoa]
    otherwise. *)
Theorem text_buffer_has_no_base64 s h :
  s <> [] ->
  Forall (fun c => 1 <= c <= 0xFFFF) s ->
  exists b h',
    new_BufferImpl little_endian (Text s) None h = Ok (b, h') /\
    toString little_endian legacy max_arguments b (Some (str "base64")) h'
    = if Nat.even (length (TextEncoder_encode s))
         && (Z.of_nat (Nat.div2 (length (TextEncoder_encode s))) <=? max_arguments)
      then Throws InvalidCharacterError
      else Throws RangeError.
Proof.
  intros Hne Hs. eexists _, _.
  split; [apply (new_BufferImpl_utf8 little_endian s h)|].
  unfold toString. rewrite data_of_new. simpl default.
  rewrite decide_True by done. unfold Uint16Array_elements.
  pose proof (code_units_nonzero _ (TextEncoder_encode_nonzero s Hs)) as Hunits.
  destruct (code_units little_endian (TextEncoder_encode s)) as [us|]; [|by rewrite Hunits].
  destruct Hunits as (-> & -> & Hbig). simpl.
  destruct (Z.of_nat _ <=? max_arguments); [|done].
  unfold btoa. rewrite Hbig; [done|].
  intros Hnil. apply (f_equal length) in Hnil.
  pose proof (length_TextEncoder_encode s) as Hlen.
  destruct s; [done|]. simpl in Hnil, Hlen.
  assert (Forall (fun c => c <= 0xFFFF) (z :: s)) as Hle
    by (eapply Forall_impl; [exact Hs|]; simpl; lia).
  specialize (Hlen Hle). simpl in Hlen. lia.
Qed.

(** *** Nested concatenation *)

(** What [concat] returns, for any number of buffers: a buffer that holds
    their bytes one after the other, on a heap where the buffers that
    existed are as they were. *)
Lemma concat_content buffers datas h :
  mapM (data_of h) buffers = Some datas ->
  exists b h',
    concat buffers h = Ok (b, h') /\
    data_of h' b = Some (List.concat datas) /\
    (forall b0 bs, data_of h b0 = Some bs -> data_of h' b0 = Some bs).
Proof.
  intros Hdatas. destruct buffers as [|b1 [|b2 buffers]].
  - apply mapM_Some, Forall2_nil_inv_l in Hdatas as ->.
    exists (S (length h)), (h ++ [ArrayBuffer []] ++ [BufferImpl (length h)]).
    split; [|split].
    + unfold concat, alloc. rewrite length_app. simpl. rewrite <- app_assoc.
      repeat f_equal. lia.
    + apply (data_of_new h []).
    + intros b0 bs. apply data_of_extend.
  - apply mapM_Some in Hdatas.
    apply Forall2_cons_inv_l in Hdatas as (d & ds & Hd & Hds & ->).
    apply Forall2_nil_inv_l in Hds as ->.
    exists b1, h. simpl. rewrite app_nil_r. done.
  - exists (S (length h)), (h ++ [ArrayBuffer (List.concat datas)] ++ [BufferImpl (length h)]).
    split; [|split].
    + unfold concat. rewrite Hdatas, total_byteLength, Nat.add_0_l.
      pose proof (copy_all_zeroes datas []) as Hcopy.
      rewrite app_nil_l in Hcopy. change (length (@nil Z)) with 0%nat in Hcopy.
      rewrite Hcopy. unfold alloc. simpl.
      rewrite length_app. simpl. rewrite <- app_assoc. repeat f_equal. lia.
    + apply data_of_new.
    + intros b0 bs. apply data_of_extend.
Qed.

Lemma mapM_data_of_kept h h' buffers datas :
  (forall b0 bs, data_of h b0 = Some bs -> data_of h' b0 = Some bs) ->
  mapM (data_of h) buffers = Some datas -> mapM (data_of h') buffers = Some datas.
Proof.
  intros Hkept Hdatas. apply mapM_Some. apply mapM_Some in Hdatas.
  eapply Forall2_impl; [exact Hdatas|]. intros b bs. apply Hkept.
Qed.

(** X17.  Concatenation can be nested: for any two lists of buffers, of
    any length, [concat([concat(xs), concat(ys)])] holds the same bytes as
    [concat] of all the buffers of [xs] and [ys]. *)
Theorem concat_of_concats xs ys dxs dys h :
  mapM (data_of h) xs = Some dxs ->
  mapM (data_of h) ys = Some dys ->
  exists bx h1 by_ h2 b h3 b' h',
    concat xs h = Ok (bx, h1) /\
    concat ys h1 = Ok (by_, h2) /\
    concat [bx; by_] h2 = Ok (b, h3) /\
    concat (xs ++ ys) h = Ok (b', h') /\
    data_of h3 b = Some (List.concat (dxs ++ dys)) /\
    data_of h' b' = Some (List.concat (dxs ++ dys)).
Proof.
  intros Hxs Hys.
  destruct (concat_content xs dxs h Hxs) as (bx & h1 & Hcx & Hdx & Hk1).
  pose proof (mapM_data_of_kept _ _ _ _ Hk1 Hys) as Hys1.
  destruct (concat_content ys dys h1 Hys1) as (by_ & h2 & Hcy & Hdy & Hk2).
  assert (Hboth : mapM (data_of h2) [bx; by_] = Some [List.concat dxs; List.concat dys]).
  { apply mapM_Some. repeat constructor; [by apply Hk2|done]. }
  destruct (concat_content _ _ h2 Hboth) as (b & h3 & Hc & Hd & _).
  assert (Hall : mapM (data_of h) (xs ++ ys) = Some (dxs ++ dys)).
  { apply mapM_Some. apply Forall2_app; by apply mapM_Some. }
  destruct (concat_content _ _ h Hall) as (b' & h' & Hc' & Hd' & _).
  exists bx, h1, by_, h2, b, h3, b', h'.
  repeat split; try done.
  rewrite Hd. simpl. by rewrite app_nil_r, List.concat_app.
Qed.

(** *** From bytes to text and back *)

(** What the UTF-8 decoder accepts is the encoding of the code points it
    gives, and these are scalar values. *)
Lemma utf8_encode_decode : forall bs cs,
  utf8_decode bs = Some cs ->
  Forall scalar cs /\ flat_map utf8_encode_scalar cs = bs.
Proof.
  intros bs. induction bs as [bs IH] using (induction_ltof1 _ (@length Z)).
  unfold ltof in IH. intros cs H.
  destruct bs as [|b0 r0]; [by simplify_eq/=|].
  cbn [utf8_decode] in H.
  destruct (in_range 0 127 b0) eqn:H0.
  { apply fmap_Some in H as (cs' & Hcs' & ->). apply in_range_spec in H0.
    destruct (IH r0 ltac:(simpl; lia) cs' Hcs') as [Hsc Henc].
    split; [constructor; [unfold scalar; lia|done]|].
    cbn [flat_map]. rewrite Henc. unfold utf8_encode_scalar.
    by rewrite (proj2 (Z.leb_le b0 127)) by lia. }
  destruct (in_range 194 223 b0) eqn:H1.
  { destruct r0 as [|b1 r1]; [done|].
    destruct (in_range 128 191 b1) eqn:H2; [|done].
    apply fmap_Some in H as (cs' & Hcs' & ->). apply in_range_spec in H1, H2.
    destruct (IH r1 ltac:(simpl; lia) cs' Hcs') as [Hsc Henc].
    split; [constructor; [unfold scalar; lia|done]|].
    cbn [flat_map]. rewrite Henc. unfold utf8_encode_scalar.
    rewrite (proj2 (Z.leb_gt _ 127)) by lia.
    rewrite (proj2 (Z.leb_le _ 2047)) by lia.
    cbn [app]. f_equal; [arith|]. f_equal. arith. }
  destruct (in_range 224 239 b0) eqn:H2.
  { destruct r0 as [|b1 [|b2 r2]]; [done..|].
    match type of H with
    | (if ?c then _ else _) = _ => destruct c eqn:H3; [|done]
    end.
    apply fmap_Some in H as (cs' & Hcs' & ->).
    apply andb_true_iff in H3 as [H3 H4]. apply in_range_spec in H2, H3, H4.
    destruct (IH r2 ltac:(simpl; lia) cs' Hcs') as [Hsc Henc].
    assert (Hc : 2048 <= (b0 - 224) * 4096 + (b1 - 128) * 64 + (b2 - 128) <= 65535 /\
                 ~ (55296 <= (b0 - 224) * 4096 + (b1 - 128) * 64 + (b2 - 128) <= 57343)).
    { destruct (Z.eqb_spec b0 224), (Z.eqb_spec b0 237); lia. }
    split; [constructor; [unfold scalar; lia|done]|].
    cbn [flat_map]. rewrite Henc. unfold utf8_encode_scalar.
    rewrite (proj2 (Z.leb_gt _ 127)) by lia.
    rewrite (proj2 (Z.leb_gt _ 2047)) by lia.
    rewrite (proj2 (Z.leb_le _ 65535)) by lia.
    assert (128 <= b1 <= 191) by (destruct (Z.eqb_spec b0 224), (Z.eqb_spec b0 237); lia).
    clear H3 Hc.
    set (x0 := b0 - 224) in *. set (x1 := b1 - 128) in *. set (x2 := b2 - 128) in *.
    assert (E2 : (x0 * 4096 + x1 * 64 + x2) mod 64 = x2) by arith.
    assert (E1 : (x0 * 4096 + x1 * 64 + x2) / 64 = x0 * 64 + x1) by arith.
    assert (E0 : (x0 * 4096 + x1 * 64 + x2) / 4096 = x0) by arith.
    rewrite E0, E1, E2.
    assert (E3 : (x0 * 64 + x1) mod 64 = x1) by arith. rewrite E3.
    cbn [app]. unfold x0, x1, x2. f_equal; [lia|]. f_equal; [lia|]. f_equal. lia. }
  destruct (in_range 240 244 b0) eqn:H3; [|done].
  destruct r0 as [|b1 [|b2 [|b3 r3]]]; [done..|].
  match type of H with
  | (if ?c then _ else _) = _ => destruct c eqn:H4; [|done]
  end.
  apply fmap_Some in H as (cs' & Hcs' & ->).
  apply andb_true_iff in H4 as [H4 H6]. apply andb_true_iff in H4 as [H4 H5].
  apply in_range_spec in H3, H4, H5, H6.
  destruct (IH r3 ltac:(simpl; lia) cs' Hcs') as [Hsc Henc].
  assert (Hc : 65536 <= (b0 - 240) * 262144 + (b1 - 128) * 4096 + (b2 - 128) * 64
                        + (b3 - 128) <= 1114111).
  { destruct (Z.eqb_spec b0 240), (Z.eqb_spec b0 244); lia. }
  split; [constructor; [unfold scalar; lia|done]|].
  cbn [flat_map]. rewrite Henc. unfold utf8_encode_scalar.
  rewrite (proj2 (Z.leb_gt _ 127)) by lia.
  rewrite (proj2 (Z.leb_gt _ 2047)) by lia.
  rewrite (proj2 (Z.leb_gt _ 65535)) by lia.
  assert (128 <= b1 <= 191) by (destruct (Z.eqb_spec b0 240), (Z.eqb_spec b0 244); lia).
  clear H4 Hc.
  set (x0 := b0 - 240) in *. set (x1 := b1 - 128) in *.
  set (x2 := b2 - 128) in *. set (x3 := b3 - 128) in *.
  assert (E3 : (x0 * 262144 + x1 * 4096 + x2 * 64 + x3) mod 64 = x3) by arith.
  assert (E2 : (x0 * 262144 + x1 * 4096 + x2 * 64 + x3) / 64 = x0 * 4096 + x1 * 64 + x2)
    by arith.
  assert (E1 : (x0 * 262144 + x1 * 4096 + x2 * 64 + x3) / 4096 = x0 * 64 + x1) by arith.
  assert (E0 : (x0 * 262144 + x1 * 4096 + x2 * 64 + x3) / 262144 = x0) by arith.
  rewrite E0, E1, E2, E3.
  assert (E4 : (x0 * 64 + x1) mod 64 = x1) by arith.
  assert (E5 : (x0 * 4096 + x1 * 64 + x2) mod 64 = x2) by arith.
  rewrite E4, E5.
  cbn [app]. unfold x0, x1, x2, x3.
  f_equal; [lia|]. f_equal; [lia|]. f_equal; [lia|]. f_equal. lia.
Qed.

(** The scalar values of the UTF-16 form of scalar values are these. *)
Lemma scalar_values_utf16 cs :
  Forall scalar cs -> scalar_values (flat_map utf16_encode_scalar cs) = cs.
Proof.
  induction 1 as [|c cs [Hc Hs] _ IH]; [done|].
  cbn [flat_map].
  destruct (Z.leb_spec c 65535).
  - assert (utf16_encode_scalar c = [c]) as ->.
    { unfold utf16_encode_scalar. by rewrite (proj2 (Z.leb_le c 65535)) by lia. }
    cbn [app scalar_values]. unfold is_high_surrogate, is_low_surrogate.
    rewrite !in_range_false by lia. by rewrite IH.
  - assert (utf16_encode_scalar c
            = [55296 + (c - 65536) / 1024; 56320 + (c - 65536) mod 1024]) as ->.
    { unfold utf16_encode_scalar. by rewrite (proj2 (Z.leb_gt c 65535)) by lia. }
    pose proof (Z.div_mod (c - 65536) 1024 ltac:(lia)) as E.
    pose proof (Z.mod_pos_bound (c - 65536) 1024 ltac:(lia)) as B.
    assert (0 <= (c - 65536) / 1024 <= 1023) as Q by arith.
    set (q := (c - 65536) / 1024) in *. set (r := (c - 65536) mod 1024) in *.
    clearbody q r.
    cbn [app scalar_values]. unfold is_high_surrogate, is_low_surrogate.
    rewrite !in_range_true by lia. rewrite IH. f_equal. lia.
Qed.

(** X16.  The way back from bytes: when [toString()] gives text for a
    buffer, so that its bytes are well-formed UTF-8, and the bytes do not
    start with a byte order mark, a buffer made from that text holds the
    same bytes. *)
Theorem bytes_to_text_and_back this h bs s :
  data_of h this = Some bs ->
  toString little_endian legacy max_arguments this None h = Ok s ->
  take 3 bs <> [0xEF; 0xBB; 0xBF] ->
  exists b h',
    new_BufferImpl little_endian (Text s) None h = Ok (b, h') /\
    data_of h' b = Some bs.
Proof.
  intros Hdata Hs Hbom. unfold toString in Hs. rewrite Hdata in Hs.
  simpl default in Hs. rewrite decide_False in Hs by done.
  rewrite TextDecoder_utf8 in Hs. unfold TextDecoder_decode, decode_utf8 in Hs.
  destruct (utf8_decode bs) as [cs|] eqn:Hcs; [|done]. simpl in Hs.
  injection Hs as <-.
  destruct (utf8_encode_decode bs cs Hcs) as [Hsc Henc].
  assert (strip_bom cs = cs) as ->.
  { destruct cs as [|c cs]; [done|]. unfold strip_bom.
    destruct (Z.eqb_spec c 65279) as [->|]; [|done].
    destruct Hbom. by rewrite <- Henc. }
  eexists _, _. split; [apply (new_BufferImpl_utf8 little_endian _ h)|].
  rewrite data_of_new. unfold TextEncoder_encode.
  by rewrite scalar_values_utf16, Henc.
Qed.

(** *** Base64 text read back as text *)

Lemma utf8_decode_ascii bs :
  Forall (fun b => 0 <= b <= 127) bs -> utf8_decode bs = Some bs.
Proof.
  induction 1 as [|b bs Hb _ IH]; [done|].
  cbn [utf8_decode]. rewrite in_range_true by lia. by rewrite IH.
Qed.

Lemma utf16_encode_ascii cs :
  Forall (fun c => 0 <= c <= 127) cs -> flat_map utf16_encode_scalar cs = cs.
Proof.
  induction 1 as [|c cs Hc _ IH]; [done|].
  cbn [flat_map]. rewrite IH. unfold utf16_encode_scalar.
  by rewrite (proj2 (Z.leb_le c 65535)) by lia.
Qed.

(** X23.  Text in base64 that stands for ASCII bytes, made into a buffer
    and read with [toString()], does not give the text of those bytes: each
    of them comes with a U+0000, after it on a little-endian host and
    before it on a big-endian one, because the constructor keeps a byte as
    a 16-bit unit and [toString] reads the units as UTF-8 bytes. *)
Theorem base64_buffer_read_as_text bs h :
  Forall (fun b => 0 <= b <= 127) bs ->
  exists b h',
    new_BufferImpl little_endian (Text (base64_encode bs)) (Some (str "base64")) h
      = Ok (b, h') /\
    toString little_endian legacy max_arguments b None h'
      = Ok (flat_map (fun c => if little_endian then [c; 0] else [0; c]) bs).
Proof.
  intros Hbs.
  assert (Hbytes : bytes bs) by (eapply Forall_impl; [exact Hbs|]; simpl; lia).
  eexists _, _. split.
  { apply new_BufferImpl_base64. by apply atob_base64_encode. }
  unfold toString. rewrite data_of_new. simpl default.
  rewrite decide_False by done. rewrite TextDecoder_utf8.
  rewrite fill_units_bytes by (by apply bytes_units).
  assert (Hunits : flat_map (unit_bytes little_endian) bs
                   = flat_map (fun c => if little_endian then [c; 0] else [0; c]) bs).
  { clear Hbytes. induction Hbs as [|c cs Hc _ IH]; [done|].
    cbn [flat_map]. rewrite IH. f_equal. unfold unit_bytes.
    rewrite Z.mod_small, Z.div_small by lia. by destruct little_endian. }
  rewrite Hunits.
  assert (Hascii : Forall (fun b => 0 <= b <= 127)
                     (flat_map (fun c => if little_endian then [c; 0] else [0; c]) bs)).
  { clear Hbytes Hunits. induction Hbs as [|c cs Hc _ IH]; [constructor|].
    cbn [flat_map]. apply Forall_app. split; [|done].
    destruct little_endian; repeat constructor; lia. }
  unfold TextDecoder_decode, decode_utf8. rewrite utf8_decode_ascii by done. simpl.
  assert (strip_bom (flat_map (fun c => if little_endian then [c; 0] else [0; c]) bs)
          = flat_map (fun c => if little_endian then [c; 0] else [0; c]) bs) as ->.
  { revert Hascii.
    generalize (flat_map (fun c => if little_endian then [c; 0] else [0; c]) bs).
    intros [|c cs] Hascii; [done|].
    apply Forall_cons in Hascii as [Hc _]. unfold strip_bom.
    by rewrite (proj2 (Z.eqb_neq c 65279)) by lia. }
  by rewrite utf16_encode_ascii.
Qed.

End Host.

Lemma byteLength_of_text_witness :
  exists n h',
    byteLength true (inl [0x68; 0xE9; 0x20AC]) None [] = Ok (n, h') /\
    n = length (TextEncoder_encode [0x68; 0xE9; 0x20AC]) /\
    (length [0x68; 0xE9; 0x20AC] <= n <= 3 * length [0x68; 0xE9; 0x20AC])%nat /\
    (Forall (fun c => c <= 0x7F) [0x68; 0xE9; 0x20AC] -> n = length [0x68; 0xE9; 0x20AC]).
Proof.
  apply (byteLength_of_text true [0x68; 0xE9; 0x20AC] []).
  repeat constructor; lia.
Defined.

Lemma byteLength_of_base64_witness :
  exists h',
    byteLength true (inl (base64_encode [104; 105; 33])) (Some (str "base64")) []
    = Ok ((2 * length [104; 105; 33])%nat, h').
Proof.
  apply (byteLength_of_base64 true [104; 105; 33] []).
  repeat constructor; lia.
Defined.

Lemma text_buffer_has_no_base64_witness :
  exists b h',
    new_BufferImpl true (Text [0x68; 0x69]) None [] = Ok (b, h') /\
    toString true no_legacy 65535 b (Some (str "base64")) h'
    = if Nat.even (length (TextEncoder_encode [0x68; 0x69]))
         && (Z.of_nat (Nat.div2 (length (TextEncoder_encode [0x68; 0x69]))) <=? 65535)
      then Throws InvalidCharacterError
      else Throws RangeError.
Proof.
  apply (text_buffer_has_no_base64 true no_legacy 65535 [0x68; 0x69] []).
  - discriminate.
  - repeat constructor; lia.
Defined.

(** A heap with the buffer of the bytes of ["hé"] and a buffer of one
    byte. *)
Definition demo_heap : heap :=
  [ArrayBuffer [0x68; 0xC3; 0xA9]; BufferImpl 0; ArrayBuffer [0x21]; BufferImpl 2].

Lemma bytes_to_text_and_back_witness :
  exists b h',
    new_BufferImpl true (Text [0x68; 0xE9]) None demo_heap = Ok (b, h') /\
    data_of h' b = Some [0x68; 0xC3; 0xA9].
Proof.
  apply (bytes_to_text_and_back true no_legacy 65535 1%nat demo_heap [0x68; 0xC3; 0xA9]
           [0x68; 0xE9]).
  - reflexivity.
  - vm_compute. reflexivity.
  - discriminate.
Defined.

Lemma concat_of_concats_witness :
  exists bx h1 by_ h2 b h3 b' h',
    concat [1; 3]%nat demo_heap = Ok (bx, h1) /\
    concat [3]%nat h1 = Ok (by_, h2) /\
    concat [bx; by_] h2 = Ok (b, h3) /\
    concat ([1; 3] ++ [3])%nat demo_heap = Ok (b', h') /\
    data_of h3 b = Some (List.concat ([[0x68; 0xC3; 0xA9]; [0x21]] ++ [[0x21]])) /\
    data_of h' b' = Some (List.concat ([[0x68; 0xC3; 0xA9]; [0x21]] ++ [[0x21]])).
Proof.
  apply (concat_of_concats [1; 3]%nat [3]%nat [[0x68; 0xC3; 0xA9]; [0x21]] [[0x21]]
           demo_heap); reflexivity.
Defined.

Lemma base64_buffer_read_as_text_witness :
  exists b h',
    new_BufferImpl true (Text (base64_encode [104; 105])) (Some (str "base64")) []
      = Ok (b, h') /\
    toString true no_legacy 65535 b None h'
      = Ok (flat_map (fun c => if true then [c; 0] else [0; c]) [104; 105]).
Proof.
  apply (base64_buffer_read_as_text true no_legacy 65535 [104; 105] []).
  repeat constructor; lia.
Defined.

End ByteBufferLaws.

(** ** More on the URL match predicate: when it throws *)
Module UrlMatchLaws.

(** [urlMatches] once more, lines 221-236, with what the caller passes
    and the helper as they are: [helper.globToRegex] throws on a glob that
    it cannot turn into a regular expression, a predicate may throw, and
    [urlMatches] catches neither. *)
Inductive exn :=
| TypeError              (* [new URL] on a string that is no URL *)
| AssertionError         (* line 234 *)
| Thrown (e : string).   (* what [helper.globToRegex] or the predicate threw *)

Inductive result (A : Type) :=
| Ok (a : A)
| Throws (e : exn).
Arguments Ok {A} a.
Arguments Throws {A} e.

(** [types.URLMatch]; a predicate returns, or throws. *)
Inductive URLMatch :=
| MString (s : string)
| MRegExp (r : UrlMatch.RegExp)
| MFunction (f : UrlMatch.URL -> bool + string).

(** [typeof match === 'string']. *)
Definition is_string (m : URLMatch) : bool :=
  match m with
  | MString _ => true
  | _ => false
  end.

Section Helpers.

Variable isString : URLMatch -> bool.
Variable globToRegex : string -> UrlMatch.RegExp + string.
Variable new_URL : string -> option UrlMatch.URL.

(** Lines 221-236; [None] is [undefined]. *)
Definition urlMatches (urlString : string) (match_ : option URLMatch) : result bool :=
  match match_ with
  | None => Ok true
  | Some (MString "") => Ok true
  | Some match_ =>
      let converted :=
        if isString match_
        then match match_ with
             | MString s =>
                 match globToRegex s with
                 | inl r => Ok (MRegExp r)
                 | inr e => Throws (Thrown e)
                 end
             | _ => Ok match_
             end
        else Ok match_ in
      match converted with
      | Throws e => Throws e
      | Ok (MRegExp r) => Ok (UrlMatch.test r urlString)
      | Ok match_ =>
          let same :=
            match match_ with
            | MString s => bool_decide (s = urlString)
            | _ => false
            end in
          if same then Ok true else
          match new_URL urlString with
          | None => Throws TypeError
          | Some url =>
              match match_ with
              | MString s => Ok (bool_decide (UrlMatch.pathname url = s))
              | MFunction f =>
                  match f url with
                  | inl b => Ok b
                  | inr e => Throws (Thrown e)
                  end
              | MRegExp _ => Throws AssertionError
              end
          end
      end
  end.



End Helpers.

(** The patterns of [UrlMatch], whose predicates return. *)
Definition returning (m : UrlMatch.URLMatch) : URLMatch :=
  match m with
  | UrlMatch.MString s => MString s
  | UrlMatch.MRegExp r => MRegExp r
  | UrlMatch.MFunction f => MFunction (fun url => inl (f url))
  end.

(** With a helper and predicates that return, this is [urlMatches] of
    [UrlMatch]. *)
Lemma urlMatches_returning glob new_URL u m :
  urlMatches is_string (fun s => inl (glob s)) new_URL u (returning <$> m)
  = match UrlMatch.urlMatches UrlMatch.typeof_string glob new_URL u m with
    | UrlMatch.Ok b => Ok b
    | UrlMatch.Throws UrlMatch.TypeError => Throws TypeError
    | UrlMatch.Throws UrlMatch.AssertionError => Throws AssertionError
    end.
Proof.
  destruct m as [[p|r|f]|]; simpl; [|done| |done].
  - by destruct p.
  - by destruct (new_URL u).
Qed.

(** A helper that rejects the glob of an open brace, as the one of the
    program does. *)
Definition demo_glob (glob : string) : UrlMatch.RegExp + string :=
  if bool_decide (glob = "{"%string) then inr "SyntaxError"%string
  else inl (UrlMatch.plain_glob glob).


(** The three exceptions, and a predicate on a URL. *)
Example demo_exceptions :
  urlMatches is_string demo_glob UrlMatch.demo_URL "http://host/path" (Some (MString "{"))
    = Throws (Thrown "SyntaxError") /\
  urlMatches is_string demo_glob UrlMatch.demo_URL "/path"
    (Some (MFunction (fun url => inl (bool_decide (UrlMatch.pathname url = "/path"%string)))))
    = Throws TypeError /\
  urlMatches is_string demo_glob UrlMatch.demo_URL "http://host/path"
    (Some (MFunction (fun _ => inr "boom"%string)))
    = Throws (Thrown "boom") /\
  urlMatches is_string demo_glob UrlMatch.demo_URL "http://host/path"
    (Some (MFunction (fun url => inl (bool_decide (UrlMatch.pathname url = "/path"%string)))))
    = Ok true.
Proof. repeat split; reflexivity. Qed.

End UrlMatchLaws.

From stdpp Require Import pretty.

Local Open Scope Z_scope.

(** ** Fetching a URL: [nodeFetch] and [fetchUrl], lines 243-277 *)
Module Fetch.

Inductive exn :=
| TypeError                     (* [new URL] on text that is no URL; [fetch] that fails *)
| Error (message : string)      (* [new Error(message)], lines 255 and 274 *)
| RequestError (code : string). (* what the ['error'] event of the request carries *)

(** A promise settles once: [resolve] and [reject] on a settled promise do
    nothing. *)
Inductive promise :=
| Pending
| Fulfilled (value : string)
| Rejected (reason : exn).

Definition resolve (value : string) (p : promise) : promise :=
  match p with
  | Pending => Fulfilled value
  | _ => p
  end.

Definition reject (reason : exn) (p : promise) : promise :=
  match p with
  | Pending => Rejected reason
  | _ => p
  end.

(** The modules [http] and [https]. *)
Inductive transport := Http | Https.

(** What the request does after [request.end()]: the response arrives
    (the callback of line 250 runs), the response has data or ends, or the
    request fails. *)
Inductive event :=
| Response (statusCode : Z)
| Data (chunk : string)
| End
| Failed (reason : exn).

(** The promise of line 246, and the variable [data] of line 251 once the
    listeners of lines 259-260 are registered on the response. *)
Record state := State {
  promise_ : promise;
  data : option string
}.

(** Lines 250-261 and 263. *)
Definition step (s : state) (e : event) : state :=
  match e with
  | Response statusCode =>
      if bool_decide (statusCode <> 200)
      then State (reject (Error ("HTTP " +:+ pretty statusCode)) (promise_ s)) (data s)
      else State (promise_ s) (Some ""%string)
  | Data chunk =>
      match data s with
      | Some d => State (promise_ s) (Some (d +:+ chunk))
      | None => s
      end
  | End =>
      match data s with
      | Some d => State (resolve d (promise_ s)) (data s)
      | None => s
      end
  | Failed reason => State (reject reason (promise_ s)) (data s)
  end.

(** What a call gives: an exception, or a promise. *)
Inductive outcome :=
| Throws (e : exn)
| Returns (p : promise).

Section Host.

(** [new URL(url)], as far as [nodeFetch] uses it: the protocol of the
    URL, when the text is one; and whether [request] of a module takes a
    URL of a protocol, or throws (a [TypeError] in Node). *)
Variable protocol_of : string -> option string.
Variable request_takes : transport -> string -> bool.

(** Line 249. *)
Definition module_for (protocol : string) : transport :=
  if bool_decide (protocol = "https:"%string) then Https else Http.

(** [nodeFetch(url)], lines 243-267, and the promise it returned after
    the [events] of the request. *)
Definition nodeFetch (url : string) (events : list event) : outcome :=
  match protocol_of url with
  | None => Throws TypeError
  | Some protocol =>
      if request_takes (module_for protocol) protocol
      then Returns (promise_ (foldl step (State Pending None) events))
      else Throws TypeError
  end.

(** The response that [fetch] gives; [ok] is true of the statuses from
    200 to 299, and [text] is [None] when the body cannot be read. *)
Record response := {
  status : Z;
  statusText : string;
  text : option string
}.

Definition ok (r : response) : bool := (200 <=? status r) && (status r <=? 299).

(** Lines 272-276: the promise of [fetch(url).then(...)]; [fetched] is
    [None] when [fetch] rejects. *)
Definition browserFetch (fetched : option response) : promise :=
  match fetched with
  | None => Rejected TypeError
  | Some r =>
      if negb (ok r)
      then Rejected (Error ("HTTP " +:+ pretty (status r) +:+ " " +:+ statusText r))
      else match text r with
           | Some t => Fulfilled t
           | None => Rejected TypeError
           end
  end.

(** [fetchUrl(url)], lines 269-277. *)
Definition fetchUrl (isNode : bool) (url : string) (events : list event)
    (fetched : option response) : outcome :=
  if isNode then nodeFetch url events else Returns (browserFetch fetched).

(** The chunks one after the other. *)
Definition joined (chunks : list string) : string := foldr String.append ""%string chunks.

Lemma append_assoc (s1 s2 s3 : string) : ((s1 +:+ s2) +:+ s3 = s1 +:+ (s2 +:+ s3))%string.
Proof.
  induction s1 as [|c s1 IH]; [done|].
  change (String c ((s1 +:+ s2) +:+ s3) = String c (s1 +:+ (s2 +:+ s3))). by f_equal.
Qed.

Lemma append_nil_r (s : string) : (s +:+ "" = s)%string.
Proof.
  induction s as [|c s IH]; [done|].
  change (String c (s +:+ "") = String c s). by f_equal.
Qed.

(** While the listeners are registered and the promise is pending, data
    adds up. *)
Lemma data_adds_up chunks : forall p d,
  foldl step (State p (Some d)) (map Data chunks) = State p (Some (d +:+ joined chunks)).
Proof.
  induction chunks as [|c chunks IH]; intros p d; simpl.
  - by rewrite append_nil_r.
  - by rewrite IH, append_assoc.
Qed.

(** A settled promise stays as it is. *)
Lemma settled_stays events : forall s,
  promise_ s <> Pending -> promise_ (foldl step s events) = promise_ s.
Proof.
  induction events as [|e events IH]; intros s Hs; [done|].
  simpl. rewrite IH.
  - destruct s as [p d], e as [c|chunk| |reason]; simpl in *;
      repeat case_bool_decide; destruct d; simpl; by destruct p.
  - destruct s as [p d], e as [c|chunk| |reason]; simpl in *;
      repeat case_bool_decide; destruct d; simpl; by destruct p.
Qed.

(** X19.  In Node, for a URL that [new URL] accepts and [request] takes:
    when the response has status 200, the promise is fulfilled at the end of the response,
    with the chunks received one after the other, in order; and whatever
    the request does after that, the promise stays as it is. *)
Theorem nodeFetch_joins_chunks url protocol chunks rest :
  protocol_of url = Some protocol ->
  request_takes (module_for protocol) protocol = true ->
  nodeFetch url (Response 200 :: map Data chunks) = Returns Pending /\
  nodeFetch url (Response 200 :: map Data chunks ++ End :: rest)
  = Returns (Fulfilled (joined chunks)).
Proof.
  intros Hurl Htakes. unfold nodeFetch. rewrite Hurl, Htakes. simpl.
  split; [by rewrite data_adds_up|].
  rewrite foldl_app, data_adds_up. simpl. by rewrite settled_stays.
Qed.

(** X20.  Only the status 200 is a success in Node, for a URL that
    [new URL] accepts and [request] takes: for any other status,
    the other statuses from 200 to 299 among them, the promise is rejected
    with ['HTTP ' + status] when the response arrives, and the data and the
    end of the response do not change that; a browser takes every status
    from 200 to 299.  And text that is no URL makes [fetchUrl] throw in
    Node, where [new URL] runs before the promise is returned. *)
Theorem only_200_succeeds_in_node url protocol statusCode rest :
  protocol_of url = Some protocol ->
  request_takes (module_for protocol) protocol = true ->
  statusCode <> 200 ->
  fetchUrl true url (Response statusCode :: rest) None
    = Returns (Rejected (Error ("HTTP " +:+ pretty statusCode))) /\
  (forall r t,
     200 <= status r <= 299 -> text r = Some t ->
     fetchUrl false url [] (Some r) = Returns (Fulfilled t)) /\
  (forall url' events fetched,
     protocol_of url' = None ->
     fetchUrl true url' events fetched = Throws TypeError /\
     exists p, fetchUrl false url' events fetched = Returns p).
Proof.
  intros Hurl Htakes Hstatus. split; [|split].
  - unfold fetchUrl, nodeFetch. rewrite Hurl, Htakes. simpl.
    rewrite bool_decide_eq_true_2 by done. by rewrite settled_stays.
  - intros r t Hr Ht. unfold fetchUrl, browserFetch, ok.
    rewrite (proj2 (Z.leb_le 200 (status r))) by lia.
    rewrite (proj2 (Z.leb_le (status r) 299)) by lia. simpl. by rewrite Ht.
  - intros url' events fetched Hnone. unfold fetchUrl, nodeFetch.
    rewrite Hnone. simpl. eauto.
Qed.

End Host.

(** [new URL] on the URLs used below. *)
Definition demo_protocol (url : string) : option string :=
  if bool_decide (url = "http://host/json"%string) then Some "http:"%string
  else if bool_decide (url = "https://host/json"%string) then Some "https:"%string
  else None.

(** [http.request] takes ["http:"] and [https.request] takes ["https:"]. *)
Definition demo_takes (m : transport) (protocol : string) : bool :=
  match m with
  | Http => bool_decide (protocol = "http:"%string)
  | Https => bool_decide (protocol = "https:"%string)
  end.

Lemma nodeFetch_joins_chunks_witness :
  nodeFetch demo_protocol demo_takes "http://host/json" (Response 200 :: map Data ["{"; "}"]%string)
    = Returns Pending /\
  nodeFetch demo_protocol demo_takes "http://host/json"
    (Response 200 :: map Data ["{"; "}"]%string ++ End :: [Failed (RequestError "ECONNRESET")])
  = Returns (Fulfilled (joined ["{"; "}"]%string)).
Proof.
  apply (nodeFetch_joins_chunks demo_protocol demo_takes "http://host/json" "http:"
           ["{"; "}"]%string [Failed (RequestError "ECONNRESET")]); reflexivity.
Defined.

Lemma only_200_succeeds_in_node_witness :
  fetchUrl demo_protocol demo_takes true "https://host/json" (Response 204 :: [End]) None
    = Returns (Rejected (Error ("HTTP " +:+ pretty 204))) /\
  (forall r t,
     200 <= status r <= 299 -> text r = Some t ->
     fetchUrl demo_protocol demo_takes false "https://host/json" [] (Some r) = Returns (Fulfilled t)) /\
  (forall url' events fetched,
     demo_protocol url' = None ->
     fetchUrl demo_protocol demo_takes true url' events fetched = Throws TypeError /\
     exists p, fetchUrl demo_protocol demo_takes false url' events fetched = Returns p).
Proof.
  apply (only_200_succeeds_in_node demo_protocol demo_takes "https://host/json" "https:" 204 [End]).
  - reflexivity.
  - reflexivity.
  - discriminate.
Defined.

(** The message of the error, and the module chosen. *)
Example demo_fetch :
  fetchUrl demo_protocol demo_takes true "http://host/json" [Response 404; Data "x"; End] None
    = Returns (Rejected (Error "HTTP 404")) /\
  module_for "https:" = Https /\
  module_for "ftp:" = Http /\
  nodeFetch demo_protocol (fun _ _ => false) "http://host/json" [] = Throws TypeError.
Proof. repeat split; reflexivity. Qed.

End Fetch.

(** ** Callbacks as promises: [promisify], lines 37-52 *)
Module Promisify.

(** JavaScript values, as far as [callback] looks at them (numbers are
    integers here, so there is no NaN). *)
#[warnings="-register-all"]
Inductive value :=
| Undefined
| Null
| Boolean (b : bool)
| Number (n : Z)
| Text (s : string)
| Array (elements : list value)
| Object (reference : nat).

(** [if (err)], line 42. *)
Definition truthy (v : value) : bool :=
  match v with
  | Undefined | Null => false
  | Boolean b => b
  | Number n => negb (n =? 0)
  | Text s => negb (bool_decide (s = ""%string))
  | Array _ | Object _ => true
  end.

Inductive promise :=
| Pending
| Fulfilled (v : value)
| Rejected (reason : value).

Definition resolve (v : value) (p : promise) : promise :=
  match p with
  | Pending => Fulfilled v
  | _ => p
  end.

Definition reject (reason : value) (p : promise) : promise :=
  match p with
  | Pending => Rejected reason
  | _ => p
  end.

(** [callback(err, ...result)], lines 41-47. *)
Definition callback (err : value) (result : list value) (p : promise) : promise :=
  if truthy err then reject err p
  else if bool_decide (length result = 1%nat) then resolve (default Undefined (head result)) p
  else resolve (Array result) p.

(** What [nodeFunction] does when it is called with the callback, in
    order: it calls the callback, or the call of line 48 throws, which
    rejects the promise whose executor it runs in. *)
Inductive action :=
| Call (err : value) (result : list value)
| Throw (exception : value).

Definition step (p : promise) (a : action) : promise :=
  match a with
  | Call err result => callback err result p
  | Throw exception => reject exception p
  end.

(** [promisified(...args)], lines 39-50: the promise, after what
    [nodeFunction] did. *)
Definition promisified (nodeFunction : list action) : promise :=
  foldl step Pending nodeFunction.

(** Lines 37-52; [None] when the assertion of line 38 fails. *)
Definition promisify (isNode : bool) : option (list action -> promise) :=
  if isNode then Some promisified else None.

Lemma settled_for_good actions : forall p,
  p <> Pending -> foldl step p actions = p.
Proof.
  induction actions as [|a actions IH]; intros p Hp; [done|].
  simpl. rewrite IH.
  - destruct a as [err result|e]; simpl; unfold callback;
      repeat case_match; by destruct p.
  - destruct a as [err result|e]; simpl; unfold callback;
      repeat case_match; by destruct p.
Qed.

(** X21.  The promise is settled by the first thing that [nodeFunction]
    does, and by that alone.  A call of the callback with an error that is
    not falsy rejects it with the error; with a falsy one, [0] and the
    empty string among them, the promise is fulfilled: with the result
    when there is one, and with the array of the results when there are
    several, or none, in which case it is the empty array and not
    [undefined]. *)
Theorem promisified_settles_once :
  (forall first rest,
     promisified (first :: rest) = promisified [first] /\
     promisified [first] <> Pending) /\
  (forall err result rest,
     truthy err = true -> promisified (Call err result :: rest) = Rejected err) /\
  (forall err v rest,
     truthy err = false -> promisified (Call err [v] :: rest) = Fulfilled v) /\
  (forall err result rest,
     truthy err = false -> length result <> 1%nat ->
     promisified (Call err result :: rest) = Fulfilled (Array result)) /\
  (forall exception rest, promisified (Throw exception :: rest) = Rejected exception).
Proof.
  assert (Hfirst : forall first rest,
            promisified (first :: rest) = promisified [first] /\
            promisified [first] <> Pending).
  { intros first rest.
    assert (Hsettled : promisified [first] <> Pending).
    { unfold promisified. simpl. destruct first as [err result|e]; simpl; [|done].
      unfold callback. by repeat case_match. }
    split; [|done]. unfold promisified in *. simpl in *. by apply settled_for_good. }
  split; [done|]. split; [|split; [|split]].
  - intros err result rest Herr. rewrite (proj1 (Hfirst _ rest)).
    unfold promisified. simpl. unfold callback. by rewrite Herr.
  - intros err v rest Herr. rewrite (proj1 (Hfirst _ rest)).
    unfold promisified. simpl. unfold callback. by rewrite Herr.
  - intros err result rest Herr Hlen. rewrite (proj1 (Hfirst _ rest)).
    unfold promisified. simpl. unfold callback. rewrite Herr.
    by rewrite bool_decide_eq_false_2.
  - intros exception rest. by rewrite (proj1 (Hfirst _ rest)).
Qed.

(** [fs.writeFile] calls back with [null] alone: the promise is fulfilled
    with the empty array.  [fs.write] calls back with two results: with
    the array of both. *)
Example demo_promisified :
  promisify true = Some promisified /\
  promisified [Call Null []] = Fulfilled (Array []) /\
  promisified [Call Null [Number 3; Object 0]] = Fulfilled (Array [Number 3; Object 0]) /\
  promisified [Call Null [Number 3]] = Fulfilled (Number 3) /\
  promisified [Call (Number 0) [Text "x"]; Call (Object 1) []] = Fulfilled (Text "x") /\
  promisified [Throw (Object 1); Call Null []] = Rejected (Object 1).
Proof. repeat split; reflexivity. Qed.

End Promisify.
